(** * draw.py: SVG flattening and viewport mapping

    A shallow embedding of [src/quockhanh2025/draw.py].

    Numbers.  A finite Python float is a rational [Q].  The formulas of
    the program (matrices, bounds, margins, window size) are read in
    exact arithmetic, without rounding.  Where rounding or overflow
    decides what the program does, it is read in binary64 arithmetic
    ([float64], [round64]): the quotient whose ceiling is the sample
    count of l.138, and the spans and the aspect ratio of l.219-240.
    The infinite sentinels [float('inf')] and [float('-inf')] used by
    the bounds loops are modelled by the type [ext].  Integers returned
    by [ceil] and by the window queries are [Z].

    Outside the finite reading: [py_float] follows the decimal grammar
    of [float] and gives a literal its exact value.  [float] itself is
    [float_of_string]: it also takes the spellings [inf], [infinity] and
    [nan], and turns a literal beyond the range of a double into an
    infinity.  Those values are not followed through [_to_float], the
    viewBox and [parse_transform], which are read on finite numbers;
    [math.cos] and [math.sin] are total here and raise [ValueError] on
    an infinity there.

    Text.  Strings are Rocq [string]s of ASCII characters; the character
    classes of [re] ([\w], [\s], [\d]) and of [str.split]/[str.strip] are
    those of Python restricted to codes below 128.

    Errors.  A Python exception is a value [Raise e] of the type
    [result]. *)

From Stdlib Require Import QArith Qround Qpower Qminmax Lqa ZArith Lia Bool List.
From Stdlib Require Import Ascii String.
From stdpp Require Import base option gmap strings.
Import ListNotations.

Local Open Scope string_scope.
Local Open Scope Q_scope.

(** ** Exceptions *)

Inductive exn : Type :=
| ValueError
| ZeroDivisionError
| IndexError
| OverflowError.

Inductive result (A : Type) : Type :=
| Ok (a : A)
| Raise (e : exn).

Arguments Ok {A} a.
Arguments Raise {A} e.

Definition bind {A B : Type} (r : result A) (k : A -> result B) : result B :=
  match r with
  | Ok a => k a
  | Raise e => Raise e
  end.

Notation "'do' x <- r ; k" := (bind r (fun x => k))
  (at level 10, x name, r at level 100, k at level 200).

(** [[f(x) for x in l]] with a body that may raise. *)
Fixpoint map_result {A B : Type} (f : A -> result B) (l : list A) : result (list B) :=
  match l with
  | [] => Ok []
  | x :: l' => do y <- f x; do ys <- map_result f l'; Ok (y :: ys)
  end.

(** [try: r except Exception: default]. *)
Definition try_except {A : Type} (r : result A) (default : A) : A :=
  match r with
  | Ok a => a
  | Raise _ => default
  end.

(** ** Characters and the string methods the program calls *)

Definition code (c : ascii) : N := N_of_ascii c.

Definition in_range (lo hi : N) (c : ascii) : bool :=
  (lo <=? code c)%N && (code c <=? hi)%N.

(** [\d] *)
Definition is_digit (c : ascii) : bool := in_range 48 57 c.

(** [\w] : letters, digits and the underscore. *)
Definition is_word (c : ascii) : bool :=
  is_digit c || in_range 65 90 c || in_range 97 122 c || (code c =? 95)%N.

(** [\s], and the separators of [str.split()] and [str.strip()]. *)
Definition is_space (c : ascii) : bool :=
  in_range 9 13 c || in_range 28 31 c || (code c =? 32)%N.

(** The white space that [float] itself skips around a number. *)
Definition is_float_space (c : ascii) : bool :=
  in_range 9 13 c || (code c =? 32)%N.

Definition is_sign (c : ascii) : bool :=
  (code c =? 43)%N || (code c =? 45)%N.

Definition is_e (c : ascii) : bool :=
  (code c =? 101)%N || (code c =? 69)%N.

Definition is_char (k : N) (c : ascii) : bool := (code c =? k)%N.

Definition lparen : N := 40.
Definition rparen : N := 41.
Definition comma : N := 44.
Definition dot : N := 46.
Definition colon : N := 58.
Definition semicolon : N := 59.
Definition underscore : N := 95.

Definition is_empty (s : string) : bool :=
  match s with
  | EmptyString => true
  | String _ _ => false
  end.

Definition snoc (s : string) (c : ascii) : string :=
  s ++ String c EmptyString.

(** The longest prefix of [s] whose characters satisfy [p], and the rest. *)
Fixpoint span (p : ascii -> bool) (s : string) : string * string :=
  match s with
  | EmptyString => (EmptyString, EmptyString)
  | String c s' =>
      if p c then let '(a, r) := span p s' in (String c a, r)
      else (EmptyString, s)
  end.

(** Whether every character of [s] satisfies [p]. *)
Fixpoint string_all (p : ascii -> bool) (s : string) : bool :=
  match s with
  | EmptyString => true
  | String c s' => p c && string_all p s'
  end.

(** [s.lower()] *)
Definition lower_char (c : ascii) : ascii :=
  if in_range 65 90 c then ascii_of_N (code c + 32) else c.

Fixpoint lower (s : string) : string :=
  match s with
  | EmptyString => EmptyString
  | String c s' => String (lower_char c) (lower s')
  end.

(** Removal of the leading and trailing characters that satisfy [p]. *)
Fixpoint lstrip_by (p : ascii -> bool) (s : string) : string :=
  match s with
  | EmptyString => EmptyString
  | String c s' => if p c then lstrip_by p s' else s
  end.

Fixpoint rstrip_by (p : ascii -> bool) (s : string) : string :=
  match s with
  | EmptyString => EmptyString
  | String c s' =>
      let r := rstrip_by p s' in
      if is_empty r && p c then EmptyString else String c r
  end.

(** [s.strip()] *)
Definition strip (s : string) : string := rstrip_by is_space (lstrip_by is_space s).

(** [s.replace(',', ' ')] *)
Fixpoint replace_comma (s : string) : string :=
  match s with
  | EmptyString => EmptyString
  | String c s' =>
      String (if is_char comma c then " "%char else c) (replace_comma s')
  end.

(** [s.replace('px', '')] : occurrences are removed from left to right,
    without overlap. *)
Fixpoint remove_px (s : string) : string :=
  match s with
  | EmptyString => EmptyString
  | String c s1 =>
      match s1 with
      | String c' s2 =>
          if is_char 112 c && is_char 120 c' then remove_px s2
          else String c (remove_px s1)
      | EmptyString => s
      end
  end.

(** [s.split()] : the maximal runs of non-space characters. *)
Fixpoint split_ws_from (cur : string) (s : string) : list string :=
  match s with
  | EmptyString => if is_empty cur then [] else [cur]
  | String c s' =>
      if is_space c
      then (if is_empty cur then split_ws_from EmptyString s'
            else cur :: split_ws_from EmptyString s')
      else split_ws_from (snoc cur c) s'
  end.

Definition split_ws (s : string) : list string := split_ws_from EmptyString s.

(** [s.split(sep)] for a one-character separator: empty fields are kept. *)
Fixpoint split_on_from (sep : N) (cur : string) (s : string) : list string :=
  match s with
  | EmptyString => [cur]
  | String c s' =>
      if is_char sep c then cur :: split_on_from sep EmptyString s'
      else split_on_from sep (snoc cur c) s'
  end.

Definition split_on (sep : N) (s : string) : list string :=
  split_on_from sep EmptyString s.

(** [sep in s] and [s.split(sep, 1)] for a separator that occurs. *)
Fixpoint contains_char (sep : N) (s : string) : bool :=
  match s with
  | EmptyString => false
  | String c s' => is_char sep c || contains_char sep s'
  end.

Fixpoint split_once (sep : N) (s : string) : string * string :=
  match s with
  | EmptyString => (EmptyString, EmptyString)
  | String c s' =>
      if is_char sep c then (EmptyString, s')
      else let '(k, v) := split_once sep s' in (String c k, v)
  end.

(** ** [float(s)] on the decimal grammar

    An optional sign; then digits, a dot and digits, of which the digits
    before or after the dot may be missing but not both, and the dot may
    be missing after digits; then an optional exponent, [e] or [E] with
    an optional sign and digits.  A group of digits may hold single
    underscores between digits.  White space (tab to carriage return,
    and the blank) is skipped on both sides.  The value is that of the
    literal, exact.  The spellings [inf], [infinity] and [nan], which
    [float] also takes, denote no rational: on them [py_float] raises;
    [float_of_string], further down, is [float] with these spellings,
    with rounding and with overflow. *)

Definition digit_val (c : ascii) : Z := Z.of_N (code c - 48).

(** The value of a run of digits, most significant first. *)
Fixpoint digits_val_from (acc : Z) (s : string) : Z :=
  match s with
  | EmptyString => acc
  | String c s' => digits_val_from (10 * acc + digit_val c)%Z s'
  end.

Definition digits_val (s : string) : Z := digits_val_from 0 s.

(** After a digit: further digits, each optionally preceded by one
    underscore.  Returns the digits read and the rest. *)
Fixpoint digit_run (s : string) : string * string :=
  match s with
  | EmptyString => (EmptyString, EmptyString)
  | String c s1 =>
      if is_digit c then let '(d, r) := digit_run s1 in (String c d, r)
      else if is_char underscore c then
        match s1 with
        | String c' s2 =>
            if is_digit c' then let '(d, r) := digit_run s2 in (String c' d, r)
            else (EmptyString, s)
        | EmptyString => (EmptyString, s)
        end
      else (EmptyString, s)
  end.

(** [digitpart], or nothing when [s] does not start with a digit. *)
Definition digitpart (s : string) : string * string :=
  match s with
  | String c s' =>
      if is_digit c then let '(d, r) := digit_run s' in (String c d, r)
      else (EmptyString, s)
  | EmptyString => (EmptyString, EmptyString)
  end.

Definition opt_sign (s : string) : bool * string :=
  match s with
  | String c s' =>
      if is_char 45 c then (true, s')
      else if is_char 43 c then (false, s')
      else (false, s)
  | EmptyString => (false, EmptyString)
  end.

Definition pow10 (e : Z) : Q := Qpower 10 e.

(** The number denoted by sign, integer digits, fraction digits and
    exponent. *)
Definition decimal_value (neg : bool) (ip fp : string) (e : Z) : Q :=
  let m := (inject_Z (digits_val (ip ++ fp)) * pow10 (- Z.of_nat (String.length fp))) * pow10 e in
  if neg then - m else m.

(** The exponent part, which must run to the end of the text. *)
Definition float_exponent (s : string) : result Z :=
  match s with
  | EmptyString => Ok 0%Z
  | String c s1 =>
      if is_e c then
        let '(neg, s2) := opt_sign s1 in
        let '(ed, s3) := digitpart s2 in
        if is_empty ed || negb (is_empty s3) then Raise ValueError
        else Ok (if neg then (- digits_val ed)%Z else digits_val ed)
      else Raise ValueError
  end.

Definition py_float (text : string) : result Q :=
  let s := rstrip_by is_float_space (lstrip_by is_float_space text) in
  let '(neg, s1) := opt_sign s in
  let '(ip, s2) := digitpart s1 in
  match s2 with
  | String c s3 =>
      if is_char dot c then
        let '(fp, s4) := digitpart s3 in
        if is_empty ip && is_empty fp then Raise ValueError
        else do e <- float_exponent s4; Ok (decimal_value neg ip fp e)
      else
        if is_empty ip then Raise ValueError
        else do e <- float_exponent s2; Ok (decimal_value neg ip EmptyString e)
  | EmptyString =>
      if is_empty ip then Raise ValueError
      else Ok (decimal_value neg ip EmptyString 0)
  end.

(** ** The two regular expressions

    [re.findall] scans from left to right: at each position it tries the
    pattern, and after a match it resumes at the end of the match.  Both
    patterns below match at least one character, and in both the greedy
    choice is the only one that can succeed, or the one tried first, so
    each is matched by a deterministic scan.

    [float_re] (l.78) reads: an optional sign; any digits, an optional
    dot, one or more digits; optionally an [e] or [E], an optional sign
    and one or more digits.  The pattern of l.88 reads: a group of one or
    more word characters; any white space; an opening parenthesis; a
    group of any characters other than the closing parenthesis; a closing
    parenthesis. *)

Definition starts_with (p : ascii -> bool) (s : string) : bool :=
  match s with
  | String c _ => p c
  | EmptyString => false
  end.

(** The mantissa of [float_re]: all the digits, then a dot and its digits
    when a digit follows the dot; the digits alone otherwise (the engine
    gives the last digit back to the closing group of digits); no match
    without a digit. *)
Definition scan_mantissa (s : string) : option (string * string * string) :=
  let '(ip, s2) := span is_digit s in
  match s2 with
  | String c s3 =>
      if is_char dot c && starts_with is_digit s3 then
        let '(fp, s4) := span is_digit s3 in Some (ip, fp, s4)
      else if is_empty ip then None else Some (ip, EmptyString, s2)
  | EmptyString => if is_empty ip then None else Some (ip, EmptyString, s2)
  end.

(** The optional exponent of [float_re]: taken when it matches in full. *)
Definition scan_exponent (s : string) : string * string :=
  match s with
  | String c s1 =>
      if is_e c then
        let '(sg, s2) :=
          match s1 with
          | String c' s1' =>
              if is_sign c' then (String c' EmptyString, s1')
              else (EmptyString, s1)
          | EmptyString => (EmptyString, s1)
          end in
        if starts_with is_digit s2 then
          let '(ed, s3) := span is_digit s2 in (String c (sg ++ ed), s3)
        else (EmptyString, s)
      else (EmptyString, s)
  | EmptyString => (EmptyString, s)
  end.

Definition mantissa_text (ip fp : string) : string :=
  if is_empty fp then ip else ip ++ String (ascii_of_N dot) fp.

(** One match of [float_re] at the start of [s]: the matched text.  A sign that is not followed by a
    mantissa matches nothing, with or without the sign. *)
Definition match_float (s : string) : option string :=
  let '(sg, s1) :=
    match s with
    | String c s' =>
        if is_sign c then (String c EmptyString, s') else (EmptyString, s)
    | EmptyString => (EmptyString, s)
    end in
  match scan_mantissa s1 with
  | Some (ip, fp, s2) =>
      let '(ex, _) := scan_exponent s2 in
      Some (sg ++ mantissa_text ip fp ++ ex)
  | None => None
  end.

(** [re.findall(float_re, s)]; [skip] counts the characters of the last
    match that are still to be passed over. *)
Fixpoint findall_floats_from (skip : nat) (s : string) : list string :=
  match s with
  | EmptyString => []
  | String _ s' =>
      match skip with
      | S k => findall_floats_from k s'
      | O =>
          match match_float s with
          | Some tok => tok :: findall_floats_from (String.length tok - 1) s'
          | None => findall_floats_from 0 s'
          end
      end
  end.

Definition findall_floats (s : string) : list string := findall_floats_from 0 s.

(** [parse_numbers] (l.79) *)
Definition parse_numbers (s : string) : result (list Q) :=
  map_result py_float (findall_floats s).

(** One match of the pattern of l.88 at the start of [s]: the two groups
    and the length of the match.  The run of word characters, the run of
    spaces and the run of characters other than a closing parenthesis
    are each taken whole: giving a character back leaves one that the
    next item of the pattern cannot match. *)
Definition match_call (s : string) : option (string * string * nat) :=
  let '(func, s1) := span is_word s in
  if is_empty func then None
  else
    let '(sp, s2) := span is_space s1 in
    match s2 with
    | String c s3 =>
        if is_char lparen c then
          let '(args, s4) := span (fun c => negb (is_char rparen c)) s3 in
          if starts_with (is_char rparen) s4 then
            Some (func, args,
                  (String.length func + String.length sp + 1 + String.length args + 1)%nat)
          else None
        else None
    | EmptyString => None
    end.

Fixpoint findall_calls_from (skip : nat) (s : string) : list (string * string) :=
  match s with
  | EmptyString => []
  | String _ s' =>
      match skip with
      | S k => findall_calls_from k s'
      | O =>
          match match_call s with
          | Some (func, args, n) => (func, args) :: findall_calls_from (n - 1) s'
          | None => findall_calls_from 0 s'
          end
      end
  end.

Definition findall_calls (s : string) : list (string * string) :=
  findall_calls_from 0 s.

(** ** Matrices (l.55-76) *)

Record Mat : Type := mkMat {
  m00 : Q; m01 : Q; m02 : Q;
  m10 : Q; m11 : Q; m12 : Q;
  m20 : Q; m21 : Q; m22 : Q
}.

Definition mat_identity : Mat :=
  mkMat 1 0 0
        0 1 0
        0 0 1.

Definition mat_mul (a b : Mat) : Mat :=
  mkMat
    (m00 a * m00 b + m01 a * m10 b + m02 a * m20 b)
    (m00 a * m01 b + m01 a * m11 b + m02 a * m21 b)
    (m00 a * m02 b + m01 a * m12 b + m02 a * m22 b)
    (m10 a * m00 b + m11 a * m10 b + m12 a * m20 b)
    (m10 a * m01 b + m11 a * m11 b + m12 a * m21 b)
    (m10 a * m02 b + m11 a * m12 b + m12 a * m22 b)
    (m20 a * m00 b + m21 a * m10 b + m22 a * m20 b)
    (m20 a * m01 b + m21 a * m11 b + m22 a * m21 b)
    (m20 a * m02 b + m21 a * m12 b + m22 a * m22 b).

Definition Point2 : Type := (Q * Q)%type.

Definition mat_apply (m : Mat) (x y : Q) : Point2 :=
  let nx := m00 m * x + m01 m * y + m02 m in
  let ny := m10 m * x + m11 m * y + m12 m in
  (nx, ny).

(** Equality of matrices and of points as rational numbers. *)
Definition mat_eq (a b : Mat) : Prop :=
  m00 a == m00 b /\ m01 a == m01 b /\ m02 a == m02 b /\
  m10 a == m10 b /\ m11 a == m11 b /\ m12 a == m12 b /\
  m20 a == m20 b /\ m21 a == m21 b /\ m22 a == m22 b.

Definition point_eq (p q : Point2) : Prop :=
  fst p == fst q /\ snd p == snd q.

(** A matrix whose last row is [0, 0, 1]. *)
Definition affine (m : Mat) : Prop :=
  m20 m == 0 /\ m21 m == 0 /\ m22 m == 1.

(** ** The [math] functions used by [rotate]

    [cos], [sin] and [radians] return floats, hence rationals; their
    values are those of the platform's library and are left abstract. *)

Class MathLib : Type := {
  cos : Q -> Q;
  sin : Q -> Q;
  radians : Q -> Q
}.

(** A table of the quarter turns, exact on multiples of 90 degrees, for
    running the definitions on examples. *)
Definition quarter_turns (deg : Q) : Z := (Qfloor (deg / 90) mod 4)%Z.

Definition quarter_cos (q : Q) : Q :=
  match quarter_turns q with
  | 0%Z => 1
  | 2%Z => -1
  | _ => 0
  end.

Definition quarter_sin (q : Q) : Q :=
  match quarter_turns q with
  | 1%Z => 1
  | 3%Z => -1
  | _ => 0
  end.

Definition quarter_math : MathLib :=
  {| cos := quarter_cos; sin := quarter_sin; radians := fun deg => deg |}.

(** ** [parse_transform] (l.82-115) *)

Section Transform.

Context {math : MathLib}.

(** [vals[i]], read only under a guard on [len(vals)]. *)
Definition item (vals : list Q) (i : nat) : Q := nth i vals 0.

Definition translation (tx ty : Q) : Mat :=
  mkMat 1 0 tx
        0 1 ty
        0 0 1.

Definition scaling (sx sy : Q) : Mat :=
  mkMat sx 0 0
        0 sy 0
        0 0 1.

Definition rotation (ang : Q) : Mat :=
  let a := cos (radians ang) in
  let b := sin (radians ang) in
  mkMat a (- b) 0
        b a 0
        0 0 1.

(** The matrix [tm] that one iteration of the loop builds from the
    lower-cased function name and the numbers of its argument list. *)
Definition transform_matrix (name : string) (vals : list Q) : Mat :=
  let n := List.length vals in
  if String.eqb name "translate" then
    let tx := if (0 <? n)%nat then item vals 0 else 0 in
    let ty := if (1 <? n)%nat then item vals 1 else 0 in
    translation tx ty
  else if String.eqb name "scale" then
    let sx := if (0 <? n)%nat then item vals 0 else 1 in
    let sy := if (1 <? n)%nat then item vals 1 else sx in
    scaling sx sy
  else if String.eqb name "rotate" then
    let ang := if (0 <? n)%nat then item vals 0 else 0 in
    let cx := if (2 <? n)%nat then item vals 1 else 0 in
    let cy := if (2 <? n)%nat then item vals 2 else 0 in
    if (2 <? n)%nat then
      mat_mul (mat_mul (translation cx cy) (rotation ang)) (translation (- cx) (- cy))
    else rotation ang
  else if String.eqb name "matrix" && (6 <=? n)%nat then
    match firstn 6 vals with
    | [a; b; c; d; e; f] =>
        mkMat a c e
              b d f
              0 0 1
    | _ => mat_identity
    end
  else mat_identity.

(** The body of the loop for one match [(func, args_str)]. *)
Definition transform_step (m : Mat) (call : string * string) : result Mat :=
  let '(func, args_str) := call in
  do vals <- parse_numbers args_str;
  let name := lower func in
  let tm := transform_matrix name vals in
  Ok (mat_mul tm m).

Fixpoint transform_loop (m : Mat) (calls : list (string * string)) : result Mat :=
  match calls with
  | [] => Ok m
  | call :: rest => do m' <- transform_step m call; transform_loop m' rest
  end.

Definition parse_transform (s : string) : result Mat :=
  if is_empty s then Ok mat_identity
  else transform_loop mat_identity (findall_calls (strip s)).

End Transform.

(** ** Comparisons and division on numbers *)

Definition Qltb (a b : Q) : bool := negb (Qle_bool b a).

(** [a / b] raises on a zero divisor. *)
Definition py_div (a b : Q) : result Q :=
  if Qeq_bool b 0 then Raise ZeroDivisionError else Ok (a / b).

(** [max(a, b)] and [min(a, b)] keep the first argument unless the second
    is strictly beyond it. *)
Definition py_max (a b : Q) : Q := if Qltb a b then b else a.
Definition py_min (a b : Q) : Q := if Qltb b a then b else a.

(** A float that may be one of the infinite sentinels. *)
Inductive ext : Type :=
| NegInf
| Fin (q : Q)
| PosInf.

(** [x < e] and [x > e] for a finite [x]. *)
Definition lt_ext (x : Q) (e : ext) : bool :=
  match e with
  | NegInf => false
  | Fin q => Qltb x q
  | PosInf => true
  end.

Definition gt_ext (x : Q) (e : ext) : bool :=
  match e with
  | NegInf => true
  | Fin q => Qltb q x
  | PosInf => false
  end.

(** [min(e, x)] and [max(e, x)] *)
Definition min_ext (e : ext) (x : Q) : ext := if lt_ext x e then Fin x else e.
Definition max_ext (e : ext) (x : Q) : ext := if gt_ext x e then Fin x else e.

Definition is_pos_inf (e : ext) : bool :=
  match e with PosInf => true | _ => false end.

Definition is_neg_inf (e : ext) : bool :=
  match e with NegInf => true | _ => false end.

(** The float held by an accumulator that has left its sentinel. *)
Definition fin (e : ext) : Q :=
  match e with Fin q => q | _ => 0 end.

(** ** Binary64 arithmetic

    A float is a rational that is a double, one of the two infinities,
    or a nan.  An operation rounds its exact result to the nearest
    double, ties to the even significand, and overflows to an infinity
    from [2^1024 - 2^970] on.  The sign of a zero is not kept: the
    zeros that the program can divide by are positive, and nothing else
    in it tells the two zeros apart. *)

Inductive float64 : Type :=
| Finite (q : Q)
| PlusInf
| MinusInf
| NaN.

Definition pow2 (e : Z) : Q := Qpower 2 e.

(** The exponent [k] with [2^k <= q < 2^(k+1)], for [q > 0]. *)
Definition floor_log2 (q : Q) : Z :=
  let k := (Z.log2 (Qnum q) - Z.log2 (Zpos (Qden q)))%Z in
  if Qle_bool (pow2 k) q then k else (k - 1)%Z.

(** The nearest integer, a tie going to the even one. *)
Definition round_half_even (x : Q) : Z :=
  let f := Qfloor x in
  match Qcompare (x - inject_Z f) (1 # 2) with
  | Lt => f
  | Gt => (f + 1)%Z
  | Eq => if Z.even f then f else (f + 1)%Z
  end.

(** The double nearest to [q > 0]: a significand of 53 bits, on the
    grid of the smallest subnormal [2^-1074] below [2^-1022]. *)
Definition round64_pos (q : Q) : float64 :=
  let e := Z.max (-1074) (floor_log2 q - 52) in
  let v := inject_Z (round_half_even (q / pow2 e)) * pow2 e in
  if Qle_bool (pow2 1024) v then PlusInf else Finite (Qred v).

Definition fneg (x : float64) : float64 :=
  match x with
  | Finite q => Finite (Qred (- q))
  | PlusInf => MinusInf
  | MinusInf => PlusInf
  | NaN => NaN
  end.

Definition round64 (q : Q) : float64 :=
  let q := Qred q in
  match Qcompare q 0 with
  | Eq => Finite 0
  | Gt => round64_pos q
  | Lt => fneg (round64_pos (Qred (- q)))
  end.

Definition is_zero (x : float64) : bool :=
  match x with
  | Finite q => Qeq_bool q 0
  | _ => false
  end.

Definition is_finite (x : float64) : bool :=
  match x with
  | Finite _ => true
  | _ => false
  end.

(** Whether [x] is below zero. *)
Definition is_negative (x : float64) : bool :=
  match x with
  | Finite q => Qltb q 0
  | MinusInf => true
  | _ => false
  end.

Definition signed_inf (negative : bool) : float64 :=
  if negative then MinusInf else PlusInf.

(** [x + y], [x - y] and [x * y] *)
Definition fadd (x y : float64) : float64 :=
  match x, y with
  | NaN, _ | _, NaN => NaN
  | Finite a, Finite b => round64 (a + b)
  | PlusInf, MinusInf | MinusInf, PlusInf => NaN
  | PlusInf, _ | _, PlusInf => PlusInf
  | MinusInf, _ | _, MinusInf => MinusInf
  end.

Definition fsub (x y : float64) : float64 := fadd x (fneg y).

Definition fmul (x y : float64) : float64 :=
  match x, y with
  | NaN, _ | _, NaN => NaN
  | Finite a, Finite b => round64 (a * b)
  | _, _ =>
      if is_zero x || is_zero y then NaN
      else signed_inf (xorb (is_negative x) (is_negative y))
  end.

(** [x / y] raises on a zero divisor, whatever [x] is. *)
Definition fdiv (x y : float64) : result float64 :=
  if is_zero y then Raise ZeroDivisionError
  else
    Ok match x, y with
       | NaN, _ | _, NaN => NaN
       | Finite a, Finite b => round64 (a / b)
       | Finite _, _ => Finite 0
       | _, Finite _ => signed_inf (xorb (is_negative x) (is_negative y))
       | _, _ => NaN
       end.

(** [x < y]: false as soon as one side is a nan. *)
Definition flt (x y : float64) : bool :=
  match x, y with
  | NaN, _ | _, NaN => false
  | Finite a, Finite b => Qltb a b
  | Finite _, PlusInf => true
  | Finite _, MinusInf => false
  | PlusInf, _ => false
  | MinusInf, MinusInf => false
  | MinusInf, _ => true
  end.

(** [max(x, y)] keeps [x] unless [y] is strictly above it. *)
Definition fmax (x y : float64) : float64 := if flt x y then y else x.

(** An integer operand of a float operation. *)
Definition int_to_float (z : Z) : result float64 :=
  match round64 (inject_Z z) with
  | Finite q => Ok (Finite q)
  | _ => Raise OverflowError
  end.

(** [math.ceil] *)
Definition py_ceil (x : float64) : result Z :=
  match x with
  | Finite q => Ok (Qceiling q)
  | PlusInf | MinusInf => Raise OverflowError
  | NaN => Raise ValueError
  end.


(** [float(s)] as a float.  Besides the decimal grammar of [py_float],
    whose value it rounds, [float] takes the spellings [inf], [infinity]
    and [nan], in either case and after an optional sign. *)
Definition float_of_string (text : string) : result float64 :=
  let s := rstrip_by is_float_space (lstrip_by is_float_space text) in
  let '(neg, body) := opt_sign s in
  let word := lower body in
  if String.eqb word "inf" || String.eqb word "infinity" then Ok (signed_inf neg)
  else if String.eqb word "nan" then Ok NaN
  else do q <- py_float text; Ok (round64 q).

(** ** The objects returned by [svg2paths2]

    A segment offers [length()] and [point(t)], the latter a complex
    number read as the pair of its real and imaginary parts.  A path
    offers [bbox()], which returns [(xmin, xmax, ymin, ymax)] or raises,
    and [continuous_subpaths()].  Attributes are dictionaries from names
    to strings. *)

Record Segment : Type := {
  seg_length : Q;
  seg_point : Q -> Point2
}.

Record Path : Type := {
  bbox : result (Q * Q * Q * Q);
  continuous_subpaths : list (list Segment)
}.

Record Document : Type := {
  paths : list Path;
  attrs : list (gmap string string);
  svg_attr : gmap string string
}.

Definition Ring : Type := list Point2.
Definition Polygon : Type := list Ring.

(** ** [read_svg] (l.8-152) *)

(** [_to_float] (l.11-17) *)
Definition _to_float (value : option string) (default : Q) : Q :=
  match value with
  | None => default
  | Some v => try_except (py_float (strip (remove_px v))) default
  end.

(** [a or b] on optional strings: the empty string is false. *)
Definition py_or (a b : option string) : option string :=
  match a with
  | Some s => if is_empty s then b else a
  | None => b
  end.

Definition truthy (a : option string) : bool :=
  match a with
  | Some s => negb (is_empty s)
  | None => false
  end.

(** The running bounds of the loop over [path.bbox()] (l.36-48). *)
Definition bbox_step (acc : ext * ext * ext * ext) (p : Path) : ext * ext * ext * ext :=
  let '(min_x, min_y, max_x, max_y) := acc in
  match bbox p with
  | Ok (x0, x1, y0, y1) =>
      (min_ext min_x x0, min_ext min_y y0, max_ext max_x x1, max_ext max_y y1)
  | Raise _ => acc
  end.

Definition paths_bounds (ps : list Path) : list Q :=
  let '(min_x, min_y, max_x, max_y) :=
    fold_left bbox_step ps (PosInf, PosInf, NegInf, NegInf) in
  if is_pos_inf min_x || is_pos_inf min_y || is_neg_inf max_x || is_neg_inf max_y
  then [0; 0; 1000; 1000]
  else [fin min_x; fin min_y; fin max_x; fin max_y].

Definition svg_width (doc : Document) : Q := _to_float (svg_attr doc !! "width") 0.
Definition svg_height (doc : Document) : Q := _to_float (svg_attr doc !! "height") 0.

Definition vb_attr (doc : Document) : option string :=
  py_or (svg_attr doc !! "viewBox") (svg_attr doc !! "viewbox").

(** The value of [viewbox] (l.23-52). *)
Definition resolve_viewbox (doc : Document) : result (list Q) :=
  let width := svg_width doc in
  let height := svg_height doc in
  if truthy (vb_attr doc) then
    let parts := split_ws (replace_comma (default EmptyString (vb_attr doc))) in
    if (List.length parts =? 4)%nat then map_result py_float parts
    else Ok [0; 0; width; height]
  else
    if Qltb 0 width && Qltb 0 height then Ok [0; 0; width; height]
    else Ok (paths_bounds (paths doc)).

(** The expansion of the inline style and the default stroke
    (l.122-131). *)
Definition style_step (attr : gmap string string) (item : string) : gmap string string :=
  if is_empty item then attr
  else if contains_char colon item then
    let '(k, v) := split_once colon item in
    <[strip k := strip v]> attr
  else attr.

Definition expand_style (attr : gmap string string) : gmap string string :=
  match attr !! "style" with
  | Some style => fold_left style_step (split_on semicolon style) attr
  | None => attr
  end.

Definition default_stroke (attr : gmap string string) : gmap string string :=
  match attr !! "stroke", attr !! "fill" with
  | None, Some fill => <["stroke" := fill]> attr
  | _, _ => attr
  end.

(** [np.linspace(0, 1, num, endpoint=True)] for [num >= 2]. *)
Definition linspace (num : Z) : list Q :=
  map (fun i => inject_Z (Z.of_nat i) / inject_Z (num - 1)) (seq 0 (Z.to_nat num)).

(** [interp_num] (l.138): the quotient is a float, rounded, and [ceil]
    raises when it has overflowed. *)
Definition interp_num (seg : Segment) (seg_unit : Q) : result Z :=
  do q <- fdiv (Finite (seg_length seg)) (Finite seg_unit);
  do c <- py_ceil q;
  Ok (Z.max 2 c).

(** The samples of one segment (l.138-139). *)
Definition sample_segment (seg_unit : Q) (seg : Segment) : result (list Point2) :=
  do n <- interp_num seg seg_unit;
  Ok (map (seg_point seg) (linspace n)).

(** [np.concatenate] raises on an empty list of arrays. *)
Definition np_concatenate (arrays : list (list Point2)) : result (list Point2) :=
  match arrays with
  | [] => Raise ValueError
  | _ :: _ => Ok (concat arrays)
  end.

(** [np.append(points, points[0])] *)
Definition append_first (points : list Point2) : result (list Point2) :=
  match points with
  | [] => Raise IndexError
  | p0 :: _ => Ok (points ++ [p0])%list
  end.

(** One ring (l.136-147). *)
Definition make_ring (m : Mat) (seg_unit : Q) (subpath : list Segment) : result Ring :=
  do arrays <- map_result (sample_segment seg_unit) subpath;
  do points <- np_concatenate arrays;
  do points <- append_first points;
  Ok (map (fun p => mat_apply m (fst p) (snd p)) points).

Section ReadSvg.

Context {math : MathLib}.

(** One iteration of the loop over [zip(paths, attrs)] (l.120-150). *)
Definition make_poly (seg_unit : Q) (pa : Path * gmap string string)
  : result (Polygon * gmap string string) :=
  let '(path, attr) := pa in
  let attr := default_stroke (expand_style attr) in
  do m <- parse_transform (default EmptyString (attr !! "transform"));
  do poly <- map_result (make_ring m seg_unit) (continuous_subpaths path);
  Ok (poly, attr).

Definition read_svg (doc : Document) (seg_unit : Q)
  : result (list Polygon * list (gmap string string) * (Q * Q) * list Q) :=
  let svg_size := (svg_width doc, svg_height doc) in
  do viewbox <- resolve_viewbox doc;
  do built <- map_result (make_poly seg_unit) (combine (paths doc) (attrs doc));
  Ok (map fst built, map snd built, svg_size, viewbox).

End ReadSvg.

(** ** [compute_bounds] (l.192-206) *)

Definition point_step (acc : ext * ext * ext * ext) (p : Point2) : ext * ext * ext * ext :=
  let '(min_x, min_y, max_x, max_y) := acc in
  let '(x, y) := p in
  let min_x := if lt_ext x min_x then Fin x else min_x in
  let max_x := if gt_ext x max_x then Fin x else max_x in
  let min_y := if lt_ext y min_y then Fin y else min_y in
  let max_y := if gt_ext y max_y then Fin y else max_y in
  (min_x, min_y, max_x, max_y).

Definition ring_step (acc : ext * ext * ext * ext) (ring : Ring) :=
  fold_left point_step ring acc.

Definition mpoly_step (acc : ext * ext * ext * ext) (mpoly : Polygon) :=
  fold_left ring_step mpoly acc.

Definition compute_bounds (polys : list Polygon) : list Q :=
  let '(min_x, min_y, max_x, max_y) :=
    fold_left mpoly_step polys (PosInf, PosInf, NegInf, NegInf) in
  if is_pos_inf min_x then [0; 0; 1000; 1000]
  else [fin min_x; fin min_y; fin max_x; fin max_y].

(** The state of a bounds loop: the four accumulators leave their
    sentinels together. *)
Definition bounds_inv (acc : ext * ext * ext * ext) : Prop :=
  acc = (PosInf, PosInf, NegInf, NegInf) \/
  exists a b c d, acc = (Fin a, Fin b, Fin c, Fin d).

(** ** [main] (l.209-243) *)

(** The calls made on the drawing surface. *)
Inductive TurtleCall : Type :=
| Setup (width height : Q)
| Reset
| Speed (n : Z)
| SetWorldCoordinates (llx lly urx ury : Q)
| ModeWorld
| Tracer (n delay : Z).

(** [vb] (l.213-217) *)
Definition main_extent (polys : list Polygon) (svg_size : Q * Q) : list Q :=
  let '(width, height) := svg_size in
  if Qltb 0 width && Qltb 0 height then [0; 0; width; height]
  else compute_bounds polys.

Definition epsilon : Q := 1 # 1000000.
Definition margin : Q := 2 # 100.

Definition vb_w (vb : list Q) : Q := py_max (item vb 2 - item vb 0) epsilon.
Definition vb_h (vb : list Q) : Q := py_max (item vb 3 - item vb 1) epsilon.

(** The arguments of [window.setup] (l.219-228). *)
Definition window_size (vb : list Q) (window_width window_height : Z) : result (Q * Q) :=
  do ar <- py_div (vb_w vb) (vb_h vb);
  let win_m := inject_Z (Z.min window_width window_height) in
  if Qltb 1 ar then Ok (win_m * ar, win_m)
  else do h <- py_div win_m ar; Ok (win_m, h).

(** The arguments of [t.setworldcoordinates] (l.233-240). *)
Definition world_coordinates (vb : list Q) : Q * Q * Q * Q :=
  let dx := vb_w vb * margin in
  let dy := vb_h vb * margin in
  let llx := item vb 0 - dx in
  let lly := - (item vb 3 + dy) in
  let urx := item vb 2 + dx in
  let ury := - (item vb 1 - dy) in
  (llx, lly, urx, ury).

(** The calls of [main] up to the drawing loop, for a window of the given
    size.  The loop that draws the polygons is [draw_document], further
    down. *)
Definition main_calls (vb : list Q) (window_width window_height : Z)
  : result (list TurtleCall) :=
  do size <- window_size vb window_width window_height;
  let '(llx, lly, urx, ury) := world_coordinates vb in
  Ok [Setup (fst size) (snd size); Reset; Speed 0;
      SetWorldCoordinates llx lly urx ury; ModeWorld; Tracer 10 0].

Section Main.

Context {math : MathLib}.

Definition default_seg_unit : Q := 8.

Definition main (doc : Document) (window_width window_height : Z)
  : result (list TurtleCall) :=
  do r <- read_svg doc default_seg_unit;
  let '(polys, _, svg_size, _) := r in
  let vb := main_extent polys svg_size in
  main_calls vb window_width window_height.

End Main.

(** ** The mapping of [main] in binary64 arithmetic (l.219-240)

    The same lines with every operation rounded, for an Extent of
    floats.  The literals [1e-6] and [0.02] are the doubles nearest to
    them.  [win_m] is an integer: it is converted where it meets a float
    and handed to [window.setup] as it is otherwise.

    The floats of the Extent [(0, 0, width, height)] of l.215 are Python
    floats.  Those of the Extent of l.217 are numpy scalars: the
    coordinates of the points are read from the numpy arrays of l.139-142
    and [compute_bounds] keeps them as they are.  The two kinds round
    alike and differ on a zero divisor: a Python float raises
    [ZeroDivisionError], a numpy scalar gives an infinity or a nan, with
    a warning.  An operation between the two kinds is that of numpy, and
    [max] returns one of its arguments as it is, so that a span floored
    to [1e-6] is the Python float [1e-6]. *)

Definition literal (q : Q) : float64 := round64 q.

Definition fitem (vb : list float64) (i : nat) : float64 := nth i vb NaN.

(** [x / 0.0] on numpy scalars, for the positive zero that the quotients
    of [main] can produce. *)
Definition zero_division (x : float64) : float64 :=
  if is_zero x then NaN
  else match x with
       | NaN => NaN
       | _ => signed_inf (is_negative x)
       end.

(** [x / y] where [numpy] tells whether one of the two is a numpy
    scalar. *)
Definition kind_div (numpy : bool) (x y : float64) : result float64 :=
  if is_zero y && numpy then Ok (zero_division x) else fdiv x y.

Definition float_span (vb : list float64) (hi lo : nat) : float64 :=
  fsub (fitem vb hi) (fitem vb lo).

Definition float_vb_w (vb : list float64) : float64 :=
  fmax (float_span vb 2 0) (literal epsilon).

Definition float_vb_h (vb : list float64) : float64 :=
  fmax (float_span vb 3 1) (literal epsilon).


(** Whether [max(span, 1e-6)] is the span. *)
Definition kept (span : float64) : bool := negb (flt span (literal epsilon)).

(** Whether [ar] is a numpy scalar, for an Extent of numpy scalars
    ([numpy = true]) or of Python floats. *)
Definition ratio_is_numpy (numpy : bool) (vb : list float64) : bool :=
  numpy && (kept (float_span vb 2 0) || kept (float_span vb 3 1)).

(** An argument of [window.setup]. *)
Inductive number : Type :=
| IntNum (z : Z)
| FloatNum (x : float64).

Definition float_window_size (numpy : bool) (vb : list float64)
    (window_width window_height : Z) : result (number * number) :=
  let np := ratio_is_numpy numpy vb in
  do ar <- kind_div np (float_vb_w vb) (float_vb_h vb);
  let win_m := Z.min window_width window_height in
  if flt (Finite 1) ar then
    do m <- int_to_float win_m;
    Ok (FloatNum (fmul m ar), IntNum win_m)
  else
    do m <- int_to_float win_m;
    do h <- kind_div np m ar;
    Ok (IntNum win_m, FloatNum h).

Definition float_world_coordinates (vb : list float64)
  : float64 * float64 * float64 * float64 :=
  let dx := fmul (float_vb_w vb) (literal margin) in
  let dy := fmul (float_vb_h vb) (literal margin) in
  let llx := fsub (fitem vb 0) dx in
  let lly := fneg (fadd (fitem vb 3) dy) in
  let urx := fadd (fitem vb 2) dx in
  let ury := fneg (fsub (fitem vb 1) dy) in
  (llx, lly, urx, ury).

(** ** Reading a transform list as a sequence of ops *)

Section Ops.

Context {math : MathLib}.

(** The ops of a transform list, in textual order: the lower-cased name
    and the numbers of each function call that the loop visits. *)
Definition op_of_call (call : string * string) : result (string * list Q) :=
  let '(func, args_str) := call in
  do vals <- parse_numbers args_str;
  Ok (lower func, vals).

Definition transform_ops (s : string) : result (list (string * list Q)) :=
  map_result op_of_call (findall_calls (strip s)).

(** The ops for which the loop builds a matrix. *)
Definition recognized (op : string * list Q) : bool :=
  let '(name, vals) := op in
  String.eqb name "translate" || String.eqb name "scale" || String.eqb name "rotate"
  || (String.eqb name "matrix" && (6 <=? List.length vals)%nat).

Definition op_matrix (op : string * list Q) : Mat :=
  transform_matrix (fst op) (snd op).

End Ops.

(** [mat_product [A; B; C]] is [A * (B * (C * I))]. *)
Definition mat_product (ms : list Mat) : Mat :=
  fold_right mat_mul mat_identity ms.

(** The matrices applied to a point one after the other, the first of
    the list first. *)
Definition apply_all (ms : list Mat) (p : Point2) : Point2 :=
  fold_left (fun p m => mat_apply m (fst p) (snd p)) ms p.

(** ** A transform list as it is written

    A list of function calls, each a name of word characters, spaces if
    any, and an argument list in parentheses.  Before each call, and
    after the last one, stands a separator that holds no word character:
    spaces, commas.  [written] is the text, call after call from left to
    right. *)

Record CallText : Type := {
  ct_before : string;
  ct_name : string;
  ct_gap : string;
  ct_args : string
}.

Definition call_text (c : CallText) : string :=
  ct_before c ++ ct_name c ++ ct_gap c ++ "(" ++ ct_args c ++ ")".

Fixpoint written (cs : list CallText) (tail : string) : string :=
  match cs with
  | [] => tail
  | c :: cs' => call_text c ++ written cs' tail
  end.

Definition is_separator (s : string) : bool :=
  string_all (fun c => negb (is_word c)) s.

Definition well_formed (c : CallText) : bool :=
  is_separator (ct_before c)
  && negb (is_empty (ct_name c)) && string_all is_word (ct_name c)
  && string_all is_space (ct_gap c)
  && string_all (fun c => negb (is_char rparen c)) (ct_args c).

(** The ops of the calls of a written list, in the order of the list. *)
Definition written_ops (cs : list CallText) : result (list (string * list Q)) :=
  map_result (fun c => op_of_call (ct_name c, ct_args c)) cs.

(** ** Sample inputs *)

(** A straight segment from [a] to [b] with a stated length. *)
Definition line_segment (a b : Point2) (len : Q) : Segment :=
  {| seg_length := len;
     seg_point := fun t =>
       (fst a + t * (fst b - fst a), snd a + t * (snd b - snd a)) |}.

(** A square of side 10 drawn as one closed subpath. *)
Definition square_path : Path :=
  {| bbox := Ok (0, 10, 0, 10);
     continuous_subpaths :=
       [[line_segment (0, 0) (10, 0) 10; line_segment (10, 0) (10, 10) 10;
         line_segment (10, 10) (0, 10) 10; line_segment (0, 10) (0, 0) 10]] |}.

(** A document with a viewBox, a width and a height, and one red square
    moved by its inline style. *)
Definition sized_doc : Document :=
  {| paths := [square_path];
     attrs := [ {[ "style" := "fill: red; transform: translate(5,5)" ]} ];
     svg_attr :=
       <[ "viewBox" := "0 0 200 100" ]>
         (<[ "width" := "100" ]> {[ "height" := "50" ]}) |}.

(** The polygons of a result of [read_svg], and those of [sized_doc] with
    the default chord length. *)
Definition polys_of {A B C : Type} (r : result (list Polygon * A * B * C)) : list Polygon :=
  match r with
  | Ok (polys, _, _, _) => polys
  | Raise _ => []
  end.

Definition sized_doc_polys : list Polygon :=
  Eval vm_compute in polys_of (read_svg (math := quarter_math) sized_doc 8).

(** A document whose viewBox has three numbers and which declares no
    width and no height. *)
Definition short_viewbox_doc : Document :=
  {| paths := [ {| bbox := Ok (1, 5, 2, 6); continuous_subpaths := [] |} ];
     attrs := [ ∅ ];
     svg_attr := {[ "viewBox" := "0 0 100" ]} |}.

(** The float [1e-320], a subnormal: 2024 times the smallest one. *)
Definition tiny_unit : Q := 2024 * pow2 (-1074).

(** The floats [3.000000000000001] and [1.0000000000000002]. *)
Definition just_above_three : Q := 3 + pow2 (-50).
Definition just_above_one : Q := 1 + pow2 (-52).


(** The calls of the list [translate(1,0) scale(2)]. *)
Definition translate_then_scale : list CallText :=
  [ {| ct_before := ""; ct_name := "translate"; ct_gap := ""; ct_args := "1,0" |};
    {| ct_before := " "; ct_name := "scale"; ct_gap := ""; ct_args := "2" |} ].

(** ** The drawing surface (l.156-189, l.245-260)

    The turtle is the one object that the drawing functions act on.  Its
    state holds what the functions read back ([isdown], the position
    from which [towards] and a drawn line start) and what they leave on
    the canvas: the line segments drawn, the number of stamps, and the
    list of every call, oldest first.  [goto] draws a segment from the
    current position when the pen is down.  The angle that [towards]
    returns is that of the turtle library and is left abstract. *)

Inductive PenCall : Type :=
| CallPen (pendown : bool)
| CallOutline (width : Q)
| CallOutlineColor (width : Q) (pencolor : string)
| CallSeth (heading : Q)
| CallClearStamps
| CallGoto (x y : Q)
| CallStamp
| CallColor (stroke fill : string)
| CallUp
| CallBeginFill
| CallEndFill
| CallTracer (n delay : Z).

Record Turtle : Type := mkTurtle {
  position : Point2;
  isdown : bool;
  stamps : nat;
  lines : list (Point2 * Point2);
  calls : list PenCall
}.

Definition log (c : PenCall) (t : Turtle) : list PenCall := (calls t ++ [c])%list.

(** [t.pen(pendown=b)] *)
Definition t_pen (b : bool) (t : Turtle) : Turtle :=
  mkTurtle (position t) b (stamps t) (lines t) (log (CallPen b) t).

(** [t.pen(outline=w)] and [t.pen(outline=w, pencolor=c)] *)
Definition t_outline (w : Q) (t : Turtle) : Turtle :=
  mkTurtle (position t) (isdown t) (stamps t) (lines t) (log (CallOutline w) t).

Definition t_outline_color (w : Q) (c : string) (t : Turtle) : Turtle :=
  mkTurtle (position t) (isdown t) (stamps t) (lines t) (log (CallOutlineColor w c) t).

(** [t.seth(h)] *)
Definition t_seth (h : Q) (t : Turtle) : Turtle :=
  mkTurtle (position t) (isdown t) (stamps t) (lines t) (log (CallSeth h) t).

(** [t.clearstamps()] *)
Definition t_clearstamps (t : Turtle) : Turtle :=
  mkTurtle (position t) (isdown t) 0 (lines t) (log CallClearStamps t).

(** [t.goto(x, y)] *)
Definition t_goto (x y : Q) (t : Turtle) : Turtle :=
  mkTurtle (x, y) (isdown t) (stamps t)
           (if isdown t then (lines t ++ [(position t, (x, y))])%list else lines t)
           (log (CallGoto x y) t).

(** [t.stamp()] *)
Definition t_stamp (t : Turtle) : Turtle :=
  mkTurtle (position t) (isdown t) (S (stamps t)) (lines t) (log CallStamp t).

(** [t.color(stroke, fill)] *)
Definition t_color (stroke fill : string) (t : Turtle) : Turtle :=
  mkTurtle (position t) (isdown t) (stamps t) (lines t) (log (CallColor stroke fill) t).

(** [t.up()] and [t.penup()] *)
Definition t_up (t : Turtle) : Turtle :=
  mkTurtle (position t) false (stamps t) (lines t) (log CallUp t).

(** [t.begin_fill()] and [t.end_fill()] *)
Definition t_begin_fill (t : Turtle) : Turtle :=
  mkTurtle (position t) (isdown t) (stamps t) (lines t) (log CallBeginFill t).

Definition t_end_fill (t : Turtle) : Turtle :=
  mkTurtle (position t) (isdown t) (stamps t) (lines t) (log CallEndFill t).

(** [t.tracer(n, delay)] *)
Definition t_tracer (n delay : Z) (t : Turtle) : Turtle :=
  mkTurtle (position t) (isdown t) (stamps t) (lines t) (log (CallTracer n delay) t).

Section Drawing.

(** [t.towards(x, y)], as a function of the position of the turtle. *)
Variable towards : Point2 -> Q -> Q -> Q.

(** [head_to] (l.156-164); [have_sprite] is not read. *)
Definition head_to (t : Turtle) (x y : Q) (draw : bool) : Turtle :=
  let wasdown := isdown t in
  let heading := towards (position t) x y in
  let t := t_pen draw t in
  let t := t_seth heading t in
  let t := t_clearstamps t in
  let t := t_goto x y t in
  let t := t_stamp t in
  t_pen wasdown t.

(** [draw_polygon] (l.168-176); [poly[0]] raises on an empty ring. *)
Definition draw_polygon (t : Turtle) (poly : Ring) (fill stroke : string) : result Turtle :=
  let fill := if String.eqb fill "none" then "black" else fill in
  let t := t_color stroke fill t in
  match poly with
  | [] => Raise IndexError
  | p :: rest =>
      let t := head_to t (fst p) (- snd p) false in
      let t := fold_left (fun t p => head_to t (fst p) (- snd p) true) rest t in
      Ok (t_up t)
  end.

(** The loop of [draw_multipolygon] over [enumerate(mpoly)], from index
    [i]; [p] is the first point of the first ring. *)
Fixpoint draw_rings (p : Point2) (fill stroke : string) (i : nat)
    (mpoly : list Ring) (t : Turtle) : result Turtle :=
  match mpoly with
  | [] => Ok t
  | poly :: rest =>
      do t1 <- draw_polygon t poly fill stroke;
      let t2 := if (i =? 0)%nat then t1 else head_to t1 (fst p) (- snd p) false in
      draw_rings p fill stroke (S i) rest t2
  end.

(** [draw_multipolygon] (l.179-189); [mpoly[0][0]] raises when there is
    no ring or when the first ring is empty. *)
Definition draw_multipolygon (t : Turtle) (mpoly : Polygon) (fill stroke : string)
  : result Turtle :=
  match mpoly with
  | (p :: _) :: _ =>
      let t := head_to t (fst p) (- snd p) false in
      let t := if String.eqb fill "none" then t else t_begin_fill t in
      do t1 <- draw_rings p fill stroke 0 mpoly t;
      Ok (if String.eqb fill "none" then t1 else t_end_fill t1)
  | _ => Raise IndexError
  end.

(** One iteration of the drawing loop of [main] (l.246-256). *)
Definition draw_element (t : Turtle) (pa : Polygon * gmap string string) : result Turtle :=
  let '(poly, attr) := pa in
  let t := t_outline (1 # 2) t in
  let t :=
    match attr !! "stroke-width" with
    | Some sw =>
        match py_float sw with
        | Ok w => t_outline_color w "black" t
        | Raise _ => t
        end
    | None => t
    end in
  let fill := default "none" (attr !! "fill") in
  let stroke := default "black" (attr !! "stroke") in
  draw_multipolygon t poly fill stroke.

Fixpoint draw_elements (t : Turtle) (elements : list (Polygon * gmap string string))
  : result Turtle :=
  match elements with
  | [] => Ok t
  | pa :: rest => do t1 <- draw_element t pa; draw_elements t1 rest
  end.

(** The drawing part of [main] (l.245-260), from the turtle as it is
    after [t.tracer(n=10, delay=0)]. *)
Definition draw_document (t : Turtle) (polys : list Polygon)
    (attrs : list (gmap string string)) : result Turtle :=
  do t1 <- draw_elements t (combine polys attrs);
  Ok (t_up (t_clearstamps (t_tracer 1 0 t1))).

End Drawing.

(** A point as it is drawn: [head_to] is called with [-(p[1])]. *)
Definition flip_y (p : Point2) : Point2 := (fst p, - snd p).

(** The segments that join each point of a list to the next. *)
Fixpoint edges (pts : list Point2) : list (Point2 * Point2) :=
  match pts with
  | [] => []
  | p :: rest =>
      match rest with
      | [] => []
      | q :: _ => (p, q) :: edges rest
      end
  end.

(** The edges of the rings of a polygon, and of the polygons of a
    document, as drawn. *)
Definition polygon_edges (mpoly : Polygon) : list (Point2 * Point2) :=
  concat (map (fun ring => edges (map flip_y ring)) mpoly).

Definition document_edges (polys : list Polygon) : list (Point2 * Point2) :=
  concat (map polygon_edges polys).

(** A turtle at the origin with the pen down, as after [t.reset()]. *)
Definition fresh_turtle : Turtle := mkTurtle (0, 0) true 0 [] [].

Section MainDrawing.

Context {math : MathLib}.
Variable towards : Point2 -> Q -> Q -> Q.

(** [main] from [read_svg] to the end of the drawing, on the turtle [t]:
    the polygons and the attributes that [read_svg] returns are drawn in
    their order.  The surface is one that takes every colour string; the
    turtle module refuses, with an exception, a string that Tk does not
    know. *)
Definition main_draw (doc : Document) (t : Turtle) : result Turtle :=
  do r <- read_svg doc default_seg_unit;
  let '(polys, new_attrs, _, _) := r in
  draw_document towards t polys new_attrs.

End MainDrawing.

(** The calls of a log that open or close a fill. *)
Definition is_fill_call (c : PenCall) : bool :=
  match c with
  | CallBeginFill | CallEndFill => true
  | _ => false
  end.

Definition fill_calls (t : Turtle) : list PenCall :=
  List.filter is_fill_call (calls t).

(** The effect of one logged call, and of a list of them, on a turtle. *)
Definition apply_call (t : Turtle) (c : PenCall) : Turtle :=
  match c with
  | CallPen b => t_pen b t
  | CallOutline w => t_outline w t
  | CallOutlineColor w c => t_outline_color w c t
  | CallSeth h => t_seth h t
  | CallClearStamps => t_clearstamps t
  | CallGoto x y => t_goto x y t
  | CallStamp => t_stamp t
  | CallColor stroke fill => t_color stroke fill t
  | CallUp => t_up t
  | CallBeginFill => t_begin_fill t
  | CallEndFill => t_end_fill t
  | CallTracer n delay => t_tracer n delay t
  end.

Definition replay (t : Turtle) (cs : list PenCall) : Turtle :=
  fold_left apply_call cs t.

(** Every point of every ring of every polygon, in the order of the
    loops of [compute_bounds]. *)
Definition all_points (polys : list Polygon) : list Point2 :=
  concat (concat polys).

(** The bounding boxes of the paths whose [bbox()] returns. *)
Definition valid_bboxes (ps : list Path) : list (Q * Q * Q * Q) :=
  omap (fun p => match bbox p with Ok b => Some b | Raise _ => None end) ps.

(** Whether the point [p] lies in the rectangle from [(a, b)] to
    [(c, d)]. *)
Definition in_box (a b c d : Q) (p : Point2) : Prop :=
  a <= fst p /\ fst p <= c /\ b <= snd p /\ snd p <= d.

(** The four numbers of a bounding box [(xmin, xmax, ymin, ymax)]. *)
Definition box_xmin (b : Q * Q * Q * Q) : Q := fst (fst (fst b)).
Definition box_xmax (b : Q * Q * Q * Q) : Q := snd (fst (fst b)).
Definition box_ymin (b : Q * Q * Q * Q) : Q := snd (fst b).
Definition box_ymax (b : Q * Q * Q * Q) : Q := snd b.

(** Whether the box [bx] lies in the rectangle from [(a, b)] to
    [(c, d)]. *)
Definition box_in (a b c d : Q) (bx : Q * Q * Q * Q) : Prop :=
  a <= box_xmin bx /\ box_xmax bx <= c /\ b <= box_ymin bx /\ box_ymax bx <= d.

(** Whether the float quotient of the length of a segment by [seg_unit]
    is finite, so that [ceil] returns. *)
Definition count_is_finite (seg_unit : Q) (seg : Segment) : bool :=
  is_finite (round64 (seg_length seg / seg_unit)).

(** The number of samples of a segment whose float quotient is finite
    (l.138). *)
Definition samples (seg_unit : Q) (seg : Segment) : nat :=
  match round64 (seg_length seg / seg_unit) with
  | Finite q => Z.to_nat (Z.max 2 (Qceiling q))
  | _ => 0
  end.

(** A document whose one path has a subpath without a segment, and a
    document whose viewBox has a token that is not a number. *)
Definition empty_path_doc : Document :=
  {| paths := [ {| bbox := Raise ValueError; continuous_subpaths := [[]] |} ];
     attrs := [ ∅ ];
     svg_attr := ∅ |}.

Definition bad_viewbox_doc : Document :=
  {| paths := []; attrs := []; svg_attr := {[ "viewBox" := "0 0 ten 10" ]} |}.

(** The entry [(key, value)] that one item of an inline style writes, if
    any (l.124-128). *)
Definition item_binding (item : string) : option (string * string) :=
  if is_empty item then None
  else if contains_char colon item then
    let '(k, v) := split_once colon item in Some (strip k, strip v)
  else None.

(** The entries that an inline style writes, in the order of its
    items. *)
Definition style_bindings (style : string) : list (string * string) :=
  omap item_binding (split_on semicolon style).

(** A constant heading, for running the drawing functions on examples. *)
Definition towards_zero (pos : Point2) (x y : Q) : Q := 0.

(** The calls of a log that set the colours. *)
Definition is_color_call (c : PenCall) : bool :=
  match c with
  | CallColor _ _ => true
  | _ => false
  end.

Definition color_calls (t : Turtle) : list PenCall :=
  List.filter is_color_call (calls t).

(** * Properties *)

(** ** Numbers *)

Lemma Qltb_true (a b : Q) : Qltb a b = true <-> a < b.
Proof.
  unfold Qltb. rewrite negb_true_iff.
  split; intros H.
  - apply Qnot_le_lt. intros Hle. apply Qle_bool_iff in Hle. congruence.
  - destruct (Qle_bool b a) eqn:E; [|reflexivity].
    apply Qle_bool_iff in E. exfalso. apply (Qlt_not_le _ _ H E).
Qed.

Lemma Qltb_false (a b : Q) : Qltb a b = false <-> b <= a.
Proof.
  unfold Qltb. rewrite negb_false_iff. apply Qle_bool_iff.
Qed.

Ltac case_Qltb a b :=
  let E := fresh "E" in
  destruct (Qltb a b) eqn:E;
  [apply Qltb_true in E | apply Qltb_false in E].

Lemma py_div_ok (a b : Q) : ~ b == 0 -> py_div a b = Ok (a / b).
Proof.
  intros Hb. unfold py_div.
  destruct (Qeq_bool b 0) eqn:E; [|reflexivity].
  apply Qeq_bool_iff in E. contradiction.
Qed.

Lemma py_max_Qmax (a b : Q) : py_max a b == Qmax a b.
Proof.
  unfold py_max. case_Qltb a b.
  - symmetry. apply Q.max_r. apply Qlt_le_weak. exact E.
  - symmetry. apply Q.max_l. exact E.
Qed.

Lemma py_max_ge_r (a b : Q) : b <= py_max a b.
Proof.
  unfold py_max. case_Qltb a b; [apply Qle_refl | exact E].
Qed.

Lemma epsilon_pos : 0 < epsilon.
Proof. reflexivity. Qed.

Lemma vb_w_floor (vb : list Q) : epsilon <= vb_w vb.
Proof. apply py_max_ge_r. Qed.

Lemma vb_h_floor (vb : list Q) : epsilon <= vb_h vb.
Proof. apply py_max_ge_r. Qed.

Lemma vb_w_pos (vb : list Q) : 0 < vb_w vb.
Proof. eapply Qlt_le_trans; [apply epsilon_pos | apply vb_w_floor]. Qed.

Lemma vb_h_pos (vb : list Q) : 0 < vb_h vb.
Proof. eapply Qlt_le_trans; [apply epsilon_pos | apply vb_h_floor]. Qed.

Lemma aspect_ratio_pos (vb : list Q) : 0 < vb_w vb / vb_h vb.
Proof.
  apply Qlt_shift_div_l; [apply vb_h_pos|].
  rewrite Qmult_0_l. apply vb_w_pos.
Qed.

Lemma aspect_ratio_ok (vb : list Q) :
  py_div (vb_w vb) (vb_h vb) = Ok (vb_w vb / vb_h vb).
Proof.
  apply py_div_ok. intros H. pose proof (vb_h_pos vb) as Hp.
  rewrite H in Hp. apply (Qlt_irrefl _ Hp).
Qed.

(** The window size in closed form. *)
Lemma window_size_eq (vb : list Q) (W H : Z) :
  window_size vb W H =
  Ok (let ar := vb_w vb / vb_h vb in
      let win_m := inject_Z (Z.min W H) in
      if Qltb 1 ar then (win_m * ar, win_m) else (win_m, win_m / ar)).
Proof.
  unfold window_size. rewrite aspect_ratio_ok. cbn [bind].
  destruct (Qltb 1 (vb_w vb / vb_h vb)); [reflexivity|].
  rewrite py_div_ok; [reflexivity|].
  intros H0. pose proof (aspect_ratio_pos vb) as Hp.
  rewrite H0 in Hp. apply (Qlt_irrefl _ Hp).
Qed.

(** ** Rounding to a double *)

Lemma round64_compat (a b : Q) : a == b -> round64 a = round64 b.
Proof. intros H. unfold round64. rewrite (Qred_complete _ _ H). reflexivity. Qed.



Lemma pow2_le (a b : Z) : (a <= b)%Z -> pow2 a <= pow2 b.
Proof. intros H. unfold pow2. apply Qpower_le_compat_l; [exact H | discriminate]. Qed.








Lemma round64_pos_shape (q : Q) :
  round64_pos q = PlusInf \/ exists r, round64_pos q = Finite r.
Proof.
  unfold round64_pos. destruct (Qle_bool _ _); [left; reflexivity | right; eauto].
Qed.

Lemma round64_not_nan (q : Q) : round64 q <> NaN.
Proof.
  unfold round64. destruct (Qcompare (Qred q) 0); [discriminate|..].
  - destruct (round64_pos_shape (Qred (- Qred q))) as [->|[r ->]]; discriminate.
  - destruct (round64_pos_shape (Qred q)) as [->|[r ->]]; discriminate.
Qed.

Lemma round64_zero : round64 0 = Finite 0.
Proof. reflexivity. Qed.



(** ** The coordinate mapping of [main] *)

(** C6.  For every Extent [(minX, minY, maxX, maxY)], with [w] and [h]
    its width and height floored to [epsilon] and the margins
    [dx = 0.02 * w] and [dy = 0.02 * h], [main] sets the world
    coordinates to X from [minX - dx] to [maxX + dx], lower Y bound
    [-(maxY + dy)] and upper Y bound [-(minY - dy)]. *)
Theorem world_rectangle_has_margin_and_flipped_y (minX minY maxX maxY : Q) (W H : Z) :
  let w := Qmax (maxX - minX) (1 # 1000000) in
  let h := Qmax (maxY - minY) (1 # 1000000) in
  let dx := (2 # 100) * w in
  let dy := (2 # 100) * h in
  exists sw sh llx lly urx ury,
    main_calls [minX; minY; maxX; maxY] W H =
    Ok [Setup sw sh; Reset; Speed 0; SetWorldCoordinates llx lly urx ury;
        ModeWorld; Tracer 10 0] /\
    llx == minX - dx /\ urx == maxX + dx /\
    lly == - (maxY + dy) /\ ury == - (minY - dy).
Proof.
  intros w h dx dy.
  unfold main_calls. rewrite window_size_eq. cbn [bind].
  unfold world_coordinates.
  do 6 eexists. split; [reflexivity|].
  unfold vb_w, vb_h, item, margin, epsilon, dx, dy, w, h. cbn [nth].
  rewrite !py_max_Qmax.
  repeat split; ring.
Qed.

(** C2, as the code has it.  For every Extent and every pair of
    non-negative window dimensions, the window size is formed from the
    smaller dimension [win_m] alone: [(win_m * ar, win_m)] when the aspect
    ratio [ar] exceeds 1, [(win_m, win_m / ar)] otherwise.  Its sides are
    in the ratio [ar] and neither is below [win_m]; the larger dimension
    of the surface plays no part. *)
Theorem window_size_scales_the_minimum (minX minY maxX maxY : Q) (W H : Z) :
  (0 <= W)%Z -> (0 <= H)%Z ->
  let vb := [minX; minY; maxX; maxY] in
  let ar := vb_w vb / vb_h vb in
  let win_m := inject_Z (Z.min W H) in
  exists w h,
    window_size vb W H = Ok (w, h) /\
    (1 < ar -> w = win_m * ar /\ h = win_m) /\
    (ar <= 1 -> w = win_m /\ h = win_m / ar) /\
    w == ar * h /\
    win_m <= w /\ win_m <= h.
Proof.
  intros HW HH vb ar win_m.
  assert (Hm : 0 <= win_m).
  { unfold win_m. change 0 with (inject_Z 0). rewrite <- Zle_Qle. lia. }
  pose proof (aspect_ratio_pos vb) as Har. fold ar in Har.
  rewrite window_size_eq. fold ar win_m. cbv zeta.
  case_Qltb 1 ar.
  - exists (win_m * ar), win_m.
    split; [reflexivity|].
    split; [auto|].
    split; [intros Hle; exfalso; apply (Qlt_not_le _ _ E Hle)|].
    split; [ring|].
    split; [|apply Qle_refl].
    nra.
  - exists win_m, (win_m / ar).
    split; [reflexivity|].
    split; [intros Hlt; exfalso; apply (Qlt_not_le _ _ Hlt E)|].
    split; [auto|].
    assert (Hne : ~ ar == 0).
    { intros H0. rewrite H0 in Har. apply (Qlt_irrefl _ Har). }
    split; [field; exact Hne|].
    split; [apply Qle_refl|].
    apply Qle_shift_div_l; [exact Har|].
    nra.
Qed.

(** The degenerate Extent [(0, 0, 0, 0)] on an 800 by 600 surface: a
    square window and a world rectangle of half-width [2e-8]. *)
Example degenerate_extent_is_mapped :
  main_calls [0; 0; 0; 0] 800 600
  = Ok [Setup 600 (600000000 # 1000000); Reset; Speed 0;
        SetWorldCoordinates (-2 # 100000000) (-2 # 100000000)
                            (2 # 100000000) (2 # 100000000);
        ModeWorld; Tracer 10 0].
Proof. vm_compute. reflexivity. Qed.

(** C2, as stated, fails: on an 800 by 600 surface and an Extent twice as
    wide as high the window becomes 1200 by 600, so the larger dimension
    of the surface, 800, is not kept. *)
Lemma larger_window_dimension_is_replaced :
  exists w h,
    window_size [0; 0; 2; 1] 800 600 = Ok (w, h) /\
    w == 1200 /\ h == 600 /\ ~ w == 800 /\ ~ h == 800.
Proof.
  do 2 eexists. split; [vm_compute; reflexivity|].
  repeat split; intros H; discriminate H.
Qed.

Lemma window_size_scales_the_minimum_witness :
  (0 <= 800)%Z /\ (0 <= 600)%Z /\
  exists w h,
    window_size [0; 0; 2; 1] 800 600 = Ok (w, h) /\
    inject_Z 600 <= w /\ inject_Z 600 <= h.
Proof.
  split; [lia|]. split; [lia|].
  destruct (window_size_scales_the_minimum 0 0 2 1 800 600)
    as (w & h & Hs & _ & _ & _ & Hw & Hh); [lia | lia |].
  exists w, h. split; [exact Hs|]. split; [exact Hw | exact Hh].
Defined.

(** ** The mapping of [main] in binary64 arithmetic *)


















(** The degenerate Extent [(0, 0, 0, 0)] on an 800 by 600 surface, in
    floats: a square window and finite world bounds. *)
Example degenerate_extent_in_floats :
  float_window_size true [Finite 0; Finite 0; Finite 0; Finite 0] 800 600
  = Ok (IntNum 600, FloatNum (Finite 600)) /\
  exists llx lly urx ury,
    float_world_coordinates [Finite 0; Finite 0; Finite 0; Finite 0]
    = (Finite llx, Finite lly, Finite urx, Finite ury) /\
    llx < 0 /\ 0 < urx /\ lly < 0 /\ 0 < ury.
Proof.
  split; [vm_compute; reflexivity|].
  do 4 eexists. split; [vm_compute; reflexivity|].
  repeat split.
Qed.

(** ** Comprehensions that may raise *)

Lemma map_result_Forall2 {A B : Type} (f : A -> result B) (l : list A) (ys : list B) :
  map_result f l = Ok ys -> Forall2 (fun x y => f x = Ok y) l ys.
Proof.
  revert ys. induction l as [|x l IH]; intros ys H; cbn in H.
  - injection H as <-. constructor.
  - destruct (f x) as [y|e] eqn:Ex; cbn in H; [|discriminate].
    destruct (map_result f l) as [ys'|e] eqn:El; cbn in H; [|discriminate].
    injection H as <-. constructor; [exact Ex | apply IH; reflexivity].
Qed.

Lemma map_result_total {A B : Type} (f : A -> result B) (l : list A) :
  Forall (fun x => exists y, f x = Ok y) l -> exists ys, map_result f l = Ok ys.
Proof.
  induction 1 as [|x l [y Hy] _ [ys Hys]]; cbn.
  - eexists; reflexivity.
  - rewrite Hy, Hys. cbn. eexists; reflexivity.
Qed.

Lemma map_result_In {A B : Type} (f : A -> result B) (l : list A) (ys : list B) (y : B) :
  map_result f l = Ok ys -> In y ys -> exists x, In x l /\ f x = Ok y.
Proof.
  intros H. apply map_result_Forall2 in H.
  induction H as [|x y' l ys Hxy _ IH]; intros Hin; [destruct Hin|].
  destruct Hin as [<-|Hin].
  - exists x. split; [left; reflexivity | exact Hxy].
  - destruct (IH Hin) as (x' & Hx' & Hf). exists x'. split; [right; exact Hx' | exact Hf].
Qed.

(** ** Flattening *)

Lemma fdiv_finite (a b : Q) :
  fdiv (Finite a) (Finite b) =
  if Qeq_bool b 0 then Raise ZeroDivisionError else Ok (round64 (a / b)).
Proof. reflexivity. Qed.

Lemma fdiv_finite_ok (a b : Q) :
  ~ b == 0 -> fdiv (Finite a) (Finite b) = Ok (round64 (a / b)).
Proof.
  intros Hb. rewrite fdiv_finite.
  destruct (Qeq_bool b 0) eqn:E; [|reflexivity].
  apply Qeq_bool_iff in E. contradiction.
Qed.

(** The count is taken from the float quotient, when that is finite. *)
Lemma interp_num_ok (seg : Segment) (seg_unit q : Q) :
  ~ seg_unit == 0 ->
  round64 (seg_length seg / seg_unit) = Finite q ->
  interp_num seg seg_unit = Ok (Z.max 2 (Qceiling q)).
Proof.
  intros Hu Hq. unfold interp_num.
  rewrite fdiv_finite_ok by exact Hu. cbn [bind]. rewrite Hq. reflexivity.
Qed.

Lemma interp_num_overflow (seg : Segment) (seg_unit : Q) :
  ~ seg_unit == 0 ->
  is_finite (round64 (seg_length seg / seg_unit)) = false ->
  interp_num seg seg_unit = Raise OverflowError.
Proof.
  intros Hu Hq. unfold interp_num.
  rewrite fdiv_finite_ok by exact Hu. cbn [bind].
  pose proof (round64_not_nan (seg_length seg / seg_unit)) as Hn.
  destruct (round64 (seg_length seg / seg_unit)); try reflexivity;
    [discriminate Hq | contradiction].
Qed.

Lemma interp_num_inv (seg : Segment) (seg_unit : Q) (n : Z) :
  interp_num seg seg_unit = Ok n ->
  exists q, round64 (seg_length seg / seg_unit) = Finite q /\
            n = Z.max 2 (Qceiling q).
Proof.
  unfold interp_num. rewrite fdiv_finite.
  destruct (Qeq_bool seg_unit 0); cbn [bind]; [discriminate|].
  destruct (round64 (seg_length seg / seg_unit)) as [q| | |]; cbn; try discriminate.
  intros H. injection H as <-. exists q. split; reflexivity.
Qed.

Lemma interp_num_only (seg : Segment) (seg_unit : Q) (e : exn) :
  0 < seg_unit -> interp_num seg seg_unit = Raise e -> e = OverflowError.
Proof.
  intros Hu. unfold interp_num.
  rewrite fdiv_finite_ok by lra. cbn [bind].
  pose proof (round64_not_nan (seg_length seg / seg_unit)) as Hn.
  destruct (round64 (seg_length seg / seg_unit)); cbn; intros H;
    try discriminate; try contradiction; injection H as <-; reflexivity.
Qed.

Lemma linspace_length (num : Z) : List.length (linspace num) = Z.to_nat num.
Proof. unfold linspace. rewrite length_map, length_seq. reflexivity. Qed.

Lemma linspace_nth (num : Z) (i : nat) :
  (i < Z.to_nat num)%nat ->
  nth i (linspace num) 0 = inject_Z (Z.of_nat i) / inject_Z (num - 1).
Proof.
  intros Hi. unfold linspace.
  rewrite (nth_indep _ 0 (inject_Z (Z.of_nat 0) / inject_Z (num - 1)))
    by (rewrite length_map, length_seq; exact Hi).
  rewrite (map_nth (fun i => inject_Z (Z.of_nat i) / inject_Z (num - 1))).
  rewrite seq_nth by exact Hi. reflexivity.
Qed.

Lemma sample_segment_ok (seg : Segment) (seg_unit q : Q) :
  ~ seg_unit == 0 ->
  round64 (seg_length seg / seg_unit) = Finite q ->
  sample_segment seg_unit seg =
  Ok (map (seg_point seg) (linspace (Z.max 2 (Qceiling q)))).
Proof.
  intros Hu Hq. unfold sample_segment.
  rewrite (interp_num_ok seg seg_unit q Hu Hq). reflexivity.
Qed.

(** The parameters of [linspace]: evenly spaced from 0 to 1. *)
Lemma linspace_spacing (n : Z) :
  (2 <= n)%Z ->
  (forall i : nat, (i < List.length (linspace n))%nat ->
     nth i (linspace n) 0 == inject_Z (Z.of_nat i) / inject_Z (n - 1)) /\
  nth 0 (linspace n) 0 == 0 /\
  nth (List.length (linspace n) - 1) (linspace n) 0 == 1.
Proof.
  intros Hn.
  assert (Hlen : List.length (linspace n) = Z.to_nat n) by apply linspace_length.
  split.
  { intros i Hi. rewrite linspace_nth by lia. reflexivity. }
  split.
  { rewrite linspace_nth by lia. cbn [Z.of_nat]. unfold Qdiv. ring. }
  rewrite linspace_nth by lia. rewrite Hlen.
  replace (Z.of_nat (Z.to_nat n - 1)) with (n - 1)%Z by lia.
  apply Qmult_inv_r. change 0 with (inject_Z 0). rewrite inject_Z_injective. lia.
Qed.

(** C7, as the code has it.  For every segment and every [seg_unit > 0],
    with [q] the quotient [length / seg_unit] rounded to a float: when
    [q] is finite the flattener samples [max(2, ceil(q))] points, at the
    parameters [i / (n - 1)] for [i = 0 .. n - 1], which start at 0 and
    end at 1; when the quotient overflows, l.138 raises [OverflowError]
    and nothing is sampled.  A segment of length 17 with [seg_unit = 8]
    gives 3 points and a segment of length 0 gives 2. *)
Theorem sample_count_follows_the_float_quotient (seg : Segment) (seg_unit : Q) :
  0 < seg_unit ->
  match round64 (seg_length seg / seg_unit) with
  | Finite q =>
      let n := Z.max 2 (Qceiling q) in
      exists ts : list Q,
        sample_segment seg_unit seg = Ok (map (seg_point seg) ts) /\
        Z.of_nat (List.length (map (seg_point seg) ts)) = n /\
        (forall i : nat, (i < List.length ts)%nat ->
           nth i ts 0 == inject_Z (Z.of_nat i) / inject_Z (n - 1)) /\
        nth 0 ts 0 == 0 /\
        nth (List.length ts - 1) ts 0 == 1
  | _ => sample_segment seg_unit seg = Raise OverflowError
  end /\
  (seg_length seg == 17 -> seg_unit == 8 ->
     exists pts, sample_segment seg_unit seg = Ok pts /\ List.length pts = 3%nat) /\
  (seg_length seg == 0 ->
     exists pts, sample_segment seg_unit seg = Ok pts /\ List.length pts = 2%nat).
Proof.
  intros Hu.
  assert (Hne : ~ seg_unit == 0) by lra.
  split; [|split].
  - destruct (round64 (seg_length seg / seg_unit)) as [q| | |] eqn:Hq.
    + intros n.
      assert (Hn : (2 <= n)%Z) by (unfold n; lia).
      exists (linspace n).
      split; [apply sample_segment_ok; assumption|].
      split; [rewrite length_map, linspace_length; lia|].
      apply linspace_spacing. exact Hn.
    + unfold sample_segment. rewrite interp_num_overflow; [reflexivity | exact Hne|].
      rewrite Hq. reflexivity.
    + unfold sample_segment. rewrite interp_num_overflow; [reflexivity | exact Hne|].
      rewrite Hq. reflexivity.
    + exfalso. apply (round64_not_nan _ Hq).
  - intros Hl H8.
    assert (Hq : round64 (seg_length seg / seg_unit) = Finite (17 # 8)).
    { rewrite (round64_compat _ (17 / 8)) by (rewrite Hl, H8; reflexivity).
      vm_compute. reflexivity. }
    eexists. split; [apply (sample_segment_ok seg seg_unit _ Hne Hq)|].
    rewrite length_map, linspace_length. reflexivity.
  - intros Hl.
    assert (Hq : round64 (seg_length seg / seg_unit) = Finite 0).
    { rewrite (round64_compat _ 0) by (rewrite Hl; unfold Qdiv; ring).
      reflexivity. }
    eexists. split; [apply (sample_segment_ok seg seg_unit _ Hne Hq)|].
    rewrite length_map, linspace_length. reflexivity.
Qed.

(** C7, as stated, fails.  With the float [1e-320] as [seg_unit], which
    is positive, the quotient of a length of 17 overflows and the
    flattener raises instead of sampling.  With a length of
    [3.000000000000001] and a [seg_unit] of [1.0000000000000002] the
    exact quotient is above 3, so that its ceiling is 4, but the float
    quotient is 3 and three points are sampled. *)
Lemma tiny_seg_unit_overflows :
  0 < tiny_unit /\
  sample_segment tiny_unit (line_segment (0, 0) (17, 0) 17) = Raise OverflowError /\
  0 < just_above_one /\
  Z.max 2 (Qceiling (just_above_three / just_above_one)) = 4%Z /\
  exists pts,
    sample_segment just_above_one (line_segment (0, 0) (3, 0) just_above_three) = Ok pts /\
    List.length pts = 3%nat.
Proof.
  split; [reflexivity|].
  split; [vm_compute; reflexivity|].
  split; [reflexivity|].
  split; [vm_compute; reflexivity|].
  eexists. split; [vm_compute; reflexivity|]. reflexivity.
Qed.

Lemma sample_count_follows_the_float_quotient_witness :
  0 < 8 /\
  exists pts,
    sample_segment 8 (line_segment (0, 0) (17, 0) 17) = Ok pts /\
    List.length pts = 3%nat.
Proof.
  split; [reflexivity|].
  destruct (sample_count_follows_the_float_quotient (line_segment (0, 0) (17, 0) 17) 8)
    as (_ & H17 & _); [reflexivity|].
  apply H17; reflexivity.
Defined.

(** ** Rings *)

Lemma sample_segment_inv (seg_unit : Q) (seg : Segment) (pts : list Point2) :
  sample_segment seg_unit seg = Ok pts ->
  exists q,
    round64 (seg_length seg / seg_unit) = Finite q /\
    pts = map (seg_point seg) (linspace (Z.max 2 (Qceiling q))).
Proof.
  unfold sample_segment. intros H.
  destruct (interp_num seg seg_unit) as [n|e] eqn:En; cbn [bind] in H; [|discriminate].
  apply interp_num_inv in En as (q & Hq & ->).
  injection H as <-. exists q. split; [exact Hq | reflexivity].
Qed.

Lemma sample_segment_nonempty (seg_unit : Q) (seg : Segment) (pts : list Point2) :
  sample_segment seg_unit seg = Ok pts -> pts <> [].
Proof.
  intros H. apply sample_segment_inv in H as (q & _ & ->). intros Hnil.
  apply (f_equal (@List.length Point2)) in Hnil.
  rewrite length_map, linspace_length in Hnil. cbn in Hnil. lia.
Qed.

Lemma head_last_closed {A B : Type} (f : A -> B) (p0 : A) (l : list A) :
  head (map f ((p0 :: l) ++ [p0])%list) = Some (f p0) /\
  last (map f ((p0 :: l) ++ [p0])%list) = Some (f p0).
Proof.
  split; [reflexivity|].
  rewrite map_app. cbn [map]. apply last_snoc.
Qed.

(** Every ring that [make_ring] returns ends where it starts. *)
Lemma make_ring_closed (m : Mat) (seg_unit : Q) (subpath : list Segment) (ring : Ring) :
  make_ring m seg_unit subpath = Ok ring ->
  exists p, head ring = Some p /\ last ring = Some p.
Proof.
  unfold make_ring. intros H.
  destruct (map_result (sample_segment seg_unit) subpath) as [arrays|e]; cbn in H; [|discriminate].
  destruct (np_concatenate arrays) as [points|e]; cbn in H; [|discriminate].
  destruct points as [|p0 points]; cbn in H; [discriminate|].
  injection H as <-.
  exists (mat_apply m (fst p0) (snd p0)).
  apply (head_last_closed (fun p => mat_apply m (fst p) (snd p)) p0 points).
Qed.

Section Rings.

Context {math : MathLib}.

(** C8.  For every document, every ring of every polygon that [read_svg]
    returns has a first point, and its last point is that point. *)
Theorem ring_closure (doc : Document) (seg_unit : Q)
    (polys : list Polygon) (new_attrs : list (gmap string string))
    (svg_size : Q * Q) (viewbox : list Q) :
  read_svg doc seg_unit = Ok (polys, new_attrs, svg_size, viewbox) ->
  forall (poly : Polygon) (ring : Ring),
    In poly polys -> In ring poly ->
    exists p, head ring = Some p /\ last ring = Some p.
Proof.
  unfold read_svg. intros H poly ring Hpoly Hring.
  destruct (resolve_viewbox doc) as [vb|e]; cbn in H; [|discriminate].
  destruct (map_result (make_poly seg_unit) (combine (paths doc) (attrs doc)))
    as [built|e] eqn:Hb; cbn in H; [|discriminate].
  injection H as <- _ _ _.
  apply in_map_iff in Hpoly. destruct Hpoly as ([poly' attr'] & Heq & Hin).
  cbn in Heq. subst poly'.
  destruct (map_result_In _ _ _ _ Hb Hin) as ([path attr] & _ & Hmk).
  unfold make_poly in Hmk.
  destruct (parse_transform _) as [m|e]; cbn in Hmk; [|discriminate].
  destruct (map_result (make_ring m seg_unit) (continuous_subpaths path))
    as [rings|e] eqn:Hr; cbn in Hmk; [|discriminate].
  injection Hmk as <- _.
  destruct (map_result_In _ _ _ _ Hr Hring) as (subpath & _ & Hring').
  apply (make_ring_closed _ _ _ _ Hring').
Qed.

End Rings.

Lemma ring_closure_witness :
  exists ring,
    polys_of (read_svg (math := quarter_math) sized_doc 8) = [[ring]] /\
    List.length ring = 9%nat /\
    exists p, head ring = Some p /\ last ring = Some p.
Proof.
  assert (Hp : polys_of (read_svg (math := quarter_math) sized_doc 8) = sized_doc_polys)
    by (vm_compute; reflexivity).
  pose proof (ring_closure (math := quarter_math) sized_doc 8) as Hc.
  destruct (read_svg (math := quarter_math) sized_doc 8)
    as [[[[polys new_attrs] svg_size] viewbox]|e]; cbn [polys_of] in Hp |- *.
  - subst polys. eexists. split; [reflexivity|]. split; [reflexivity|].
    eapply (Hc _ _ _ _ eq_refl);
      [unfold sized_doc_polys; left; reflexivity | left; reflexivity].
  - discriminate Hp.
Defined.

(** ** The viewBox *)

Lemma truthy_Some (s : string) : is_empty s = false -> truthy (Some s) = true.
Proof. intros H. cbn. rewrite H. reflexivity. Qed.

(** With a non-empty viewBox attribute of four tokens, [viewbox] is the
    list of their values, whatever the width and the height. *)
Lemma resolve_viewbox_four_tokens (doc : Document) (s : string) (parts : list string) :
  vb_attr doc = Some s -> is_empty s = false ->
  split_ws (replace_comma s) = parts -> List.length parts = 4%nat ->
  resolve_viewbox doc = map_result py_float parts.
Proof.
  intros Hs Hne Hparts Hlen. unfold resolve_viewbox.
  rewrite Hs, (truthy_Some s Hne).
  change (default EmptyString (Some s)) with s.
  rewrite Hparts, Hlen. reflexivity.
Qed.

(** With a non-empty viewBox attribute whose number of tokens is not
    four, [viewbox] is [[0, 0, width, height]] without a test on the
    width and the height. *)
Lemma resolve_viewbox_other_count (doc : Document) (s : string) :
  vb_attr doc = Some s -> is_empty s = false ->
  List.length (split_ws (replace_comma s)) <> 4%nat ->
  resolve_viewbox doc = Ok [0; 0; svg_width doc; svg_height doc].
Proof.
  intros Hs Hne Hlen. unfold resolve_viewbox.
  rewrite Hs, (truthy_Some s Hne).
  change (default EmptyString (Some s)) with s.
  destruct (Nat.eqb_spec (List.length (split_ws (replace_comma s))) 4);
    [contradiction | reflexivity].
Qed.

(** Without a viewBox attribute, the declared size is used when both
    dimensions are positive, and the bounds of the paths otherwise. *)
Lemma resolve_viewbox_absent (doc : Document) :
  truthy (vb_attr doc) = false ->
  resolve_viewbox doc =
  Ok (if Qltb 0 (svg_width doc) && Qltb 0 (svg_height doc)
      then [0; 0; svg_width doc; svg_height doc]
      else paths_bounds (paths doc)).
Proof.
  intros H. unfold resolve_viewbox. rewrite H.
  destruct (Qltb 0 (svg_width doc) && Qltb 0 (svg_height doc)); reflexivity.
Qed.

Section ViewBox.

Context {math : MathLib}.

(** C1, as the code has it.  For every document whose viewBox attribute
    is four numeric tokens, the [viewbox] that [read_svg] resolves and
    returns is that viewBox, whatever the declared width and height.
    [main] does not read it: the Extent from which it derives the mapping
    is [(0, 0, width, height)] when both declared dimensions are positive,
    and the bounds of the assembled polygons otherwise. *)
Theorem viewbox_wins_in_read_svg_not_in_main
    (doc : Document) (s : string) (t1 t2 t3 t4 : string) (a b c d : Q) (seg_unit : Q) :
  vb_attr doc = Some s -> is_empty s = false ->
  split_ws (replace_comma s) = [t1; t2; t3; t4] ->
  py_float t1 = Ok a -> py_float t2 = Ok b ->
  py_float t3 = Ok c -> py_float t4 = Ok d ->
  resolve_viewbox doc = Ok [a; b; c; d] /\
  forall polys new_attrs svg_size viewbox,
    read_svg doc seg_unit = Ok (polys, new_attrs, svg_size, viewbox) ->
    viewbox = [a; b; c; d] /\
    svg_size = (svg_width doc, svg_height doc) /\
    main_extent polys svg_size =
      (if Qltb 0 (svg_width doc) && Qltb 0 (svg_height doc)
       then [0; 0; svg_width doc; svg_height doc]
       else compute_bounds polys).
Proof.
  intros Hs Hne Hparts H1 H2 H3 H4.
  assert (Hvb : resolve_viewbox doc = Ok [a; b; c; d]).
  { rewrite (resolve_viewbox_four_tokens doc s _ Hs Hne Hparts eq_refl).
    cbn [map_result]. rewrite H1, H2, H3, H4. reflexivity. }
  split; [exact Hvb|].
  intros polys new_attrs svg_size viewbox Hr.
  unfold read_svg in Hr. rewrite Hvb in Hr. cbn [bind] in Hr.
  destruct (map_result (make_poly seg_unit) (combine (paths doc) (attrs doc)))
    as [built|e]; cbn in Hr; [|discriminate].
  injection Hr as <- <- <- <-.
  split; [reflexivity|]. split; reflexivity.
Qed.

End ViewBox.

Lemma viewbox_wins_in_read_svg_not_in_main_witness :
  vb_attr sized_doc = Some "0 0 200 100" /\
  is_empty "0 0 200 100" = false /\
  split_ws (replace_comma "0 0 200 100") = ["0"; "0"; "200"; "100"] /\
  py_float "0" = Ok 0 /\ py_float "200" = Ok 200 /\ py_float "100" = Ok 100 /\
  resolve_viewbox sized_doc = Ok [0; 0; 200; 100].
Proof.
  repeat (split; [vm_compute; reflexivity|]).
  apply (viewbox_wins_in_read_svg_not_in_main (math := quarter_math)
           sized_doc "0 0 200 100" "0" "0" "200" "100" 0 0 200 100 8);
    vm_compute; reflexivity.
Defined.

(** C1, as stated, fails: with viewBox 0 0 200 100, width 100 and height
    50, [read_svg] resolves the viewBox but the Extent of [main] is
    [(0, 0, 100, 50)], and the window and the world coordinates are set
    from it: 1200 by 600, X from -2 to 102, Y from -51 to 1. *)
Lemma main_extent_ignores_viewbox :
  resolve_viewbox sized_doc = Ok [0; 0; 200; 100] /\
  svg_width sized_doc = 100 /\ svg_height sized_doc = 50 /\
  main_extent (polys_of (read_svg (math := quarter_math) sized_doc 8))
              (svg_width sized_doc, svg_height sized_doc)
  = [0; 0; 100; 50] /\
  ~ Forall2 Qeq [0; 0; 100; 50] [0; 0; 200; 100] /\
  main (math := quarter_math) sized_doc 800 600
  = Ok [Setup (60000 # 50) 600; Reset; Speed 0;
        SetWorldCoordinates (-200 # 100) (-5100 # 100) (10200 # 100) (100 # 100);
        ModeWorld; Tracer 10 0].
Proof.
  split; [vm_compute; reflexivity|].
  split; [vm_compute; reflexivity|].
  split; [vm_compute; reflexivity|].
  split; [vm_compute; reflexivity|].
  split; [|vm_compute; reflexivity].
  intros H.
  inversion H as [|? ? ? ? _ H1]; subst.
  inversion H1 as [|? ? ? ? _ H2]; subst.
  inversion H2 as [|? ? ? ? H3 _]; subst.
  discriminate H3.
Qed.

(** C4: the code at a viewBox of three numbers with no declared size.
    [viewbox] is the degenerate [[0, 0, 0, 0]], although the one path has
    the bounding box from [(1, 2)] to [(5, 6)], which the branch without
    a viewBox attribute would have returned. *)
Theorem short_viewbox_yields_degenerate_extent :
  split_ws (replace_comma "0 0 100") = ["0"; "0"; "100"] /\
  svg_width short_viewbox_doc = 0 /\ svg_height short_viewbox_doc = 0 /\
  resolve_viewbox short_viewbox_doc = Ok [0; 0; 0; 0] /\
  paths_bounds (paths short_viewbox_doc) = [1; 2; 5; 6].
Proof.
  repeat split; vm_compute; reflexivity.
Qed.

(** ** Matrix algebra *)

Lemma mat_eq_refl (a : Mat) : mat_eq a a.
Proof. unfold mat_eq. repeat split; reflexivity. Qed.

Lemma mat_eq_sym (a b : Mat) : mat_eq a b -> mat_eq b a.
Proof.
  unfold mat_eq. intros (H1 & H2 & H3 & H4 & H5 & H6 & H7 & H8 & H9).
  repeat split; symmetry; assumption.
Qed.

Lemma mat_eq_trans (a b c : Mat) : mat_eq a b -> mat_eq b c -> mat_eq a c.
Proof.
  unfold mat_eq.
  intros (H1 & H2 & H3 & H4 & H5 & H6 & H7 & H8 & H9)
         (G1 & G2 & G3 & G4 & G5 & G6 & G7 & G8 & G9).
  repeat split; etransitivity; eassumption.
Qed.

#[local] Instance mat_eq_equiv : Equivalence mat_eq.
Proof.
  split; [exact mat_eq_refl | exact mat_eq_sym | exact mat_eq_trans].
Qed.

Lemma point_eq_refl (p : Point2) : point_eq p p.
Proof. split; reflexivity. Qed.

Lemma point_eq_trans (p q r : Point2) : point_eq p q -> point_eq q r -> point_eq p r.
Proof. intros [H1 H2] [G1 G2]. split; etransitivity; eassumption. Qed.

Lemma mat_mul_compat (a a' b b' : Mat) :
  mat_eq a a' -> mat_eq b b' -> mat_eq (mat_mul a b) (mat_mul a' b').
Proof.
  unfold mat_eq.
  intros (H1 & H2 & H3 & H4 & H5 & H6 & H7 & H8 & H9)
         (G1 & G2 & G3 & G4 & G5 & G6 & G7 & G8 & G9).
  cbn [mat_mul m00 m01 m02 m10 m11 m12 m20 m21 m22].
  repeat split;
    (apply Qplus_comp; [apply Qplus_comp|]; apply Qmult_comp; assumption).
Qed.

Lemma mat_mul_assoc (a b c : Mat) :
  mat_eq (mat_mul (mat_mul a b) c) (mat_mul a (mat_mul b c)).
Proof.
  unfold mat_eq. cbn [mat_mul m00 m01 m02 m10 m11 m12 m20 m21 m22].
  repeat split; ring.
Qed.

Lemma mat_mul_id_l (a : Mat) : mat_eq (mat_mul mat_identity a) a.
Proof.
  unfold mat_eq. cbn [mat_mul mat_identity m00 m01 m02 m10 m11 m12 m20 m21 m22].
  repeat split; ring.
Qed.

Lemma mat_mul_id_r (a : Mat) : mat_eq (mat_mul a mat_identity) a.
Proof.
  unfold mat_eq. cbn [mat_mul mat_identity m00 m01 m02 m10 m11 m12 m20 m21 m22].
  repeat split; ring.
Qed.

Lemma mat_apply_compat (a b : Mat) (x y x' y' : Q) :
  mat_eq a b -> x == x' -> y == y' ->
  point_eq (mat_apply a x y) (mat_apply b x' y').
Proof.
  unfold mat_eq.
  intros (H1 & H2 & H3 & H4 & H5 & H6 & H7 & H8 & H9) Hx Hy.
  split; cbn [mat_apply fst snd];
    (apply Qplus_comp; [apply Qplus_comp|]; try apply Qmult_comp; assumption).
Qed.

Lemma mat_apply_identity (x y : Q) : point_eq (mat_apply mat_identity x y) (x, y).
Proof. split; cbn; ring. Qed.

(** Applying a product is applying the right factor and then the left
    one, when the right factor is affine. *)
Lemma mat_apply_mul (a b : Mat) (x y : Q) :
  affine b ->
  point_eq (mat_apply (mat_mul a b) x y)
           (mat_apply a (fst (mat_apply b x y)) (snd (mat_apply b x y))).
Proof.
  intros (H0 & H1 & H2).
  split; cbn [mat_apply mat_mul fst snd m00 m01 m02 m10 m11 m12 m20 m21 m22];
    rewrite H0, H1, H2; ring.
Qed.

Lemma affine_identity : affine mat_identity.
Proof. repeat split. Qed.

Lemma affine_mul (a b : Mat) : affine a -> affine b -> affine (mat_mul a b).
Proof.
  intros (A0 & A1 & A2) (B0 & B1 & B2).
  repeat split; cbn [mat_mul m20 m21 m22];
    rewrite A0, A1, A2, ?B0, ?B1, ?B2; ring.
Qed.

Lemma mat_product_snoc (ms : list Mat) (m : Mat) :
  mat_eq (mat_product (ms ++ [m])%list) (mat_mul (mat_product ms) m).
Proof.
  induction ms as [|a ms IH]; cbn [mat_product fold_right app].
  - fold mat_product. etransitivity; [apply mat_mul_id_r|].
    symmetry. apply mat_mul_id_l.
  - fold (mat_product (ms ++ [m])%list). fold (mat_product ms).
    etransitivity; [apply mat_mul_compat; [reflexivity | exact IH]|].
    symmetry. apply mat_mul_assoc.
Qed.

Lemma apply_all_compat (ms : list Mat) (p q : Point2) :
  point_eq p q -> point_eq (apply_all ms p) (apply_all ms q).
Proof.
  revert p q. induction ms as [|m ms IH]; intros p q [Hx Hy]; cbn [apply_all fold_left].
  - split; assumption.
  - apply IH. apply mat_apply_compat; [reflexivity | exact Hx | exact Hy].
Qed.

(** The product with the last matrix leftmost acts on a point as the
    matrices applied in list order. *)
Lemma mat_product_rev_apply (ms : list Mat) :
  Forall affine ms ->
  forall x y, point_eq (mat_apply (mat_product (rev ms)) x y) (apply_all ms (x, y)).
Proof.
  induction 1 as [|m ms Hm _ IH]; intros x y.
  - apply mat_apply_identity.
  - cbn [rev apply_all fold_left fst snd].
    eapply point_eq_trans.
    { apply mat_apply_compat; [apply mat_product_snoc | reflexivity | reflexivity]. }
    eapply point_eq_trans; [apply mat_apply_mul; exact Hm|].
    eapply point_eq_trans; [apply IH|].
    apply apply_all_compat. destruct (mat_apply m x y). apply point_eq_refl.
Qed.

(** ** Strings *)

Lemma append_cons (c : ascii) (s t : string) : String c s ++ t = String c (s ++ t).
Proof. reflexivity. Qed.

Lemma append_nil_l (t : string) : EmptyString ++ t = t.
Proof. reflexivity. Qed.

Lemma append_nil_r (s : string) : s ++ EmptyString = s.
Proof.
  induction s as [|c s IH]; [reflexivity|].
  rewrite append_cons, IH. reflexivity.
Qed.

Lemma append_assoc (a b c : string) : (a ++ b) ++ c = a ++ (b ++ c).
Proof.
  induction a as [|x a IH]; [reflexivity|].
  rewrite !append_cons, IH. reflexivity.
Qed.

Lemma string_all_app (p : ascii -> bool) (a b : string) :
  string_all p (a ++ b) = string_all p a && string_all p b.
Proof.
  induction a as [|c a IH]; [reflexivity|].
  rewrite append_cons. cbn [string_all]. rewrite IH. apply andb_assoc.
Qed.

Lemma string_all_impl (p q : ascii -> bool) (s : string) :
  (forall c, p c = true -> q c = true) ->
  string_all p s = true -> string_all q s = true.
Proof.
  intros Hpq. induction s as [|c s IH]; cbn; [reflexivity|].
  intros H. apply andb_true_iff in H as [Hc Hs].
  rewrite (Hpq c Hc), (IH Hs). reflexivity.
Qed.

Lemma span_spec (p : ascii -> bool) (s a r : string) :
  span p s = (a, r) ->
  s = a ++ r /\ string_all p a = true /\ starts_with p r = false.
Proof.
  revert a r. induction s as [|c s IH]; intros a r H; cbn in H.
  - injection H as <- <-. auto.
  - destruct (p c) eqn:Ec.
    + destruct (span p s) as [a' r'] eqn:Es. injection H as <- <-.
      destruct (IH _ _ eq_refl) as (-> & Ha & Hr).
      rewrite append_cons. cbn [string_all]. rewrite Ec. auto.
    + injection H as <- <-. rewrite append_nil_l. cbn. rewrite Ec. auto.
Qed.

Lemma lstrip_by_id (p : ascii -> bool) (s : string) :
  starts_with p s = false -> lstrip_by p s = s.
Proof. destruct s as [|c s]; cbn; [reflexivity|]. intros ->. reflexivity. Qed.

Lemma rstrip_by_id (p : ascii -> bool) (s : string) :
  string_all (fun c => negb (p c)) s = true -> rstrip_by p s = s.
Proof.
  induction s as [|c s IH]; cbn; [reflexivity|].
  intros H. apply andb_true_iff in H as [Hc Hs].
  rewrite (IH Hs). apply negb_true_iff in Hc. rewrite Hc, andb_false_r. reflexivity.
Qed.

(** Facts about the classes of a character, by comparison of its code. *)
Ltac chars :=
  unfold is_digit, is_sign, is_e, is_char, is_float_space, in_range,
    dot, underscore in *;
  repeat match goal with
    | H : context [(?a <=? ?b)%N] |- _ => destruct (N.leb_spec a b)
    | |- context [(?a <=? ?b)%N] => destruct (N.leb_spec a b)
    | H : context [(?a =? ?b)%N] |- _ => destruct (N.eqb_spec a b)
    | |- context [(?a =? ?b)%N] => destruct (N.eqb_spec a b)
    end;
  cbn in *; try congruence; try lia.

Lemma digit_not_float_space (c : ascii) :
  is_digit c = true -> negb (is_float_space c) = true.
Proof. intros H. chars. Qed.

Lemma digit_run_digits (d r : string) :
  string_all is_digit d = true ->
  starts_with is_digit r = false ->
  starts_with (is_char underscore) r = false ->
  digit_run (d ++ r) = (d, r).
Proof.
  intros Hd Hr Hu. induction d as [|c d IH]; [rewrite append_nil_l | rewrite append_cons].
  - destruct r as [|c r]; [reflexivity|].
    cbn in Hr, Hu. cbn [digit_run]. rewrite Hr, Hu. reflexivity.
  - cbn in Hd. apply andb_true_iff in Hd as [Hc Hd].
    cbn [digit_run]. rewrite Hc, (IH Hd). reflexivity.
Qed.

Lemma digitpart_digits (d r : string) :
  string_all is_digit d = true ->
  starts_with is_digit r = false ->
  starts_with (is_char underscore) r = false ->
  digitpart (d ++ r) = (d, r).
Proof.
  intros Hd Hr Hu.
  destruct d as [|c d]; [rewrite append_nil_l | rewrite append_cons]; unfold digitpart.
  - destruct r as [|c r]; [reflexivity|]. cbn in Hr. rewrite Hr. reflexivity.
  - cbn in Hd. apply andb_true_iff in Hd as [Hc Hd].
    rewrite Hc, (digit_run_digits d r Hd Hr Hu). reflexivity.
Qed.

Lemma opt_sign_sign (c : ascii) (r : string) :
  is_sign c = true -> opt_sign (String c r) = (is_char 45 c, r).
Proof.
  intros H. unfold opt_sign.
  destruct (is_char 45 c) eqn:E; [reflexivity|].
  assert (E' : is_char 43 c = true) by chars.
  rewrite E'. reflexivity.
Qed.

Lemma opt_sign_none (r : string) :
  starts_with is_sign r = false -> opt_sign r = (false, r).
Proof.
  destruct r as [|c r]; cbn; [reflexivity|]. intros H.
  assert (E : is_char 45 c = false) by chars.
  assert (E' : is_char 43 c = false) by chars.
  rewrite E, E'. reflexivity.
Qed.

Lemma digits_start (p : ascii -> bool) (d : string) :
  (forall c, is_digit c = true -> p c = false) ->
  string_all is_digit d = true -> starts_with p d = false.
Proof.
  intros Hp. destruct d as [|c d]; cbn; [reflexivity|].
  intros H. apply andb_true_iff in H as [Hc _]. apply Hp. exact Hc.
Qed.

Lemma starts_with_app (p : ascii -> bool) (a b : string) :
  is_empty a = false -> starts_with p (a ++ b) = starts_with p a.
Proof. destruct a as [|c a]; [discriminate|]. reflexivity. Qed.

Lemma span_nonempty (p : ascii -> bool) (s a r : string) :
  span p s = (a, r) -> starts_with p s = true -> is_empty a = false.
Proof.
  destruct s as [|c s]; cbn; [discriminate|].
  intros H Hc. rewrite Hc in H. destruct (span p s). injection H as <- <-. reflexivity.
Qed.

(** A sign, if any, then digits: the text after the [e] of an exponent. *)
Lemma float_exponent_text (e : ascii) (sg ed : string) :
  is_e e = true ->
  (sg = EmptyString \/ exists c, is_sign c = true /\ sg = String c EmptyString) ->
  string_all is_digit ed = true -> is_empty ed = false ->
  exists z, float_exponent (String e (sg ++ ed)) = Ok z.
Proof.
  intros He Hsg Hd Hne. unfold float_exponent. rewrite He.
  assert (Hs : exists neg, opt_sign (sg ++ ed) = (neg, ed)).
  { destruct Hsg as [-> | (c & Hc & ->)].
    - exists false. rewrite append_nil_l. apply opt_sign_none.
      apply digits_start; [|exact Hd]. intros c Hc. chars.
    - eexists. rewrite append_cons, append_nil_l. apply opt_sign_sign. exact Hc. }
  destruct Hs as [neg ->].
  replace (digitpart ed) with (digitpart (ed ++ EmptyString))
    by (rewrite append_nil_r; reflexivity).
  rewrite digitpart_digits by (exact Hd || reflexivity).
  rewrite Hne. cbn. eexists; reflexivity.
Qed.

Lemma scan_exponent_spec (s ex r : string) :
  scan_exponent s = (ex, r) ->
  (exists z, float_exponent ex = Ok z) /\
  starts_with is_digit ex = false /\
  starts_with (is_char underscore) ex = false /\
  starts_with (is_char dot) ex = false /\
  string_all (fun c => negb (is_float_space c)) ex = true.
Proof.
  assert (Hnil : forall r', (EmptyString, r') = (ex, r) ->
            (exists z, float_exponent ex = Ok z) /\
            starts_with is_digit ex = false /\
            starts_with (is_char underscore) ex = false /\
            starts_with (is_char dot) ex = false /\
            string_all (fun c => negb (is_float_space c)) ex = true).
  { intros r' H. injection H as <- <-. cbn. eauto 6. }
  unfold scan_exponent. destruct s as [|e s1]; [apply Hnil|].
  destruct (is_e e) eqn:He; [|apply Hnil].
  assert (Hgo : forall sg s2,
            (sg = EmptyString \/ exists c, is_sign c = true /\ sg = String c EmptyString) ->
            (if starts_with is_digit s2
             then let '(ed, s3) := span is_digit s2 in (String e (sg ++ ed), s3)
             else (EmptyString, String e s1)) = (ex, r) ->
            (exists z, float_exponent ex = Ok z) /\
            starts_with is_digit ex = false /\
            starts_with (is_char underscore) ex = false /\
            starts_with (is_char dot) ex = false /\
            string_all (fun c => negb (is_float_space c)) ex = true).
  { intros sg s2 Hsg H.
    destruct (starts_with is_digit s2) eqn:Hd; [|apply (Hnil _ H)].
    destruct (span is_digit s2) as [ed s3] eqn:Esp.
    pose proof (span_nonempty _ _ _ _ Esp Hd) as Hne.
    apply span_spec in Esp as (_ & Hed & _).
    injection H as <- <-.
    split; [apply float_exponent_text; assumption|].
    cbn [starts_with string_all].
    split; [chars|]. split; [chars|]. split; [chars|].
    apply andb_true_iff. split; [chars|].
    rewrite string_all_app. apply andb_true_iff. split.
    - destruct Hsg as [-> | (c & Hc & ->)]; [reflexivity|].
      cbn. rewrite andb_true_r. chars.
    - apply (string_all_impl is_digit); [apply digit_not_float_space | exact Hed]. }
  destruct s1 as [|c' s1']; [apply Hgo; left; reflexivity|].
  destruct (is_sign c') eqn:Hs.
  - apply Hgo. right. exists c'. split; [exact Hs | reflexivity].
  - apply Hgo. left. reflexivity.
Qed.

Lemma scan_mantissa_spec (s ip fp r : string) :
  scan_mantissa s = Some (ip, fp, r) ->
  string_all is_digit ip = true /\ string_all is_digit fp = true /\
  is_empty ip && is_empty fp = false.
Proof.
  unfold scan_mantissa.
  destruct (span is_digit s) as [ip' s2] eqn:Ei.
  apply span_spec in Ei as (_ & Hip & _).
  assert (Hplain : (if is_empty ip' then None else Some (ip', EmptyString, s2))
                   = Some (ip, fp, r) ->
                   string_all is_digit ip = true /\ string_all is_digit fp = true /\
                   is_empty ip && is_empty fp = false).
  { destruct (is_empty ip') eqn:Hne; [discriminate|].
    intros H. injection H as <- <- <-. rewrite Hne. auto. }
  destruct s2 as [|c s3]; [exact Hplain|].
  destruct (is_char dot c && starts_with is_digit s3) eqn:Hd; [|exact Hplain].
  apply andb_true_iff in Hd as [_ Hd].
  destruct (span is_digit s3) as [fp' s4] eqn:Ef.
  pose proof (span_nonempty _ _ _ _ Ef Hd) as Hne.
  apply span_spec in Ef as (_ & Hfp & _).
  intros H. injection H as <- <- <-.
  rewrite Hne, andb_false_r. auto.
Qed.

(** [float] accepts every text made of an optional sign, a mantissa of
    the form that [float_re] matches and an exponent that it matches. *)
Lemma py_float_token (sg ip fp ex : string) :
  (sg = EmptyString \/ exists c, is_sign c = true /\ sg = String c EmptyString) ->
  string_all is_digit ip = true -> string_all is_digit fp = true ->
  is_empty ip && is_empty fp = false ->
  (exists z, float_exponent ex = Ok z) ->
  starts_with is_digit ex = false ->
  starts_with (is_char underscore) ex = false ->
  starts_with (is_char dot) ex = false ->
  string_all (fun c => negb (is_float_space c)) ex = true ->
  exists q, py_float (sg ++ mantissa_text ip fp ++ ex) = Ok q.
Proof.
  intros Hsg Hip Hfp Hne [z Hz] Hexd Hexu Hexdot Hexs.
  set (tail := if is_empty fp then ex else String (ascii_of_N dot) (fp ++ ex)).
  assert (Hbody : mantissa_text ip fp ++ ex = ip ++ tail).
  { unfold mantissa_text, tail. destruct (is_empty fp); [reflexivity|].
    rewrite append_assoc, append_cons. reflexivity. }
  assert (Htd : starts_with is_digit tail = false).
  { unfold tail. destruct (is_empty fp); [exact Hexd | reflexivity]. }
  assert (Htu : starts_with (is_char underscore) tail = false).
  { unfold tail. destruct (is_empty fp); [exact Hexu | reflexivity]. }
  assert (Hts : string_all (fun c => negb (is_float_space c)) tail = true).
  { unfold tail. destruct (is_empty fp); [exact Hexs|].
    cbn [string_all]. rewrite string_all_app, Hexs, andb_true_r.
    apply andb_true_iff. split; [reflexivity|].
    apply (string_all_impl is_digit); [apply digit_not_float_space | exact Hfp]. }
  assert (Hbs : string_all (fun c => negb (is_float_space c)) (ip ++ tail) = true).
  { rewrite string_all_app, Hts, andb_true_r.
    apply (string_all_impl is_digit); [apply digit_not_float_space | exact Hip]. }
  assert (Hbsign : starts_with is_sign (ip ++ tail) = false).
  { destruct ip as [|c ip'].
    - rewrite append_nil_l. unfold tail.
      destruct (is_empty fp) eqn:Ef; [|reflexivity].
      cbn in Hne. discriminate Hne.
    - rewrite append_cons. cbn in Hip |- *.
      apply andb_true_iff in Hip as [Hc _]. chars. }
  rewrite Hbody.
  assert (Hall : string_all (fun c => negb (is_float_space c)) (sg ++ ip ++ tail) = true).
  { rewrite string_all_app, Hbs, andb_true_r.
    destruct Hsg as [-> | (c & Hc & ->)]; [reflexivity|].
    cbn. rewrite andb_true_r. chars. }
  assert (Hstart : starts_with is_float_space (sg ++ ip ++ tail) = false).
  { destruct (sg ++ ip ++ tail) as [|c t]; [reflexivity|].
    cbn in Hall |- *. apply andb_true_iff in Hall as [Hc _].
    apply negb_true_iff in Hc. exact Hc. }
  unfold py_float.
  rewrite (lstrip_by_id _ _ Hstart), (rstrip_by_id _ _ Hall).
  assert (Hs : exists neg, opt_sign (sg ++ ip ++ tail) = (neg, ip ++ tail)).
  { destruct Hsg as [-> | (c & Hc & ->)].
    - exists false. rewrite append_nil_l. apply opt_sign_none. exact Hbsign.
    - eexists. rewrite append_cons, append_nil_l. apply opt_sign_sign. exact Hc. }
  destruct Hs as [neg ->].
  rewrite (digitpart_digits ip tail Hip Htd Htu).
  unfold tail. destruct (is_empty fp) eqn:Ef.
  - rewrite andb_true_r in Hne. rewrite Hne.
    destruct ex as [|c ex'].
    + eexists; reflexivity.
    + cbn in Hexdot. rewrite Hexdot, Hz. cbn. eexists; reflexivity.
  - change (is_char dot (ascii_of_N dot)) with true. cbv iota.
    rewrite (digitpart_digits fp ex Hfp Hexd Hexu).
    rewrite Ef, andb_false_r, Hz. cbn. eexists; reflexivity.
Qed.

Lemma match_float_total (s tok : string) :
  match_float s = Some tok -> exists q, py_float tok = Ok q.
Proof.
  unfold match_float.
  assert (Hgo : forall sg s1,
            (sg = EmptyString \/ exists c, is_sign c = true /\ sg = String c EmptyString) ->
            match scan_mantissa s1 with
            | Some (ip, fp, s2) =>
                let '(ex, _) := scan_exponent s2 in Some (sg ++ mantissa_text ip fp ++ ex)
            | None => None
            end = Some tok ->
            exists q, py_float tok = Ok q).
  { intros sg s1 Hsg H.
    destruct (scan_mantissa s1) as [[[ip fp] s2]|] eqn:Em; [|discriminate].
    destruct (scan_exponent s2) as [ex r] eqn:Ee.
    injection H as <-.
    destruct (scan_mantissa_spec _ _ _ _ Em) as (Hip & Hfp & Hne).
    destruct (scan_exponent_spec _ _ _ Ee) as (Hz & Hd & Hu & Hdot & Hsp).
    apply py_float_token; assumption. }
  destruct s as [|c s']; [apply Hgo; left; reflexivity|].
  destruct (is_sign c) eqn:Hc.
  - apply Hgo. right. exists c. split; [exact Hc | reflexivity].
  - apply Hgo. left. reflexivity.
Qed.

Lemma findall_floats_from_total (s : string) (skip : nat) :
  Forall (fun tok => exists q, py_float tok = Ok q) (findall_floats_from skip s).
Proof.
  revert skip. induction s as [|c s IH]; intros skip; cbn [findall_floats_from].
  - constructor.
  - destruct skip as [|k]; [|apply IH].
    destruct (match_float (String c s)) as [tok|] eqn:Em; [|apply IH].
    constructor; [apply (match_float_total _ _ Em) | apply IH].
Qed.

(** [parse_numbers] never raises. *)
Lemma parse_numbers_total (s : string) : exists vals, parse_numbers s = Ok vals.
Proof.
  unfold parse_numbers, findall_floats.
  apply map_result_total. apply findall_floats_from_total.
Qed.

(** ** The calls of a written transform list *)

Lemma length_append (a b : string) :
  String.length (a ++ b) = (String.length a + String.length b)%nat.
Proof.
  induction a as [|c a IH]; [reflexivity|].
  rewrite append_cons. cbn [String.length]. rewrite IH. reflexivity.
Qed.

Lemma span_all (p : ascii -> bool) (a r : string) :
  string_all p a = true -> starts_with p r = false -> span p (a ++ r) = (a, r).
Proof.
  intros Ha Hr. induction a as [|c a IH].
  - rewrite append_nil_l. destruct r as [|c r]; [reflexivity|].
    cbn in Hr |- *. rewrite Hr. reflexivity.
  - cbn in Ha. apply andb_true_iff in Ha as [Hc Ha].
    rewrite append_cons. cbn [span]. rewrite Hc, (IH Ha). reflexivity.
Qed.

Lemma space_not_word (c : ascii) : is_space c = true -> is_word c = false.
Proof.
  destruct c as [[] [] [] [] [] [] [] []]; vm_compute; intros H;
    (reflexivity || discriminate H).
Qed.

Lemma starts_with_gap (gap rest : string) :
  string_all is_space gap = true ->
  starts_with is_word (gap ++ "(" ++ rest) = false.
Proof.
  destruct gap as [|c gap]; [reflexivity|].
  cbn. intros H. apply andb_true_iff in H as [Hc _]. apply space_not_word. exact Hc.
Qed.

(** The pattern of l.88 matches a written call at its name, whole. *)
Lemma match_call_written (name gap args rest : string) :
  is_empty name = false -> string_all is_word name = true ->
  string_all is_space gap = true ->
  string_all (fun c => negb (is_char rparen c)) args = true ->
  match_call (name ++ gap ++ "(" ++ args ++ ")" ++ rest) =
  Some (name, args,
        (String.length name + String.length gap + 1 + String.length args + 1)%nat).
Proof.
  intros Hne Hname Hgap Hargs. unfold match_call.
  rewrite (span_all is_word name _ Hname (starts_with_gap gap _ Hgap)).
  rewrite Hne.
  rewrite (span_all is_space gap ("(" ++ args ++ ")" ++ rest) Hgap eq_refl).
  change ("(" ++ args ++ ")" ++ rest) with (String "(" (args ++ ")" ++ rest)).
  change (is_char lparen "(") with true. cbn iota.
  rewrite (span_all (fun c => negb (is_char rparen c)) args (")" ++ rest) Hargs eq_refl).
  reflexivity.
Qed.

Lemma findall_calls_from_skip (x rest : string) (k : nat) :
  findall_calls_from (String.length x + k) (x ++ rest) = findall_calls_from k rest.
Proof.
  induction x as [|c x IH]; [reflexivity|].
  rewrite append_cons. cbn [String.length Nat.add findall_calls_from]. exact IH.
Qed.

Lemma findall_calls_separator (sep rest : string) :
  is_separator sep = true ->
  findall_calls_from 0 (sep ++ rest) = findall_calls_from 0 rest.
Proof.
  unfold is_separator. induction sep as [|c sep IH]; [reflexivity|].
  cbn [string_all]. intros H. apply andb_true_iff in H as [Hc Hs].
  apply negb_true_iff in Hc.
  rewrite append_cons. cbn [findall_calls_from].
  unfold match_call. cbn [span]. rewrite Hc. cbn [is_empty]. apply IH. exact Hs.
Qed.

(** [re.findall] finds the calls of a written list, each once, from left
    to right. *)
Lemma findall_calls_call (c : CallText) (rest : string) :
  well_formed c = true ->
  findall_calls_from 0 (call_text c ++ rest) =
  (ct_name c, ct_args c) :: findall_calls_from 0 rest.
Proof.
  unfold well_formed, call_text. destruct c as [before name gap args].
  cbn [ct_before ct_name ct_gap ct_args].
  intros H.
  apply andb_true_iff in H as [H Hargs].
  apply andb_true_iff in H as [H Hgap].
  apply andb_true_iff in H as [H Hname].
  apply andb_true_iff in H as [Hsep Hne].
  apply negb_true_iff in Hne.
  rewrite !append_assoc.
  rewrite (findall_calls_separator before _ Hsep).
  pose proof (match_call_written name gap args rest Hne Hname Hgap Hargs) as Hm.
  destruct name as [|n0 name]; [discriminate|].
  rewrite !append_cons in *. cbn [findall_calls_from]. rewrite Hm.
  f_equal.
  replace (String.length (String n0 name) + String.length gap + 1 + String.length args + 1 - 1)%nat
    with (String.length (name ++ gap ++ "(" ++ args ++ ")") + 0)%nat
    by (rewrite !length_append; cbn [String.length]; lia).
  rewrite <- (findall_calls_from_skip (name ++ gap ++ "(" ++ args ++ ")") rest 0).
  rewrite !append_assoc. reflexivity.
Qed.

Lemma findall_calls_written (cs : list CallText) (tail : string) :
  forallb well_formed cs = true -> is_separator tail = true ->
  findall_calls (written cs tail) = map (fun c => (ct_name c, ct_args c)) cs.
Proof.
  intros Hcs Htail. unfold findall_calls.
  induction cs as [|c cs IH]; cbn [written map].
  - rewrite <- (append_nil_r tail). rewrite (findall_calls_separator tail _ Htail).
    reflexivity.
  - cbn [forallb] in Hcs. apply andb_true_iff in Hcs as [Hc Hcs].
    rewrite (findall_calls_call c _ Hc), (IH Hcs). reflexivity.
Qed.

Lemma map_result_map {A B C : Type} (f : B -> result C) (g : A -> B) (l : list A) :
  map_result f (map g l) = map_result (fun x => f (g x)) l.
Proof.
  induction l as [|x l IH]; [reflexivity|].
  cbn [map map_result]. rewrite IH. reflexivity.
Qed.

(** ** Transform lists *)

Section TransformProperties.

Context {math : MathLib}.

Lemma transform_step_ok (m : Mat) (func args : string) :
  exists vals,
    parse_numbers args = Ok vals /\
    transform_step m (func, args) = Ok (mat_mul (transform_matrix (lower func) vals) m).
Proof.
  destruct (parse_numbers_total args) as [vals Hv].
  exists vals. split; [exact Hv|].
  unfold transform_step. rewrite Hv. reflexivity.
Qed.

(** The loop visits the ops in order and multiplies each matrix onto the
    left of the running one. *)
Lemma transform_loop_ops (calls : list (string * string)) (m : Mat) :
  exists ops,
    map_result op_of_call calls = Ok ops /\
    transform_loop m calls = Ok (fold_left (fun m op => mat_mul (op_matrix op) m) ops m).
Proof.
  revert m. induction calls as [|[func args] calls IH]; intros m.
  - exists []. split; reflexivity.
  - destruct (transform_step_ok m func args) as (vals & Hv & Hs).
    destruct (IH (mat_mul (transform_matrix (lower func) vals) m)) as (ops & Ho & Hl).
    exists ((lower func, vals) :: ops). split.
    + cbn [map_result op_of_call]. rewrite Hv. cbn [bind]. rewrite Ho. reflexivity.
    + cbn [transform_loop]. rewrite Hs. cbn [bind]. rewrite Hl. reflexivity.
Qed.

Lemma unrecognized_identity (op : string * list Q) :
  recognized op = false -> op_matrix op = mat_identity.
Proof.
  destruct op as [name vals]. unfold recognized, op_matrix, transform_matrix. cbn [fst snd].
  intros H.
  apply orb_false_iff in H as [H Hm].
  apply orb_false_iff in H as [H Hr].
  apply orb_false_iff in H as [Ht Hs].
  rewrite Ht, Hs, Hr, Hm. reflexivity.
Qed.

Lemma affine_translation (tx ty : Q) : affine (translation tx ty).
Proof. repeat split. Qed.

Lemma affine_scaling (sx sy : Q) : affine (scaling sx sy).
Proof. repeat split. Qed.

Lemma affine_rotation (ang : Q) : affine (rotation ang).
Proof. repeat split. Qed.

Lemma op_matrix_affine (op : string * list Q) : affine (op_matrix op).
Proof.
  destruct op as [name vals]. unfold op_matrix, transform_matrix. cbn [fst snd].
  destruct (String.eqb name "translate"); [apply affine_translation|].
  destruct (String.eqb name "scale"); [apply affine_scaling|].
  destruct (String.eqb name "rotate").
  { destruct (2 <? List.length vals)%nat; [|apply affine_rotation].
    apply affine_mul; [apply affine_mul|];
      auto using affine_translation, affine_rotation. }
  destruct (String.eqb name "matrix" && (6 <=? List.length vals)%nat);
    [|apply affine_identity].
  destruct (firstn 6 vals) as [|a [|b [|c [|d [|e [|f [|g l]]]]]]];
    repeat split.
Qed.

Lemma fold_ops_product (ops : list (string * list Q)) (m : Mat) :
  mat_eq (fold_left (fun m op => mat_mul (op_matrix op) m) ops m)
         (mat_mul (mat_product (rev (map op_matrix (List.filter recognized ops)))) m).
Proof.
  revert m. induction ops as [|op ops IH]; intros m.
  - cbn. symmetry. apply mat_mul_id_l.
  - cbn [fold_left List.filter].
    etransitivity; [apply IH|].
    destruct (recognized op) eqn:Hr.
    + cbn [map rev].
      etransitivity; [symmetry; apply mat_mul_assoc|].
      apply mat_mul_compat; [|reflexivity].
      symmetry. apply mat_product_snoc.
    + rewrite (unrecognized_identity op Hr).
      apply mat_mul_compat; [reflexivity | apply mat_mul_id_l].
Qed.

(** C5.  Whenever [parse_transform] returns a matrix for a transform
    list, with [M1 .. Mn] the matrices of its recognized ops in textual
    order, that matrix is [Mn * ... * M1]: each op's matrix is
    multiplied onto the left of the running result, so that on a point
    the first-listed op acts first and the last-listed one outermost.
    The ops are those of the calls that the pattern finds, from left to
    right; for a list written as function calls they are the calls as
    written, in the order in which they are written. *)
Theorem composition_order (s : string) (m : Mat) :
  parse_transform s = Ok m ->
  exists ops,
    transform_ops s = Ok ops /\
    (let ms := map op_matrix (List.filter recognized ops) in
     mat_eq m (mat_product (rev ms)) /\
     forall x y, point_eq (mat_apply m x y) (apply_all ms (x, y))) /\
    forall (cs : list CallText) (tail : string),
      strip s = written cs tail ->
      forallb well_formed cs = true -> is_separator tail = true ->
      written_ops cs = Ok ops.
Proof.
  intros Hp.
  destruct (transform_loop_ops (findall_calls (strip s)) mat_identity)
    as (ops & Ho & Hl).
  assert (Hm : mat_eq m (mat_product (rev (map op_matrix (List.filter recognized ops))))).
  { unfold parse_transform in Hp. destruct s as [|c s'].
    - cbn in Hp, Ho. injection Hp as <-. injection Ho as <-. apply mat_eq_refl.
    - cbn [is_empty] in Hp. rewrite Hl in Hp. injection Hp as <-.
      etransitivity; [apply fold_ops_product | apply mat_mul_id_r]. }
  exists ops. split; [exact Ho|]. split.
  - intros ms. split; [exact Hm|].
    intros x y.
    eapply point_eq_trans.
    { apply mat_apply_compat; [exact Hm | reflexivity | reflexivity]. }
    apply mat_product_rev_apply.
    unfold ms. apply List.Forall_forall. intros m' Hin.
    apply in_map_iff in Hin as (op & <- & _). apply op_matrix_affine.
  - intros cs tail Hs Hcs Htail.
    pose proof (findall_calls_written cs tail Hcs Htail) as Hf.
    rewrite <- Hs in Hf.
    unfold written_ops. rewrite <- (map_result_map op_of_call), <- Hf. exact Ho.
Qed.

(** The default arguments of the four functions, on the quarter-turn
    table. *)
Example parse_transform_samples :
  parse_transform (math := quarter_math) "" = Ok mat_identity /\
  parse_transform (math := quarter_math) "translate(5)"
  = Ok (mkMat 1 0 5 0 1 0 0 0 1) /\
  parse_transform (math := quarter_math) "scale(2)"
  = Ok (mkMat 2 0 0 0 2 0 0 0 1) /\
  parse_transform (math := quarter_math) "rotate(90)"
  = Ok (mkMat 0 (-1) 0 1 0 0 0 0 1) /\
  parse_transform (math := quarter_math) "rotate(90,1,1)"
  = Ok (mkMat 0 (-1) 2 1 0 0 0 0 1) /\
  parse_transform (math := quarter_math) "skewX(30) translate(1,2)"
  = Ok (mkMat 1 0 1 0 1 2 0 0 1) /\
  parse_transform (math := quarter_math) "translate(1,0) scale(2)"
  = Ok (mkMat 2 0 2 0 2 0 0 0 1).
Proof. repeat split; vm_compute; reflexivity. Qed.

(** C3, as the code has it.  A [matrix] call with fewer than six numbers
    is skipped: its matrix is the identity and the running matrix keeps
    its value.  With six numbers or more the call is applied, with the
    first six as [a, b, c, d, e, f]. *)
Theorem matrix_needs_at_least_six_values (m : Mat) (func args : string) (vals : list Q) :
  lower func = "matrix" -> parse_numbers args = Ok vals ->
  ((List.length vals < 6)%nat ->
     transform_matrix (lower func) vals = mat_identity /\
     exists m', transform_step m (func, args) = Ok m' /\ mat_eq m' m) /\
  (forall a b c d e f rest, vals = a :: b :: c :: d :: e :: f :: rest ->
     transform_step m (func, args) = Ok (mat_mul (mkMat a c e b d f 0 0 1) m)).
Proof.
  intros Hf Hv.
  assert (Hs : transform_step m (func, args)
               = Ok (mat_mul (transform_matrix (lower func) vals) m)).
  { unfold transform_step. rewrite Hv. reflexivity. }
  rewrite Hs, Hf. split.
  - intros Hlen.
    assert (Hid : transform_matrix "matrix" vals = mat_identity).
    { unfold transform_matrix. cbn [String.eqb Ascii.eqb Bool.eqb andb].
      destruct (Nat.leb_spec 6 (List.length vals)); [lia | reflexivity]. }
    split; [exact Hid|].
    eexists. split; [reflexivity|]. rewrite Hid. apply mat_mul_id_l.
  - intros a b c d e f rest ->. reflexivity.
Qed.

(** C10.  A [rotate] call with exactly two numbers rotates about the
    origin by the first and ignores the second; so does a call with one
    number, and a call with none rotates by 0.  The centre is taken from
    the second and third numbers when there are three or more. *)
Theorem rotate_center_needs_three_values (m : Mat) (func args : string) (vals : list Q) :
  lower func = "rotate" -> parse_numbers args = Ok vals ->
  transform_step m (func, args) =
  Ok (mat_mul
        match vals with
        | [] => rotation 0
        | [ang] => rotation ang
        | [ang; _] => rotation ang
        | ang :: cx :: cy :: _ =>
            mat_mul (mat_mul (translation cx cy) (rotation ang))
                    (translation (- cx) (- cy))
        end m).
Proof.
  intros Hf Hv. unfold transform_step. rewrite Hv, Hf. cbn [bind].
  destruct vals as [|ang [|cx [|cy rest]]]; reflexivity.
Qed.

End TransformProperties.

(** The list [translate(1,0) scale(2)]: the translation is written
    first and acts first, so that the point [(x, y)] goes to
    [(2 (x + 1), 2 y)]; the matrix is the scaling times the
    translation. *)
Lemma composition_order_witness :
  parse_transform (math := quarter_math) "translate(1,0) scale(2)"
  = Ok (mkMat 2 0 2 0 2 0 0 0 1) /\
  strip "translate(1,0) scale(2)" = written translate_then_scale "" /\
  written_ops translate_then_scale = Ok [("translate", [1; 0]); ("scale", [2])] /\
  mat_eq (mkMat 2 0 2 0 2 0 0 0 1)
         (mat_mul (scaling 2 2) (mat_mul (translation 1 0) mat_identity)) /\
  forall x y,
    point_eq (mat_apply (mkMat 2 0 2 0 2 0 0 0 1) x y)
             (apply_all [translation 1 0; scaling 2 2] (x, y)).
Proof.
  assert (Hs : strip "translate(1,0) scale(2)" = written translate_then_scale "")
    by reflexivity.
  assert (Hp : parse_transform (math := quarter_math) "translate(1,0) scale(2)"
               = Ok (mkMat 2 0 2 0 2 0 0 0 1)) by (vm_compute; reflexivity).
  assert (Hw : written_ops translate_then_scale = Ok [("translate", [1; 0]); ("scale", [2])])
    by (vm_compute; reflexivity).
  split; [exact Hp|]. split; [exact Hs|]. split; [exact Hw|].
  destruct (composition_order (math := quarter_math) "translate(1,0) scale(2)"
              (mkMat 2 0 2 0 2 0 0 0 1) Hp)
    as (ops & _ & [Hm Ha] & Hwritten).
  rewrite (Hwritten translate_then_scale "" Hs eq_refl eq_refl) in Hw.
  injection Hw as ->.
  split; [exact Hm | exact Ha].
Defined.

Lemma matrix_needs_at_least_six_values_witness :
  lower "Matrix" = "matrix" /\
  parse_numbers "1 2 3" = Ok [1; 2; 3] /\
  (List.length [1; 2; 3] < 6)%nat /\
  transform_matrix (math := quarter_math) (lower "Matrix") [1; 2; 3] = mat_identity.
Proof.
  split; [reflexivity|]. split; [vm_compute; reflexivity|]. split; [cbn; lia|].
  apply (matrix_needs_at_least_six_values (math := quarter_math)
           mat_identity "Matrix" "1 2 3" [1; 2; 3]);
    [reflexivity | vm_compute; reflexivity | cbn; lia].
Defined.

Lemma rotate_center_needs_three_values_witness :
  lower "rotate" = "rotate" /\
  parse_numbers "90, 5" = Ok [90; 5] /\
  transform_step (math := quarter_math) mat_identity ("rotate", "90, 5")
  = Ok (mat_mul (rotation (math := quarter_math) 90) mat_identity).
Proof.
  split; [reflexivity|]. split; [vm_compute; reflexivity|].
  apply (rotate_center_needs_three_values (math := quarter_math)
           mat_identity "rotate" "90, 5" [90; 5]);
    [reflexivity | vm_compute; reflexivity].
Defined.

(** C3, as stated, fails: a [matrix] call with seven numbers is not
    skipped; it is applied with the first six, here as the translation
    by [(5, 5)]. *)
Lemma matrix_with_seven_values_is_applied :
  parse_numbers "1,0,0,1,5,5,9" = Ok [1; 0; 0; 1; 5; 5; 9] /\
  List.length [1; 0; 0; 1; 5; 5; 9] <> 6%nat /\
  transform_matrix (math := quarter_math) "matrix" [1; 0; 0; 1; 5; 5; 9]
  = mkMat 1 0 5 0 1 5 0 0 1 /\
  parse_transform (math := quarter_math) "matrix(1,0,0,1,5,5,9)"
  = Ok (mkMat 1 0 5 0 1 5 0 0 1) /\
  ~ mat_eq (mkMat 1 0 5 0 1 5 0 0 1) mat_identity.
Proof.
  split; [vm_compute; reflexivity|].
  split; [cbn; lia|].
  split; [reflexivity|].
  split; [vm_compute; reflexivity|].
  intros (_ & _ & H & _). discriminate H.
Qed.

(** ** The bounds loops *)

Lemma min_ext_fin (e : ext) (x : Q) :
  e = PosInf \/ (exists q, e = Fin q) -> exists q, min_ext e x = Fin q.
Proof.
  intros [-> | [q ->]]; unfold min_ext, lt_ext; [eauto|].
  destruct (Qltb x q); eauto.
Qed.

Lemma max_ext_fin (e : ext) (x : Q) :
  e = NegInf \/ (exists q, e = Fin q) -> exists q, max_ext e x = Fin q.
Proof.
  intros [-> | [q ->]]; unfold max_ext, gt_ext; [eauto|].
  destruct (Qltb q x); eauto.
Qed.

Lemma point_step_inv (acc : ext * ext * ext * ext) (p : Point2) :
  bounds_inv acc -> exists a b c d, point_step acc p = (Fin a, Fin b, Fin c, Fin d).
Proof.
  destruct p as [x y].
  intros [-> | (a & b & c & d & ->)]; cbn.
  - eauto.
  - destruct (Qltb x a), (Qltb c x), (Qltb y b), (Qltb d y); eauto.
Qed.

Lemma bbox_step_inv (acc : ext * ext * ext * ext) (p : Path) :
  bounds_inv acc -> bounds_inv (bbox_step acc p).
Proof.
  intros H. unfold bbox_step.
  destruct acc as [[[min_x min_y] max_x] max_y].
  destruct (bbox p) as [[[[x0 x1] y0] y1]|e]; [|exact H].
  right.
  destruct H as [H | (a & b & c & d & H)]; injection H as -> -> -> ->.
  - cbn. eauto.
  - destruct (min_ext_fin (Fin a) x0) as [a' ->]; [eauto|].
    destruct (min_ext_fin (Fin b) y0) as [b' ->]; [eauto|].
    destruct (max_ext_fin (Fin c) x1) as [c' ->]; [eauto|].
    destruct (max_ext_fin (Fin d) y1) as [d' ->]; [eauto|].
    eauto.
Qed.

Lemma fold_bbox_inv (ps : list Path) (acc : ext * ext * ext * ext) :
  bounds_inv acc -> bounds_inv (fold_left bbox_step ps acc).
Proof.
  revert acc. induction ps as [|p ps IH]; intros acc H; [exact H|].
  apply IH. apply bbox_step_inv. exact H.
Qed.

Lemma fold_point_inv (ring : Ring) (acc : ext * ext * ext * ext) :
  bounds_inv acc -> bounds_inv (ring_step acc ring).
Proof.
  unfold ring_step. revert acc. induction ring as [|p ring IH]; intros acc H; [exact H|].
  apply IH. right. apply point_step_inv. exact H.
Qed.

Lemma fold_ring_inv (mpoly : Polygon) (acc : ext * ext * ext * ext) :
  bounds_inv acc -> bounds_inv (mpoly_step acc mpoly).
Proof.
  unfold mpoly_step. revert acc. induction mpoly as [|r mpoly IH]; intros acc H; [exact H|].
  apply IH. apply fold_point_inv. exact H.
Qed.

Lemma fold_mpoly_inv (polys : list Polygon) (acc : ext * ext * ext * ext) :
  bounds_inv acc -> bounds_inv (fold_left mpoly_step polys acc).
Proof.
  revert acc. induction polys as [|p polys IH]; intros acc H; [exact H|].
  apply IH. apply fold_ring_inv. exact H.
Qed.

(** [compute_bounds] returns the default Extent, or the four finite
    accumulators: [fin] is never applied to a sentinel. *)
Lemma compute_bounds_cases (polys : list Polygon) :
  (fold_left mpoly_step polys (PosInf, PosInf, NegInf, NegInf)
   = (PosInf, PosInf, NegInf, NegInf) /\
   compute_bounds polys = [0; 0; 1000; 1000]) \/
  exists a b c d,
    fold_left mpoly_step polys (PosInf, PosInf, NegInf, NegInf)
    = (Fin a, Fin b, Fin c, Fin d) /\
    compute_bounds polys = [a; b; c; d].
Proof.
  unfold compute_bounds.
  destruct (fold_mpoly_inv polys (PosInf, PosInf, NegInf, NegInf)) as [H | (a & b & c & d & H)];
    [left; reflexivity | | ]; rewrite H.
  - left. split; reflexivity.
  - right. exists a, b, c, d. split; reflexivity.
Qed.

Lemma compute_bounds_length (polys : list Polygon) : List.length (compute_bounds polys) = 4%nat.
Proof.
  destruct (compute_bounds_cases polys) as [[_ ->] | (a & b & c & d & _ & ->)]; reflexivity.
Qed.

(** Likewise for the bounds of the paths in [read_svg]. *)
Lemma paths_bounds_cases (ps : list Path) :
  (fold_left bbox_step ps (PosInf, PosInf, NegInf, NegInf)
   = (PosInf, PosInf, NegInf, NegInf) /\
   paths_bounds ps = [0; 0; 1000; 1000]) \/
  exists a b c d,
    fold_left bbox_step ps (PosInf, PosInf, NegInf, NegInf)
    = (Fin a, Fin b, Fin c, Fin d) /\
    paths_bounds ps = [a; b; c; d].
Proof.
  unfold paths_bounds.
  destruct (fold_bbox_inv ps (PosInf, PosInf, NegInf, NegInf)) as [H | (a & b & c & d & H)];
    [left; reflexivity | | ]; rewrite H.
  - left. split; reflexivity.
  - right. exists a, b, c, d. split; reflexivity.
Qed.

(** ** [parse_transform] returns *)

Section Totality.

Context {math : MathLib}.

(** On finite numbers, where [math.cos] and [math.sin] return, the loop
    of [parse_transform] runs to its end. *)
Lemma parse_transform_total (s : string) : exists m, parse_transform s = Ok m.
Proof.
  unfold parse_transform. destruct (is_empty s); [eexists; reflexivity|].
  destruct (transform_loop_ops (findall_calls (strip s)) mat_identity) as (ops & _ & ->).
  eexists; reflexivity.
Qed.

End Totality.

(** ** The Extent of [main] *)

(** The Extent of [main] always has its four numbers, so that the reads
    [vb[0]] to [vb[3]] are in range. *)
Lemma main_extent_length (polys : list Polygon) (svg_size : Q * Q) :
  List.length (main_extent polys svg_size) = 4%nat.
Proof.
  unfold main_extent. destruct svg_size as [width height].
  destruct (Qltb 0 width && Qltb 0 height); [reflexivity | apply compute_bounds_length].
Qed.

(** ** Drawing *)

Section DrawingProperties.

Variable towards : Point2 -> Q -> Q -> Q.

Lemma head_to_position (t : Turtle) (x y : Q) (draw : bool) :
  position (head_to towards t x y draw) = (x, y).
Proof. reflexivity. Qed.

Lemma head_to_isdown (t : Turtle) (x y : Q) (draw : bool) :
  isdown (head_to towards t x y draw) = isdown t.
Proof. reflexivity. Qed.

Lemma head_to_stamps (t : Turtle) (x y : Q) (draw : bool) :
  stamps (head_to towards t x y draw) = 1%nat.
Proof. reflexivity. Qed.

Lemma head_to_lines (t : Turtle) (x y : Q) (draw : bool) :
  lines (head_to towards t x y draw) =
  if draw then (lines t ++ [(position t, (x, y))])%list else lines t.
Proof. destruct draw; reflexivity. Qed.

Lemma filter_snoc_fill (cs : list PenCall) (c : PenCall) :
  List.filter is_fill_call (cs ++ [c])%list =
  (List.filter is_fill_call cs ++ (if is_fill_call c then [c] else []))%list.
Proof.
  rewrite List.filter_app. cbn [List.filter].
  destruct (is_fill_call c); reflexivity.
Qed.

Lemma head_to_fill_calls (t : Turtle) (x y : Q) (draw : bool) :
  fill_calls (head_to towards t x y draw) = fill_calls t.
Proof.
  unfold fill_calls, head_to, t_pen, t_stamp, t_goto, t_clearstamps, t_seth, log.
  cbn [calls]. rewrite !filter_snoc_fill. cbn [is_fill_call].
  rewrite !app_nil_r. reflexivity.
Qed.

Lemma fill_calls_same (t t' : Turtle) (c : PenCall) :
  calls t' = log c t -> is_fill_call c = false -> fill_calls t' = fill_calls t.
Proof.
  intros Hc Hn. unfold fill_calls, log in *.
  rewrite Hc, filter_snoc_fill, Hn. apply app_nil_r.
Qed.

Lemma fill_calls_more (t t' : Turtle) (c : PenCall) :
  calls t' = log c t -> is_fill_call c = true ->
  fill_calls t' = (fill_calls t ++ [c])%list.
Proof.
  intros Hc Hn. unfold fill_calls, log in *.
  rewrite Hc, filter_snoc_fill, Hn. reflexivity.
Qed.

Lemma edges_cons (p q : Point2) (l : list Point2) :
  edges (p :: q :: l) = (p, q) :: edges (q :: l).
Proof. reflexivity. Qed.

Lemma last_cons {A : Type} (a d : A) (l : list A) :
  List.last (a :: l) d = List.last l a.
Proof.
  revert a d. induction l as [|b l IH]; intros a d; [reflexivity|].
  change (List.last (a :: b :: l) d) with (List.last (b :: l) d).
  rewrite (IH b d), (IH b a). reflexivity.
Qed.

(** The pen-down moves along a list of points draw the segments that
    join the position of the turtle to the first point and each point to
    the next. *)
Lemma trace_points (rest : list Point2) (t : Turtle) :
  let t' := fold_left (fun t p => head_to towards t (fst p) (- snd p) true) rest t in
  lines t' = (lines t ++ edges (position t :: map flip_y rest))%list /\
  position t' = List.last (map flip_y rest) (position t) /\
  isdown t' = isdown t /\
  stamps t' = match rest with [] => stamps t | _ :: _ => 1%nat end /\
  fill_calls t' = fill_calls t.
Proof.
  revert t. induction rest as [|p rest IH]; intros t.
  - cbn. rewrite app_nil_r. auto.
  - cbn [fold_left]. cbv zeta.
    destruct (IH (head_to towards t (fst p) (- snd p) true)) as (Hl & Hp & Hd & Hs & Hf).
    rewrite Hl, Hp, Hd, Hf, Hs.
    rewrite head_to_lines, head_to_position, head_to_isdown, head_to_fill_calls,
      head_to_stamps.
    split.
    { cbn [map]. rewrite edges_cons. unfold flip_y at 3.
      rewrite <- app_assoc. reflexivity. }
    split.
    { cbn [map]. rewrite last_cons. reflexivity. }
    split; [reflexivity|].
    split; [|reflexivity].
    destruct rest; reflexivity.
Qed.

(** What [draw_polygon] does on a ring with a first point. *)
Lemma draw_polygon_ok (t : Turtle) (p : Point2) (rest : list Point2) (fill stroke : string) :
  exists t',
    draw_polygon towards t (p :: rest) fill stroke = Ok t' /\
    lines t' = (lines t ++ edges (map flip_y (p :: rest)))%list /\
    position t' = List.last (map flip_y rest) (flip_y p) /\
    isdown t' = false /\
    stamps t' = 1%nat /\
    fill_calls t' = fill_calls t.
Proof.
  unfold draw_polygon. cbv zeta.
  set (t0 := t_color stroke (if String.eqb fill "none" then "black" else fill) t).
  set (t1 := head_to towards t0 (fst p) (- snd p) false).
  destruct (trace_points rest t1) as (Hl & Hp & _ & Hs & Hf).
  eexists. split; [reflexivity|].
  cbn [t_up lines position isdown stamps].
  split; [rewrite Hl; reflexivity|].
  split; [rewrite Hp; reflexivity|].
  split; [reflexivity|].
  split; [rewrite Hs; destruct rest; reflexivity|].
  rewrite (fill_calls_same _ (t_up _) CallUp eq_refl eq_refl), Hf.
  unfold t1. rewrite head_to_fill_calls.
  apply (fill_calls_same t t0 (CallColor _ _) eq_refl eq_refl).
Qed.

Lemma polygon_edges_cons (ring : Ring) (rings : list Ring) :
  polygon_edges (ring :: rings) = (edges (map flip_y ring) ++ polygon_edges rings)%list.
Proof. reflexivity. Qed.

(** The loop over the rings draws the edges of each ring and nothing
    between two rings. *)
Lemma draw_rings_ok (p : Point2) (fill stroke : string) (rings : list Ring) :
  Forall (fun ring => ring <> []) rings ->
  forall (i : nat) (t : Turtle),
  exists t',
    draw_rings towards p fill stroke i rings t = Ok t' /\
    lines t' = (lines t ++ polygon_edges rings)%list /\
    isdown t' = match rings with [] => isdown t | _ :: _ => false end /\
    stamps t' = match rings with [] => stamps t | _ :: _ => 1%nat end /\
    fill_calls t' = fill_calls t.
Proof.
  induction 1 as [|ring rings Hne _ IH]; intros i t.
  - exists t. cbn. rewrite app_nil_r. auto.
  - destruct ring as [|q ring]; [contradiction|].
    destruct (draw_polygon_ok t q ring fill stroke) as (t1 & H1 & Hl1 & _ & Hd1 & Hs1 & Hf1).
    cbn [draw_rings]. rewrite H1. cbn [bind].
    set (t2 := if (i =? 0)%nat then t1 else head_to towards t1 (fst p) (- snd p) false).
    assert (H2 : lines t2 = lines t1 /\ isdown t2 = false /\ stamps t2 = 1%nat /\
                 fill_calls t2 = fill_calls t1).
    { unfold t2. destruct (i =? 0)%nat; [auto|].
      rewrite head_to_lines, head_to_isdown, head_to_stamps, head_to_fill_calls. auto. }
    destruct H2 as (Hl2 & Hd2 & Hs2 & Hf2).
    destruct (IH (S i) t2) as (t' & H' & Hl' & Hd' & Hs' & Hf').
    exists t'. split; [exact H'|].
    split.
    { rewrite Hl', Hl2, Hl1, polygon_edges_cons, <- app_assoc. reflexivity. }
    split; [rewrite Hd'; destruct rings; [exact Hd2 | reflexivity]|].
    split; [rewrite Hs'; destruct rings; [exact Hs2 | reflexivity]|].
    rewrite Hf', Hf2, Hf1. reflexivity.
Qed.

Lemma draw_rings_raises (p : Point2) (fill stroke : string) (rings : list Ring) :
  In [] rings ->
  forall (i : nat) (t : Turtle),
    draw_rings towards p fill stroke i rings t = Raise IndexError.
Proof.
  induction rings as [|ring rings IH]; intros Hin i t; [destruct Hin|].
  destruct ring as [|q ring]; [reflexivity|].
  destruct Hin as [Hin | Hin]; [discriminate|].
  destruct (draw_polygon_ok t q ring fill stroke) as (t1 & H1 & _).
  cbn [draw_rings]. rewrite H1. cbn [bind]. apply IH. exact Hin.
Qed.

(** What [draw_multipolygon] does on a polygon whose rings all have a
    point. *)
Lemma draw_multipolygon_ok (t : Turtle) (mpoly : Polygon) (fill stroke : string) :
  mpoly <> [] -> Forall (fun ring => ring <> []) mpoly ->
  exists t',
    draw_multipolygon towards t mpoly fill stroke = Ok t' /\
    lines t' = (lines t ++ polygon_edges mpoly)%list /\
    isdown t' = false /\
    stamps t' = 1%nat /\
    fill_calls t' =
      (fill_calls t ++ if String.eqb fill "none" then [] else [CallBeginFill; CallEndFill])%list.
Proof.
  intros Hne Hall.
  destruct mpoly as [|ring rings]; [contradiction|].
  pose proof (Forall_inv Hall) as Hr.
  destruct ring as [|p ring]; [contradiction|].
  unfold draw_multipolygon. cbv zeta.
  set (t0 := head_to towards t (fst p) (- snd p) false).
  set (t1 := if String.eqb fill "none" then t0 else t_begin_fill t0).
  destruct (draw_rings_ok p fill stroke ((p :: ring) :: rings) Hall 0%nat t1)
    as (t2 & H2 & Hl & Hd & Hs & Hf).
  exists (if String.eqb fill "none" then t2 else t_end_fill t2).
  split; [unfold Ring in *; rewrite H2; reflexivity|].
  assert (H1 : lines t1 = lines t /\
               fill_calls t1 = (fill_calls t ++ if String.eqb fill "none" then []
                                                else [CallBeginFill])%list).
  { unfold t1. destruct (String.eqb fill "none").
    - unfold t0. rewrite head_to_lines, head_to_fill_calls, app_nil_r. auto.
    - split; [reflexivity|].
      rewrite (fill_calls_more t0 (t_begin_fill t0) CallBeginFill eq_refl eq_refl).
      unfold t0. rewrite head_to_fill_calls. reflexivity. }
  destruct H1 as (Hl1 & Hf1).
  destruct (String.eqb fill "none").
  - rewrite Hl, Hl1, Hf, Hf1. auto.
  - cbn [t_end_fill lines isdown stamps]. rewrite Hl, Hl1.
    split; [reflexivity|]. split; [exact Hd|]. split; [exact Hs|].
    rewrite (fill_calls_more t2 (t_end_fill t2) CallEndFill eq_refl eq_refl).
    rewrite Hf, Hf1, <- app_assoc. reflexivity.
Qed.

Lemma draw_multipolygon_raises (t : Turtle) (mpoly : Polygon) (fill stroke : string) :
  mpoly = [] \/ In [] mpoly ->
  draw_multipolygon towards t mpoly fill stroke = Raise IndexError.
Proof.
  intros [-> | Hin]; [reflexivity|].
  destruct mpoly as [|ring rings]; [destruct Hin|].
  destruct ring as [|p ring]; [reflexivity|].
  unfold draw_multipolygon.
  rewrite (draw_rings_raises p fill stroke ((p :: ring) :: rings) Hin). reflexivity.
Qed.

(** The state of the turtle is that of the replay of its calls. *)
Lemma replay_app (t : Turtle) (a b : list PenCall) :
  replay t (a ++ b) = replay (replay t a) b.
Proof. apply fold_left_app. Qed.

Lemma calls_apply_call (t : Turtle) (c : PenCall) :
  calls (apply_call t c) = (calls t ++ [c])%list.
Proof. destruct c; reflexivity. Qed.

Lemma calls_replay (t : Turtle) (cs : list PenCall) :
  calls (replay t cs) = (calls t ++ cs)%list.
Proof.
  revert t. induction cs as [|c cs IH]; intros t; cbn [replay fold_left].
  - rewrite app_nil_r. reflexivity.
  - fold (replay (apply_call t c) cs). rewrite IH, calls_apply_call, <- app_assoc.
    reflexivity.
Qed.

Lemma head_to_replay (t : Turtle) (x y : Q) (draw : bool) :
  head_to towards t x y draw =
  replay t [CallPen draw; CallSeth (towards (position t) x y); CallClearStamps;
            CallGoto x y; CallStamp; CallPen (isdown t)].
Proof. reflexivity. Qed.

Lemma trace_points_replay (rest : list Point2) (t : Turtle) :
  exists cs,
    fold_left (fun t p => head_to towards t (fst p) (- snd p) true) rest t = replay t cs.
Proof.
  revert t. induction rest as [|p rest IH]; intros t.
  - exists []. reflexivity.
  - cbn [fold_left]. destruct (IH (head_to towards t (fst p) (- snd p) true)) as [cs ->].
    rewrite head_to_replay, <- replay_app. eexists. reflexivity.
Qed.

Lemma draw_polygon_replay (t t' : Turtle) (poly : Ring) (fill stroke : string) :
  draw_polygon towards t poly fill stroke = Ok t' -> exists cs, t' = replay t cs.
Proof.
  unfold draw_polygon. destruct poly as [|p rest]; [discriminate|]. cbv zeta.
  intros H. injection H as <-.
  set (t0 := t_color stroke (if String.eqb fill "none" then "black" else fill) t).
  destruct (trace_points_replay rest (head_to towards t0 (fst p) (- snd p) false))
    as [cs ->].
  rewrite head_to_replay.
  change (t_up ?u) with (replay u [CallUp]).
  change t0 with (replay t [CallColor stroke (if String.eqb fill "none" then "black" else fill)]).
  rewrite <- !replay_app. eexists. reflexivity.
Qed.

Lemma draw_rings_replay (p : Point2) (fill stroke : string) (rings : list Ring) :
  forall (i : nat) (t t' : Turtle),
    draw_rings towards p fill stroke i rings t = Ok t' -> exists cs, t' = replay t cs.
Proof.
  induction rings as [|ring rings IH]; intros i t t'; cbn [draw_rings].
  - intros H. injection H as <-. exists []. reflexivity.
  - destruct (draw_polygon towards t ring fill stroke) as [t1|e] eqn:H1; cbn [bind];
      [|discriminate].
    destruct (draw_polygon_replay _ _ _ _ _ H1) as [c1 ->].
    intros H. apply IH in H as [c3 ->].
    destruct (i =? 0)%nat.
    + rewrite <- replay_app. eexists. reflexivity.
    + rewrite head_to_replay, <- !replay_app. eexists. reflexivity.
Qed.

(** When the fill is not [none], [begin_fill] is called before any
    segment of the polygon is drawn and [end_fill] is the last call,
    after every segment. *)
Lemma draw_multipolygon_brackets (t t' : Turtle) (mpoly : Polygon) (fill stroke : string) :
  String.eqb fill "none" = false ->
  draw_multipolygon towards t mpoly fill stroke = Ok t' ->
  exists before during,
    calls t' = (calls t ++ before ++ [CallBeginFill] ++ during ++ [CallEndFill])%list /\
    lines (replay t before) = lines t /\
    lines (replay t (before ++ [CallBeginFill] ++ during)) = lines t'.
Proof.
  intros Hfill. unfold draw_multipolygon.
  destruct mpoly as [|[|p ring] rings]; try discriminate.
  rewrite Hfill. cbv zeta.
  set (t0 := head_to towards t (fst p) (- snd p) false).
  destruct (draw_rings towards p fill stroke 0 _ (t_begin_fill t0))
    as [t2|e] eqn:H2; cbn [bind]; [|discriminate].
  intros H. injection H as <-.
  destruct (draw_rings_replay _ _ _ _ _ _ _ H2) as [during ->].
  exists [CallPen false; CallSeth (towards (position t) (fst p) (- snd p)); CallClearStamps;
          CallGoto (fst p) (- snd p); CallStamp; CallPen (isdown t)], during.
  assert (E0 : t0 = replay t [CallPen false; CallSeth (towards (position t) (fst p) (- snd p));
                              CallClearStamps; CallGoto (fst p) (- snd p); CallStamp;
                              CallPen (isdown t)]) by reflexivity.
  rewrite <- E0.
  split; [|split].
  - change (t_end_fill ?u) with (replay u [CallEndFill]).
    change (t_begin_fill t0) with (replay t0 [CallBeginFill]).
    rewrite !calls_replay, <- !app_assoc. unfold t0. rewrite head_to_replay, calls_replay.
    rewrite <- !app_assoc. reflexivity.
  - reflexivity.
  - rewrite !replay_app. fold t0. reflexivity.
Qed.

End DrawingProperties.

(** ** Bounds *)

Lemma fold_points_all (polys : list Polygon) (acc : ext * ext * ext * ext) :
  fold_left mpoly_step polys acc = fold_left point_step (all_points polys) acc.
Proof.
  unfold all_points. revert acc.
  induction polys as [|mpoly polys IH]; intros acc; [reflexivity|].
  cbn [fold_left concat]. rewrite concat_app, fold_left_app, IH. f_equal.
  unfold mpoly_step. clear IH. revert acc.
  induction mpoly as [|ring mpoly IH]; intros acc; [reflexivity|].
  cbn [fold_left concat]. rewrite fold_left_app, IH. reflexivity.
Qed.

(** From finite accumulators, the loop over points returns a box that
    holds the old box and every point, and each of whose sides is an old
    side or a coordinate of a point. *)
Lemma fold_points_box (pts : list Point2) (a b c d : Q) :
  exists a' b' c' d',
    fold_left point_step pts (Fin a, Fin b, Fin c, Fin d) = (Fin a', Fin b', Fin c', Fin d') /\
    (a' <= a /\ c <= c' /\ b' <= b /\ d <= d') /\
    Forall (in_box a' b' c' d') pts /\
    (a' = a \/ In a' (map fst pts)) /\ (c' = c \/ In c' (map fst pts)) /\
    (b' = b \/ In b' (map snd pts)) /\ (d' = d \/ In d' (map snd pts)).
Proof.
  revert a b c d. induction pts as [|[x y] pts IH]; intros a b c d.
  - exists a, b, c, d. cbn.
    repeat split; try apply Qle_refl; try constructor; auto.
  - cbn [fold_left point_step lt_ext gt_ext].
    set (a1 := if Qltb x a then x else a).
    set (c1 := if Qltb c x then x else c).
    set (b1 := if Qltb y b then y else b).
    set (d1 := if Qltb d y then y else d).
    assert (Ha : a1 <= a /\ a1 <= x /\ (a1 = a \/ a1 = x)).
    { unfold a1. case_Qltb x a; repeat split; auto using Qle_refl, Qlt_le_weak. }
    assert (Hc : c <= c1 /\ x <= c1 /\ (c1 = c \/ c1 = x)).
    { unfold c1. case_Qltb c x; repeat split; auto using Qle_refl, Qlt_le_weak. }
    assert (Hb : b1 <= b /\ b1 <= y /\ (b1 = b \/ b1 = y)).
    { unfold b1. case_Qltb y b; repeat split; auto using Qle_refl, Qlt_le_weak. }
    assert (Hd : d <= d1 /\ y <= d1 /\ (d1 = d \/ d1 = y)).
    { unfold d1. case_Qltb d y; repeat split; auto using Qle_refl, Qlt_le_weak. }
    replace (if Qltb x a then Fin x else Fin a) with (Fin a1)
      by (unfold a1; destruct (Qltb x a); reflexivity).
    replace (if Qltb c x then Fin x else Fin c) with (Fin c1)
      by (unfold c1; destruct (Qltb c x); reflexivity).
    replace (if Qltb y b then Fin y else Fin b) with (Fin b1)
      by (unfold b1; destruct (Qltb y b); reflexivity).
    replace (if Qltb d y then Fin y else Fin d) with (Fin d1)
      by (unfold d1; destruct (Qltb d y); reflexivity).
    destruct (IH a1 b1 c1 d1)
      as (a' & b' & c' & d' & Hf & (La & Lc & Lb & Ld) & Hall & Ia & Ic & Ib & Id).
    destruct Ha as (Ha1 & Ha2 & Ha3), Hc as (Hc1 & Hc2 & Hc3),
             Hb as (Hb1 & Hb2 & Hb3), Hd as (Hd1 & Hd2 & Hd3).
    exists a', b', c', d'. split; [exact Hf|].
    split.
    { repeat split; eapply Qle_trans; eassumption. }
    split.
    { constructor; [|exact Hall].
      unfold in_box. cbn [fst snd].
      repeat split; eapply Qle_trans; eassumption. }
    cbn [map fst snd In].
    repeat split.
    + destruct Ia as [-> | Ia]; [destruct Ha3 as [-> | ->]|]; auto.
    + destruct Ic as [-> | Ic]; [destruct Hc3 as [-> | ->]|]; auto.
    + destruct Ib as [-> | Ib]; [destruct Hb3 as [-> | ->]|]; auto.
    + destruct Id as [-> | Id]; [destruct Hd3 as [-> | ->]|]; auto.
Qed.

(** From the sentinels, a first point sets the four accumulators. *)
Lemma fold_points_start (p : Point2) (pts : list Point2) :
  exists a b c d,
    fold_left point_step (p :: pts) (PosInf, PosInf, NegInf, NegInf)
    = (Fin a, Fin b, Fin c, Fin d) /\
    Forall (in_box a b c d) (p :: pts) /\
    In a (map fst (p :: pts)) /\ In c (map fst (p :: pts)) /\
    In b (map snd (p :: pts)) /\ In d (map snd (p :: pts)).
Proof.
  destruct p as [x y]. cbn [fold_left point_step lt_ext gt_ext].
  destruct (fold_points_box pts x y x y)
    as (a & b & c & d & Hf & (La & Lc & Lb & Ld) & Hall & Ia & Ic & Ib & Id).
  exists a, b, c, d. split; [exact Hf|].
  split.
  { constructor; [|exact Hall]. unfold in_box. cbn [fst snd]. auto. }
  cbn [map fst snd In].
  repeat split.
  - destruct Ia as [-> | Ia]; auto.
  - destruct Ic as [-> | Ic]; auto.
  - destruct Ib as [-> | Ib]; auto.
  - destruct Id as [-> | Id]; auto.
Qed.

(** X1.  [compute_bounds] returns the default Extent when the polygons
    hold no point at all, and otherwise the smallest rectangle that
    holds every point: every point lies in it and each of its sides is
    a coordinate of some point. *)
Theorem compute_bounds_is_the_bounding_box (polys : list Polygon) :
  (all_points polys = [] /\ compute_bounds polys = [0; 0; 1000; 1000]) \/
  (exists a b c d,
     compute_bounds polys = [a; b; c; d] /\
     Forall (in_box a b c d) (all_points polys) /\
     In a (map fst (all_points polys)) /\ In c (map fst (all_points polys)) /\
     In b (map snd (all_points polys)) /\ In d (map snd (all_points polys))).
Proof.
  unfold compute_bounds. rewrite fold_points_all.
  destruct (all_points polys) as [|p pts].
  - left. split; reflexivity.
  - right.
    destruct (fold_points_start p pts) as (a & b & c & d & Hf & H).
    exists a, b, c, d. rewrite Hf. split; [reflexivity | exact H].
Qed.

(** The update of the running bounds by one bounding box. *)
Lemma bbox_step_valid (acc : ext * ext * ext * ext) (p : Path) (bx : Q * Q * Q * Q) :
  bbox p = Ok bx ->
  bbox_step acc p =
  (min_ext (fst (fst (fst acc))) (box_xmin bx), min_ext (snd (fst (fst acc))) (box_ymin bx),
   max_ext (snd (fst acc)) (box_xmax bx), max_ext (snd acc) (box_ymax bx)).
Proof.
  intros H. unfold bbox_step. destruct acc as [[[min_x min_y] max_x] max_y].
  rewrite H. destruct bx as [[[x0 x1] y0] y1]. reflexivity.
Qed.

Lemma bbox_step_invalid (acc : ext * ext * ext * ext) (p : Path) (e : exn) :
  bbox p = Raise e -> bbox_step acc p = acc.
Proof.
  intros H. unfold bbox_step. destruct acc as [[[min_x min_y] max_x] max_y].
  rewrite H. reflexivity.
Qed.

Lemma min_max_fin (a c x0 x1 : Q) :
  exists a' c',
    min_ext (Fin a) x0 = Fin a' /\ max_ext (Fin c) x1 = Fin c' /\
    a' <= a /\ a' <= x0 /\ (a' = a \/ a' = x0) /\
    c <= c' /\ x1 <= c' /\ (c' = c \/ c' = x1).
Proof.
  unfold min_ext, max_ext, lt_ext, gt_ext.
  case_Qltb x0 a; case_Qltb c x1; do 2 eexists;
    repeat split; auto using Qle_refl, Qlt_le_weak.
Qed.

Lemma fold_bboxes_box (ps : list Path) (a b c d : Q) :
  exists a' b' c' d',
    fold_left bbox_step ps (Fin a, Fin b, Fin c, Fin d) = (Fin a', Fin b', Fin c', Fin d') /\
    (a' <= a /\ c <= c' /\ b' <= b /\ d <= d') /\
    Forall (box_in a' b' c' d') (valid_bboxes ps) /\
    (a' = a \/ In a' (map box_xmin (valid_bboxes ps))) /\
    (c' = c \/ In c' (map box_xmax (valid_bboxes ps))) /\
    (b' = b \/ In b' (map box_ymin (valid_bboxes ps))) /\
    (d' = d \/ In d' (map box_ymax (valid_bboxes ps))).
Proof.
  revert a b c d. induction ps as [|p ps IH]; intros a b c d.
  - exists a, b, c, d. cbn.
    repeat split; try apply Qle_refl; try constructor; auto.
  - cbn [fold_left]. unfold valid_bboxes. cbn [omap list_omap].
    fold (valid_bboxes ps).
    destruct (bbox p) as [bx|e] eqn:Hb.
    + rewrite (bbox_step_valid _ p bx Hb). cbn [fst snd].
      destruct (min_max_fin a c (box_xmin bx) (box_xmax bx))
        as (a1 & c1 & -> & -> & Ha1 & Ha2 & Ha3 & Hc1 & Hc2 & Hc3).
      destruct (min_max_fin b d (box_ymin bx) (box_ymax bx))
        as (b1 & d1 & -> & -> & Hb1 & Hb2 & Hb3 & Hd1 & Hd2 & Hd3).
      destruct (IH a1 b1 c1 d1)
        as (a' & b' & c' & d' & Hf & (La & Lc & Lb & Ld) & Hall & Ia & Ic & Ib & Id).
      exists a', b', c', d'. split; [exact Hf|].
      split.
      { repeat split; eapply Qle_trans; eassumption. }
      split.
      { constructor; [|exact Hall].
        unfold box_in. repeat split; eapply Qle_trans; eassumption. }
      cbn [map In].
      repeat split.
      * destruct Ia as [-> | Ia]; [destruct Ha3 as [-> | ->]|]; auto.
      * destruct Ic as [-> | Ic]; [destruct Hc3 as [-> | ->]|]; auto.
      * destruct Ib as [-> | Ib]; [destruct Hb3 as [-> | ->]|]; auto.
      * destruct Id as [-> | Id]; [destruct Hd3 as [-> | ->]|]; auto.
    + rewrite (bbox_step_invalid _ p e Hb). apply IH.
Qed.

Lemma fold_bboxes_start (ps : list Path) :
  (valid_bboxes ps = [] /\
   fold_left bbox_step ps (PosInf, PosInf, NegInf, NegInf) = (PosInf, PosInf, NegInf, NegInf)) \/
  (exists a b c d,
     fold_left bbox_step ps (PosInf, PosInf, NegInf, NegInf) = (Fin a, Fin b, Fin c, Fin d) /\
     Forall (box_in a b c d) (valid_bboxes ps) /\
     In a (map box_xmin (valid_bboxes ps)) /\ In c (map box_xmax (valid_bboxes ps)) /\
     In b (map box_ymin (valid_bboxes ps)) /\ In d (map box_ymax (valid_bboxes ps))).
Proof.
  induction ps as [|p ps IH]; [left; split; reflexivity|].
  cbn [fold_left]. unfold valid_bboxes. cbn [omap list_omap]. fold (valid_bboxes ps).
  destruct (bbox p) as [bx|e] eqn:Hb.
  - right. rewrite (bbox_step_valid _ p bx Hb). cbn [fst snd min_ext max_ext lt_ext gt_ext].
    destruct (fold_bboxes_box ps (box_xmin bx) (box_ymin bx) (box_xmax bx) (box_ymax bx))
      as (a & b & c & d & Hf & (La & Lc & Lb & Ld) & Hall & Ia & Ic & Ib & Id).
    exists a, b, c, d. split; [exact Hf|].
    split.
    { constructor; [|exact Hall]. unfold box_in. auto. }
    cbn [map In].
    repeat split.
    + destruct Ia as [-> | Ia]; auto.
    + destruct Ic as [-> | Ic]; auto.
    + destruct Ib as [-> | Ib]; auto.
    + destruct Id as [-> | Id]; auto.
  - rewrite (bbox_step_invalid _ p e Hb). exact IH.
Qed.

(** X2.  The fallback Extent of [read_svg] is the union of the bounding
    boxes of the paths whose [bbox()] returns, the paths whose [bbox()]
    raises being passed over; it is the default Extent when no path has
    a bounding box. *)
Theorem paths_bounds_is_the_union (ps : list Path) :
  (valid_bboxes ps = [] /\ paths_bounds ps = [0; 0; 1000; 1000]) \/
  (exists a b c d,
     paths_bounds ps = [a; b; c; d] /\
     Forall (box_in a b c d) (valid_bboxes ps) /\
     In a (map box_xmin (valid_bboxes ps)) /\ In c (map box_xmax (valid_bboxes ps)) /\
     In b (map box_ymin (valid_bboxes ps)) /\ In d (map box_ymax (valid_bboxes ps))).
Proof.
  unfold paths_bounds.
  destruct (fold_bboxes_start ps) as [[Hv ->] | (a & b & c & d & -> & H)].
  - left. split; [exact Hv | reflexivity].
  - right. exists a, b, c, d. split; [reflexivity | exact H].
Qed.

(** ** The structure of what [read_svg] returns *)

Lemma Forall2_length_eq {A B : Type} (R : A -> B -> Prop) (l : list A) (l' : list B) :
  Forall2 R l l' -> List.length l = List.length l'.
Proof. induction 1; cbn; congruence. Qed.

Lemma map_result_length {A B : Type} (f : A -> result B) (l : list A) (ys : list B) :
  map_result f l = Ok ys -> List.length ys = List.length l.
Proof.
  intros H. symmetry. apply (Forall2_length_eq _ _ _ (map_result_Forall2 f l ys H)).
Qed.

(** A failing element whose exception is the only one that can occur
    makes the whole comprehension raise it. *)
Lemma map_result_raises {A B : Type} (f : A -> result B) (l : list A) (e : exn) :
  (forall x e', f x = Raise e' -> e' = e) ->
  (exists x, In x l /\ f x = Raise e) ->
  map_result f l = Raise e.
Proof.
  intros Honly (x & Hin & Hx).
  induction l as [|a l IH]; [destruct Hin|].
  cbn [map_result]. destruct (f a) as [y|e'] eqn:Ha.
  - cbn [bind]. destruct Hin as [-> | Hin]; [congruence|].
    rewrite (IH Hin). reflexivity.
  - rewrite (Honly a e' Ha). reflexivity.
Qed.

Lemma map_result_only {A B : Type} (f : A -> result B) (l : list A) (e e' : exn) :
  (forall x e', f x = Raise e' -> e' = e) ->
  map_result f l = Raise e' -> e' = e.
Proof.
  intros Honly. induction l as [|a l IH]; cbn [map_result]; [discriminate|].
  destruct (f a) as [y|e1] eqn:Ha; cbn [bind].
  - destruct (map_result f l) as [ys|e2]; cbn [bind]; [discriminate|].
    intros H. injection H as <-. apply IH. reflexivity.
  - intros H. injection H as <-. apply (Honly a e1 Ha).
Qed.

(** [float] raises nothing but [ValueError]. *)
Lemma float_exponent_only (s : string) (e : exn) :
  float_exponent s = Raise e -> e = ValueError.
Proof.
  unfold float_exponent. destruct s as [|c s]; [discriminate|].
  destruct (is_e c); [|congruence].
  destruct (opt_sign s) as [neg s2]. destruct (digitpart s2) as [ed s3].
  destruct (is_empty ed || negb (is_empty s3)); congruence.
Qed.

Lemma py_float_only (s : string) (e : exn) :
  py_float s = Raise e -> e = ValueError.
Proof.
  unfold py_float.
  destruct (opt_sign _) as [neg s1]. destruct (digitpart s1) as [ip s2].
  destruct s2 as [|c s3].
  - destruct (is_empty ip); congruence.
  - destruct (is_char dot c).
    + destruct (digitpart s3) as [fp s4].
      destruct (is_empty ip && is_empty fp); [congruence|].
      destruct (float_exponent s4) as [z|e'] eqn:He; cbn [bind]; [discriminate|].
      intros H. injection H as <-. apply (float_exponent_only _ _ He).
    + destruct (is_empty ip); [congruence|].
      destruct (float_exponent (String c s3)) as [z|e'] eqn:He; cbn [bind]; [discriminate|].
      intros H. injection H as <-. apply (float_exponent_only _ _ He).
Qed.

Lemma resolve_viewbox_only (doc : Document) (e : exn) :
  resolve_viewbox doc = Raise e -> e = ValueError.
Proof.
  unfold resolve_viewbox.
  destruct (truthy (vb_attr doc)).
  - destruct (List.length _ =? 4)%nat; [|discriminate].
    apply map_result_only. apply py_float_only.
  - destruct (Qltb 0 (svg_width doc) && Qltb 0 (svg_height doc)); discriminate.
Qed.

(** The pieces of a ring. *)
Lemma make_ring_inv (m : Mat) (seg_unit : Q) (subpath : list Segment) (ring : Ring) :
  make_ring m seg_unit subpath = Ok ring ->
  exists arrays p0 pts,
    map_result (sample_segment seg_unit) subpath = Ok arrays /\
    subpath <> [] /\
    concat arrays = p0 :: pts /\
    ring = map (fun p => mat_apply m (fst p) (snd p)) ((p0 :: pts) ++ [p0])%list.
Proof.
  unfold make_ring. intros H.
  destruct (map_result (sample_segment seg_unit) subpath) as [arrays|e] eqn:Ha;
    cbn [bind] in H; [|discriminate].
  destruct arrays as [|a arrays]; cbn [np_concatenate bind] in H; [discriminate|].
  destruct (concat (a :: arrays)) as [|p0 pts] eqn:Hc; cbn [append_first bind] in H;
    [discriminate|].
  injection H as <-.
  exists (a :: arrays), p0, pts. split; [reflexivity|].
  split; [|split; [exact Hc | reflexivity]].
  intros ->. discriminate Ha.
Qed.

Lemma concat_length {A : Type} (ls : list (list A)) :
  List.length (concat ls) = list_sum (map (@List.length A) ls).
Proof.
  induction ls as [|l ls IH]; [reflexivity|].
  cbn [concat map list_sum fold_right]. rewrite length_app, IH. reflexivity.
Qed.

Lemma sampled_lengths (seg_unit : Q) (subpath : list Segment) (arrays : list (list Point2)) :
  map_result (sample_segment seg_unit) subpath = Ok arrays ->
  map (@List.length Point2) arrays = map (samples seg_unit) subpath /\
  Forall (fun seg => (2 <= samples seg_unit seg)%nat) subpath.
Proof.
  intros H. apply map_result_Forall2 in H.
  induction H as [|seg pts subpath arrays Hs _ [IH IH2]]; [split; [reflexivity | constructor]|].
  apply sample_segment_inv in Hs as (q & Hq & ->).
  assert (Hl : List.length (map (seg_point seg) (linspace (Z.max 2 (Qceiling q))))
               = samples seg_unit seg).
  { rewrite length_map, linspace_length. unfold samples. rewrite Hq. reflexivity. }
  split.
  - cbn [map]. rewrite IH, Hl. reflexivity.
  - constructor; [|exact IH2]. rewrite <- Hl, length_map, linspace_length. lia.
Qed.

Lemma ring_length (m : Mat) (seg_unit : Q) (subpath : list Segment) (ring : Ring) :
  make_ring m seg_unit subpath = Ok ring ->
  List.length ring = S (list_sum (map (samples seg_unit) subpath)) /\
  (3 <= List.length ring)%nat.
Proof.
  intros H.
  destruct (make_ring_inv _ _ _ _ H) as (arrays & p0 & pts & Ha & Hne & Hc & ->).
  destruct (sampled_lengths _ _ _ Ha) as [Hs H2].
  assert (Hlen : List.length (map (fun p => mat_apply m (fst p) (snd p))
                                  ((p0 :: pts) ++ [p0])%list)
                 = S (list_sum (map (samples seg_unit) subpath))).
  { rewrite length_map, length_app, <- Hc, concat_length, Hs.
    cbn [List.length]. lia. }
  split; [exact Hlen|]. rewrite Hlen.
  destruct subpath as [|seg subpath]; [contradiction|].
  cbn [map list_sum fold_right].
  inversion H2 as [|? ? Hseg _]; subst. lia.
Qed.

(** X4.  A ring holds the samples of the segments of its subpath, one
    after the other, and the closing copy of the first: its length is
    the sum of the sample counts plus one, which is at least 3.  The
    count of a segment is [max(2, ceil(q))] for the float quotient [q]
    of its length by [seg_unit]. *)
Theorem ring_point_count (m : Mat) (seg_unit : Q) (subpath : list Segment) (ring : Ring) :
  make_ring m seg_unit subpath = Ok ring ->
  List.length ring = S (list_sum (map (samples seg_unit) subpath)) /\
  (3 <= List.length ring)%nat.
Proof. apply ring_length. Qed.

Lemma ring_point_count_witness :
  exists ring,
    make_ring mat_identity 8 [line_segment (0, 0) (17, 0) 17] = Ok ring /\
    List.length ring = 4%nat.
Proof.
  destruct (make_ring mat_identity 8 [line_segment (0, 0) (17, 0) 17]) as [ring|e] eqn:E.
  - exists ring. split; [reflexivity|].
    destruct (ring_point_count _ _ _ _ E) as [-> _]. reflexivity.
  - vm_compute in E. discriminate E.
Defined.

Lemma combine_fst_snd {A B : Type} (l : list (A * B)) :
  combine (map fst l) (map snd l) = l.
Proof.
  induction l as [|[a b] l IH]; [reflexivity|]. cbn. rewrite IH. reflexivity.
Qed.

Section Structure.

Context {math : MathLib}.

Lemma make_poly_inv (seg_unit : Q) (path : Path) (attr attr' : gmap string string)
    (poly : Polygon) :
  make_poly seg_unit (path, attr) = Ok (poly, attr') ->
  attr' = default_stroke (expand_style attr) /\
  exists m,
    parse_transform (default EmptyString (attr' !! "transform")) = Ok m /\
    map_result (make_ring m seg_unit) (continuous_subpaths path) = Ok poly.
Proof.
  unfold make_poly. intros H.
  destruct (parse_transform _) as [m|e] eqn:Hm; cbn [bind] in H; [|discriminate].
  destruct (map_result (make_ring m seg_unit) (continuous_subpaths path)) as [rings|e] eqn:Hr;
    cbn [bind] in H; [|discriminate].
  injection H as <- <-. split; [reflexivity|]. exists m. auto.
Qed.

Lemma read_svg_inv (doc : Document) (seg_unit : Q)
    (polys : list Polygon) (new_attrs : list (gmap string string))
    (svg_size : Q * Q) (viewbox : list Q) :
  read_svg doc seg_unit = Ok (polys, new_attrs, svg_size, viewbox) ->
  svg_size = (svg_width doc, svg_height doc) /\
  resolve_viewbox doc = Ok viewbox /\
  map_result (make_poly seg_unit) (combine (paths doc) (attrs doc))
  = Ok (combine polys new_attrs) /\
  List.length polys = List.length new_attrs.
Proof.
  unfold read_svg. intros H.
  destruct (resolve_viewbox doc) as [vb|e]; cbn [bind] in H; [|discriminate].
  destruct (map_result (make_poly seg_unit) (combine (paths doc) (attrs doc)))
    as [built|e]; cbn [bind] in H; [|discriminate].
  injection H as <- <- <- <-.
  rewrite combine_fst_snd, !length_map. auto.
Qed.

(** X5.  [read_svg] keeps the structure of the document.  It returns one
    polygon and one attribute dictionary for each pair of
    [zip(paths, attrs)], in order; the dictionary is the path's own with
    the inline style expanded and the stroke defaulted; the polygon has
    one ring for each continuous subpath, and every ring has at least 3
    points. *)
Theorem read_svg_keeps_structure (doc : Document) (seg_unit : Q)
    (polys : list Polygon) (new_attrs : list (gmap string string))
    (svg_size : Q * Q) (viewbox : list Q) :
  read_svg doc seg_unit = Ok (polys, new_attrs, svg_size, viewbox) ->
  List.length polys = Nat.min (List.length (paths doc)) (List.length (attrs doc)) /\
  List.length new_attrs = List.length polys /\
  svg_size = (svg_width doc, svg_height doc) /\
  Forall2 (fun pa qa =>
             snd qa = default_stroke (expand_style (snd pa)) /\
             List.length (fst qa) = List.length (continuous_subpaths (fst pa)) /\
             Forall (fun ring : Ring => (3 <= List.length ring)%nat) (fst qa))
          (combine (paths doc) (attrs doc)) (combine polys new_attrs).
Proof.
  intros H. destruct (read_svg_inv _ _ _ _ _ _ H) as (Hs & _ & Hb & Hlen).
  pose proof (map_result_length _ _ _ Hb) as Hl.
  rewrite !length_combine, <- Hlen, Nat.min_id in Hl.
  split; [exact Hl|]. split; [symmetry; exact Hlen|]. split; [exact Hs|].
  apply map_result_Forall2 in Hb.
  eapply Forall2_impl; [exact Hb|].
  intros [path attr] [poly attr'] Hmk. cbn [fst snd].
  destruct (make_poly_inv _ _ _ _ _ Hmk) as (-> & m & _ & Hr).
  split; [reflexivity|].
  split; [apply (map_result_length _ _ _ Hr)|].
  apply List.Forall_forall. intros ring Hin.
  destruct (map_result_In _ _ _ _ Hr Hin) as (subpath & _ & Hring).
  apply (ring_length m seg_unit subpath ring Hring).
Qed.

End Structure.

(** ** What makes [read_svg] raise *)

Section Raising.

Context {math : MathLib}.

Lemma parse_transform_ok (s : string) : exists m, parse_transform s = Ok m.
Proof. apply parse_transform_total. Qed.

Lemma map_result_raise_In {A B : Type} (f : A -> result B) (l : list A) (e : exn) :
  map_result f l = Raise e -> exists x, In x l /\ f x = Raise e.
Proof.
  induction l as [|a l IH]; cbn [map_result]; [discriminate|].
  destruct (f a) as [y|e1] eqn:Ha; cbn [bind].
  - destruct (map_result f l) as [ys|e2]; cbn [bind]; [discriminate|].
    intros H. injection H as <-.
    destruct (IH eq_refl) as (x & Hin & Hx). exists x. split; [right; exact Hin | exact Hx].
  - intros H. injection H as <-. exists a. split; [left; reflexivity | exact Ha].
Qed.

(** A comprehension with a failing element raises, with the exception of
    one of its elements. *)
Lemma map_result_some_raise {A B : Type} (f : A -> result B) (l : list A) (x : A) (e : exn) :
  In x l -> f x = Raise e -> exists e', map_result f l = Raise e'.
Proof.
  intros Hin Hx. induction l as [|a l IH]; [destruct Hin|].
  cbn [map_result]. destruct (f a) as [y|e1] eqn:Ha; cbn [bind]; [|eauto].
  destruct Hin as [-> | Hin]; [congruence|].
  destruct (IH Hin) as [e' ->]. cbn [bind]. eauto.
Qed.

Lemma sample_segment_only (seg_unit : Q) (seg : Segment) (e : exn) :
  0 < seg_unit -> sample_segment seg_unit seg = Raise e ->
  e = OverflowError /\ count_is_finite seg_unit seg = false.
Proof.
  intros Hu. unfold sample_segment. intros H.
  destruct (interp_num seg seg_unit) as [n|e'] eqn:En; cbn [bind] in H; [discriminate|].
  injection H as <-. split; [apply (interp_num_only seg seg_unit e' Hu En)|].
  unfold count_is_finite.
  destruct (round64 (seg_length seg / seg_unit)) as [q| | |] eqn:Hq; try reflexivity.
  rewrite (interp_num_ok seg seg_unit q) in En; [discriminate | lra | exact Hq].
Qed.

(** [make_ring] raises on a subpath without a segment, at
    [np.concatenate], and on a segment whose sample count overflows. *)
Lemma make_ring_only (m : Mat) (seg_unit : Q) (subpath : list Segment) (e : exn) :
  0 < seg_unit -> make_ring m seg_unit subpath = Raise e ->
  (subpath = [] /\ e = ValueError) \/
  (e = OverflowError /\
   exists seg, In seg subpath /\ count_is_finite seg_unit seg = false).
Proof.
  intros Hu. unfold make_ring.
  destruct (map_result (sample_segment seg_unit) subpath) as [arrays|e'] eqn:Ha;
    cbn [bind].
  - destruct subpath as [|seg subpath].
    + cbn in Ha. injection Ha as <-. cbn. intros H. injection H as <-. left. auto.
    + pose proof (map_result_Forall2 _ _ _ Ha) as HF.
      inversion HF as [|? pts ? arrays' Hseg _]; subst.
      pose proof (sample_segment_nonempty _ _ _ Hseg) as Hpts.
      destruct pts as [|p0 pts]; [contradiction|]. cbn. discriminate.
  - intros H. injection H as <-. right.
    destruct (map_result_raise_In _ _ _ Ha) as (seg & Hin & Hs).
    destruct (sample_segment_only _ _ _ Hu Hs) as [-> Hf].
    split; [reflexivity|]. exists seg. auto.
Qed.

Lemma make_poly_only (seg_unit : Q) (path : Path) (attr : gmap string string) (e : exn) :
  0 < seg_unit -> make_poly seg_unit (path, attr) = Raise e ->
  e = ValueError \/
  (e = OverflowError /\
   exists sub seg, In sub (continuous_subpaths path) /\ In seg sub /\
                   count_is_finite seg_unit seg = false).
Proof.
  intros Hu. unfold make_poly.
  destruct (parse_transform_ok
              (default EmptyString (default_stroke (expand_style attr) !! "transform")))
    as [m ->].
  cbn [bind].
  destruct (map_result (make_ring m seg_unit) (continuous_subpaths path)) as [rings|e'] eqn:Hr;
    cbn [bind]; [discriminate|].
  intros H. injection H as <-.
  destruct (map_result_raise_In _ _ _ Hr) as (sub & Hin & Hs).
  destruct (make_ring_only m seg_unit sub e' Hu Hs) as [[_ ->]|[-> (seg & Hseg & Hf)]];
    [left; reflexivity|].
  right. split; [reflexivity|]. exists sub, seg. auto.
Qed.

Lemma make_poly_empty_subpath (seg_unit : Q) (path : Path) (attr : gmap string string) :
  In [] (continuous_subpaths path) ->
  exists e, make_poly seg_unit (path, attr) = Raise e.
Proof.
  intros Hin. unfold make_poly.
  destruct (parse_transform_ok
              (default EmptyString (default_stroke (expand_style attr) !! "transform")))
    as [m ->].
  cbn [bind].
  destruct (map_result_some_raise (make_ring m seg_unit) (continuous_subpaths path)
              [] ValueError Hin eq_refl) as [e ->].
  exists e. reflexivity.
Qed.

(** X6.  With a positive chord length, a path one of whose continuous
    subpaths has no segment keeps [read_svg] from returning: it raises
    [ValueError], at [np.concatenate] if not before, unless the sample
    count of a segment overflows first and [OverflowError] is raised.
    When every sample count of the document is finite the exception is
    [ValueError]. *)
Theorem empty_subpath_raises (doc : Document) (seg_unit : Q)
    (path : Path) (attr : gmap string string) :
  0 < seg_unit ->
  In (path, attr) (combine (paths doc) (attrs doc)) ->
  In [] (continuous_subpaths path) ->
  (exists e, read_svg doc seg_unit = Raise e /\ (e = ValueError \/ e = OverflowError)) /\
  (Forall (fun p => Forall (Forall (fun seg => count_is_finite seg_unit seg = true))
                           (continuous_subpaths p)) (paths doc) ->
   read_svg doc seg_unit = Raise ValueError).
Proof.
  intros Hu Hin Hsub. unfold read_svg.
  destruct (resolve_viewbox doc) as [vb|e] eqn:Hvb; cbn [bind].
  2:{ rewrite (resolve_viewbox_only doc e Hvb). split; [eauto | reflexivity]. }
  destruct (make_poly_empty_subpath seg_unit path attr Hsub) as [e0 He0].
  destruct (map_result_some_raise (make_poly seg_unit) _ _ _ Hin He0) as [e He].
  rewrite He. cbn [bind].
  destruct (map_result_raise_In _ _ _ He) as ([path' attr'] & Hin' & Hp).
  destruct (make_poly_only seg_unit path' attr' e Hu Hp)
    as [->|[-> (sub & seg & Hs & Hseg & Hf)]].
  - split; [eauto | reflexivity].
  - split; [eauto|]. intros Hall. exfalso.
    apply in_combine_l in Hin'.
    rewrite List.Forall_forall in Hall. specialize (Hall path' Hin').
    rewrite List.Forall_forall in Hall. specialize (Hall sub Hs).
    rewrite List.Forall_forall in Hall. specialize (Hall seg Hseg).
    congruence.
Qed.

Lemma float_of_string_raises (text : string) (e : exn) :
  float_of_string text = Raise e -> py_float text = Raise ValueError.
Proof.
  unfold float_of_string.
  destruct (opt_sign _) as [neg body].
  destruct (String.eqb (lower body) "inf" || String.eqb (lower body) "infinity");
    [discriminate|].
  destruct (String.eqb (lower body) "nan"); [discriminate|].
  destruct (py_float text) as [q|e'] eqn:E; cbn [bind]; [discriminate|].
  intros _. f_equal. apply (py_float_only _ _ E).
Qed.

(** X7.  A viewBox of four tokens one of which [float] rejects makes
    [read_svg] raise [ValueError]: the malformed number is not replaced
    by a default.  The spellings of an infinity and of a nan are not
    rejected by [float]. *)
Theorem malformed_viewbox_number_raises (doc : Document) (seg_unit : Q)
    (s tok : string) (e : exn) :
  vb_attr doc = Some s -> is_empty s = false ->
  List.length (split_ws (replace_comma s)) = 4%nat ->
  In tok (split_ws (replace_comma s)) -> float_of_string tok = Raise e ->
  resolve_viewbox doc = Raise ValueError /\
  read_svg doc seg_unit = Raise ValueError.
Proof.
  intros Hs Hne Hlen Hin Htok.
  assert (Hvb : resolve_viewbox doc = Raise ValueError).
  { rewrite (resolve_viewbox_four_tokens doc s _ Hs Hne eq_refl Hlen).
    apply map_result_raises; [apply py_float_only|].
    exists tok. split; [exact Hin|].
    apply (float_of_string_raises tok e Htok). }
  split; [exact Hvb|].
  unfold read_svg. rewrite Hvb. reflexivity.
Qed.

End Raising.

Lemma empty_subpath_raises_witness :
  0 < 8 /\
  In (Build_Path (Raise ValueError) [[]], ∅)
     (combine (paths empty_path_doc) (attrs empty_path_doc)) /\
  In [] (continuous_subpaths (Build_Path (Raise ValueError) [[]])) /\
  read_svg (math := quarter_math) empty_path_doc 8 = Raise ValueError.
Proof.
  split; [reflexivity|]. split; [left; reflexivity|]. split; [left; reflexivity|].
  apply (empty_subpath_raises (math := quarter_math) empty_path_doc 8
           (Build_Path (Raise ValueError) [[]]) ∅);
    [reflexivity | left; reflexivity | left; reflexivity|].
  repeat constructor.
Defined.

Lemma malformed_viewbox_number_raises_witness :
  vb_attr bad_viewbox_doc = Some "0 0 ten 10" /\
  List.length (split_ws (replace_comma "0 0 ten 10")) = 4%nat /\
  float_of_string "ten" = Raise ValueError /\
  float_of_string "inf" = Ok PlusInf /\
  read_svg (math := quarter_math) bad_viewbox_doc 8 = Raise ValueError.
Proof.
  split; [vm_compute; reflexivity|]. split; [vm_compute; reflexivity|].
  split; [vm_compute; reflexivity|]. split; [vm_compute; reflexivity|].
  apply (malformed_viewbox_number_raises (math := quarter_math) bad_viewbox_doc 8
           "0 0 ten 10" "ten" ValueError);
    [vm_compute; reflexivity | reflexivity | vm_compute; reflexivity
    | vm_compute; auto | vm_compute; reflexivity].
Defined.

(** ** Drawing a document *)

Section DocumentDrawing.

Context {math : MathLib}.
Variable towards : Point2 -> Q -> Q -> Q.

(** X8.  [draw_polygon] raises [IndexError] on a ring without a point.
    On any other ring it draws the segments that join each point to the
    next, with the vertical axis inverted, and nothing else: the move to
    the first point is made with the pen up, whatever the state of the
    pen before.  It leaves the turtle on the last point with the pen up
    and one stamp, and it opens and closes no fill. *)
Theorem draw_polygon_traces_the_ring (t : Turtle) (poly : Ring) (fill stroke : string) :
  match poly with
  | [] => draw_polygon towards t poly fill stroke = Raise IndexError
  | p :: rest =>
      exists t',
        draw_polygon towards t poly fill stroke = Ok t' /\
        lines t' = (lines t ++ edges (map flip_y poly))%list /\
        position t' = List.last (map flip_y rest) (flip_y p) /\
        isdown t' = false /\
        stamps t' = 1%nat /\
        fill_calls t' = fill_calls t
  end.
Proof.
  destruct poly as [|p rest]; [reflexivity|]. apply draw_polygon_ok.
Qed.

(** X9.  On a polygon with at least one ring, all of whose rings have a
    point, [draw_multipolygon] draws the edges of the rings in order and
    no segment between two rings.  When the fill is not [none] the fill
    brackets the drawing: of the calls made, [begin_fill] comes before
    any segment is drawn, [end_fill] is the last one, after every
    segment, and there is no other fill call.  When the fill is [none]
    no fill is opened. *)
Theorem draw_multipolygon_draws_the_rings (t : Turtle) (mpoly : Polygon)
    (fill stroke : string) :
  mpoly <> [] -> Forall (fun ring => ring <> []) mpoly ->
  exists t',
    draw_multipolygon towards t mpoly fill stroke = Ok t' /\
    lines t' = (lines t ++ polygon_edges mpoly)%list /\
    isdown t' = false /\
    fill_calls t' =
      (fill_calls t ++ if String.eqb fill "none" then [] else [CallBeginFill; CallEndFill])%list /\
    (String.eqb fill "none" = false ->
     exists before during,
       calls t' = (calls t ++ before ++ [CallBeginFill] ++ during ++ [CallEndFill])%list /\
       lines (replay t before) = lines t /\
       lines (replay t (before ++ [CallBeginFill] ++ during)) = lines t').
Proof.
  intros Hne Hall.
  destruct (draw_multipolygon_ok towards t mpoly fill stroke Hne Hall)
    as (t' & H & Hl & Hd & _ & Hf).
  exists t'. split; [exact H|]. split; [exact Hl|]. split; [exact Hd|].
  split; [exact Hf|].
  intros Hfill. apply (draw_multipolygon_brackets towards t t' mpoly fill stroke Hfill H).
Qed.

(** X10.  [draw_multipolygon] raises [IndexError] on a polygon without a
    ring and on a polygon one of whose rings has no point. *)
Theorem draw_multipolygon_needs_points (t : Turtle) (mpoly : Polygon) (fill stroke : string) :
  mpoly = [] \/ In [] mpoly ->
  draw_multipolygon towards t mpoly fill stroke = Raise IndexError.
Proof. apply draw_multipolygon_raises. Qed.

(** X11.  The outline of a ring that [make_ring] returns is a closed loop:
    [draw_polygon] ends on the point where it began to draw. *)
Theorem ring_outline_is_a_loop (m : Mat) (seg_unit : Q) (subpath : list Segment)
    (ring : Ring) (t : Turtle) (fill stroke : string) :
  make_ring m seg_unit subpath = Ok ring ->
  exists p t',
    head ring = Some p /\
    draw_polygon towards t ring fill stroke = Ok t' /\
    position t' = flip_y p /\
    lines t' = (lines t ++ edges (map flip_y ring))%list.
Proof.
  intros H.
  destruct (make_ring_inv _ _ _ _ H) as (arrays & p0 & pts & _ & _ & _ & ->).
  set (f := fun p : Point2 => mat_apply m (fst p) (snd p)).
  cbn [app map].
  destruct (draw_polygon_ok towards t (f p0) (map f (pts ++ [p0])%list) fill stroke)
    as (t' & Hd & Hl & Hp & _).
  exists (f p0), t'. split; [reflexivity|]. split; [exact Hd|].
  split; [|exact Hl].
  rewrite Hp, !map_app. cbn [map]. apply List.last_last.
Qed.

Lemma draw_element_ok (t : Turtle) (poly : Polygon) (attr : gmap string string) :
  poly <> [] -> Forall (fun ring => ring <> []) poly ->
  exists t',
    draw_element towards t (poly, attr) = Ok t' /\
    lines t' = (lines t ++ polygon_edges poly)%list /\
    isdown t' = false.
Proof.
  intros Hne Hall. unfold draw_element.
  set (t1 := match attr !! "stroke-width" with
             | Some sw => match py_float sw with
                          | Ok w => t_outline_color w "black" (t_outline (1 # 2) t)
                          | Raise _ => t_outline (1 # 2) t
                          end
             | None => t_outline (1 # 2) t
             end).
  assert (H1 : lines t1 = lines t).
  { unfold t1. destruct (attr !! "stroke-width") as [sw|]; [|reflexivity].
    destruct (py_float sw); reflexivity. }
  destruct (draw_multipolygon_ok towards t1 poly
              (default "none" (attr !! "fill")) (default "black" (attr !! "stroke")) Hne Hall)
    as (t' & H & Hl & Hd & _).
  exists t'. split; [exact H|]. rewrite Hl, H1. auto.
Qed.

Lemma document_edges_cons (poly : Polygon) (polys : list Polygon) :
  document_edges (poly :: polys) = (polygon_edges poly ++ document_edges polys)%list.
Proof. reflexivity. Qed.

Lemma draw_elements_ok (elements : list (Polygon * gmap string string)) :
  Forall (fun pa => fst pa <> [] /\ Forall (fun ring : Ring => ring <> []) (fst pa)) elements ->
  forall t : Turtle,
  exists t',
    draw_elements towards t elements = Ok t' /\
    lines t' = (lines t ++ document_edges (map fst elements))%list.
Proof.
  induction 1 as [|[poly attr] elements [Hne Hall] _ IH]; intros t.
  - exists t. cbn. rewrite app_nil_r. auto.
  - destruct (draw_element_ok t poly attr Hne Hall) as (t1 & H1 & Hl1 & _).
    destruct (IH t1) as (t' & H' & Hl').
    exists t'. cbn [draw_elements]. unfold Polygon, Ring in *.
    rewrite H1. cbn [bind]. split; [exact H'|].
    cbn [map fst]. rewrite Hl', Hl1, document_edges_cons, <- app_assoc. reflexivity.
Qed.

Lemma draw_elements_inv (elements : list (Polygon * gmap string string)) :
  forall t t' : Turtle,
    draw_elements towards t elements = Ok t' ->
    Forall (fun pa => fst pa <> [] /\ Forall (fun ring : Ring => ring <> []) (fst pa)) elements.
Proof.
  induction elements as [|[poly attr] elements IH]; intros t t' H; [constructor|].
  cbn [draw_elements] in H.
  destruct (draw_element towards t (poly, attr)) as [t1|e] eqn:H1; cbn [bind] in H;
    [|discriminate].
  constructor; [|apply (IH t1 t' H)].
  cbn [fst]. unfold draw_element in H1. cbv zeta in H1.
  split.
  - intros ->. rewrite draw_multipolygon_raises in H1; [discriminate | left; reflexivity].
  - apply List.Forall_forall. intros ring Hin ->.
    rewrite draw_multipolygon_raises in H1; [discriminate | right; exact Hin].
Qed.

(** X12.  Whenever [read_svg] returns and the drawing part of [main]
    runs to its end on the surface, the segments it has drawn are the
    edges of every ring of every polygon, in document order, and no
    segment joins two rings or two polygons; it ends with the pen up and
    no stamp. *)
Theorem main_draws_the_document_in_order (doc : Document) (t t' : Turtle)
    (polys : list Polygon) (new_attrs : list (gmap string string))
    (svg_size : Q * Q) (viewbox : list Q) :
  read_svg doc default_seg_unit = Ok (polys, new_attrs, svg_size, viewbox) ->
  main_draw towards doc t = Ok t' ->
  lines t' = (lines t ++ document_edges polys)%list /\
  isdown t' = false /\
  stamps t' = 0%nat.
Proof.
  intros Hr Hm.
  destruct (read_svg_inv _ _ _ _ _ _ Hr) as (_ & _ & _ & Hlen).
  unfold main_draw in Hm. rewrite Hr in Hm. cbn [bind] in Hm.
  unfold draw_document in Hm.
  destruct (draw_elements towards t (combine polys new_attrs)) as [t1|e] eqn:H1;
    cbn [bind] in Hm; [|discriminate].
  injection Hm as <-.
  pose proof (draw_elements_inv _ _ _ H1) as Hel.
  destruct (draw_elements_ok (combine polys new_attrs) Hel t) as (t1' & H1' & Hl1).
  assert (t1' = t1) by congruence. subst t1'.
  cbn [t_up t_clearstamps t_tracer lines isdown stamps].
  split; [|auto].
  rewrite Hl1. f_equal. f_equal.
  clear - Hlen. revert new_attrs Hlen.
  induction polys as [|poly polys IH]; intros [|a new_attrs] Hlen;
    try discriminate; [reflexivity|].
  cbn [combine map fst]. rewrite IH; [reflexivity|].
  cbn in Hlen. lia.
Qed.

End DocumentDrawing.

Lemma draw_multipolygon_draws_the_rings_witness :
  [[(0, 0); (1, 0); (0, 0)]; [(2, 2); (3, 3); (2, 2)]] <> ([] : Polygon) /\
  exists t',
    draw_multipolygon towards_zero fresh_turtle
      [[(0, 0); (1, 0); (0, 0)]; [(2, 2); (3, 3); (2, 2)]] "red" "red" = Ok t' /\
    List.length (lines t') = 4%nat /\
    fill_calls t' = [CallBeginFill; CallEndFill] /\
    exists before during,
      calls t' = (before ++ [CallBeginFill] ++ during ++ [CallEndFill])%list /\
      lines (replay fresh_turtle before) = [].
Proof.
  split; [discriminate|].
  destruct (draw_multipolygon_draws_the_rings towards_zero fresh_turtle
              [[(0, 0); (1, 0); (0, 0)]; [(2, 2); (3, 3); (2, 2)]] "red" "red")
    as (t' & H & Hl & _ & Hf & Hb).
  - discriminate.
  - repeat constructor; discriminate.
  - exists t'. split; [exact H|]. rewrite Hl, Hf. split; [reflexivity|].
    split; [reflexivity|].
    destruct (Hb eq_refl) as (before & during & Hc & Hl0 & _).
    exists before, during. split; [exact Hc | exact Hl0].
Defined.

Lemma draw_multipolygon_needs_points_witness :
  In ([] : Ring) [[(0, 0); (1, 0)]; []] /\
  draw_multipolygon towards_zero fresh_turtle [[(0, 0); (1, 0)]; []] "red" "red"
  = Raise IndexError.
Proof.
  split; [right; left; reflexivity|].
  apply draw_multipolygon_needs_points. right. right. left. reflexivity.
Defined.

Lemma ring_outline_is_a_loop_witness :
  exists ring p t',
    make_ring mat_identity 8 [line_segment (0, 0) (17, 0) 17] = Ok ring /\
    head ring = Some p /\
    draw_polygon towards_zero fresh_turtle ring "none" "black" = Ok t' /\
    position t' = flip_y p.
Proof.
  destruct (make_ring mat_identity 8 [line_segment (0, 0) (17, 0) 17]) as [ring|e] eqn:E.
  - destruct (ring_outline_is_a_loop towards_zero _ _ _ _ fresh_turtle "none" "black" E)
      as (p & t' & Hh & Hd & Hp & _).
    exists ring, p, t'. auto.
  - vm_compute in E. discriminate E.
Defined.

Lemma main_draws_the_document_in_order_witness :
  exists t',
    main_draw (math := quarter_math) towards_zero sized_doc fresh_turtle = Ok t' /\
    List.length (lines t') = 8%nat /\
    isdown t' = false.
Proof.
  assert (Hp : polys_of (read_svg (math := quarter_math) sized_doc default_seg_unit)
               = sized_doc_polys) by (vm_compute; reflexivity).
  pose proof (main_draws_the_document_in_order (math := quarter_math) towards_zero
                sized_doc fresh_turtle) as Hm.
  destruct (main_draw (math := quarter_math) towards_zero sized_doc fresh_turtle)
    as [t'|e] eqn:Hd; [|vm_compute in Hd; discriminate Hd].
  destruct (read_svg (math := quarter_math) sized_doc default_seg_unit)
    as [[[[polys new_attrs] svg_size] viewbox]|e]; cbn [polys_of] in Hp.
  - destruct (Hm t' _ _ _ _ eq_refl eq_refl) as (Hl & Hdn & _).
    exists t'. split; [reflexivity|]. split; [|exact Hdn].
    rewrite Hl, Hp. reflexivity.
  - discriminate Hp.
Defined.

Lemma read_svg_keeps_structure_witness :
  exists polys,
    polys_of (read_svg (math := quarter_math) sized_doc 8) = polys /\
    List.length polys = 1%nat.
Proof.
  pose proof (read_svg_keeps_structure (math := quarter_math) sized_doc 8) as Hk.
  assert (Hp : polys_of (read_svg (math := quarter_math) sized_doc 8) = sized_doc_polys)
    by (vm_compute; reflexivity).
  destruct (read_svg (math := quarter_math) sized_doc 8)
    as [[[[polys new_attrs] svg_size] viewbox]|e]; cbn [polys_of] in Hp |- *.
  - exists polys. split; [reflexivity|].
    destruct (Hk _ _ _ _ eq_refl) as (Hl & _). exact Hl.
  - discriminate Hp.
Defined.

(** ** Attributes *)

Lemma style_step_binding (attr : gmap string string) (item : string) :
  style_step attr item =
  match item_binding item with
  | Some (k, v) => <[k := v]> attr
  | None => attr
  end.
Proof.
  unfold style_step, item_binding.
  destruct (is_empty item); [reflexivity|].
  destruct (contains_char colon item); [|reflexivity].
  destruct (split_once colon item). reflexivity.
Qed.

Lemma fold_style_union (items : list string) (attr : gmap string string) :
  fold_left style_step items attr
  = list_to_map (rev (omap item_binding items)) ∪ attr.
Proof.
  revert attr. induction items as [|item items IH]; intros attr.
  - cbn. rewrite (left_id_L ∅ (∪)). reflexivity.
  - cbn [fold_left omap list_omap]. rewrite IH, style_step_binding.
    destruct (item_binding item) as [[k v]|]; [|reflexivity].
    cbn [rev]. rewrite list_to_map_app. cbn [list_to_map foldr].
    rewrite <- (assoc_L (∪)), <- insert_union_l, (left_id_L ∅ (∪)). reflexivity.
Qed.

(** X13.  Expanding the inline style overwrites the discrete attributes:
    the dictionary becomes the entries of the style laid over the
    attributes, a later entry of the style prevailing over an earlier
    one with the same key; without a [style] attribute nothing
    changes. *)
Theorem expand_style_overrides (attr : gmap string string) :
  expand_style attr =
  match attr !! "style" with
  | Some style => list_to_map (rev (style_bindings style)) ∪ attr
  | None => attr
  end.
Proof.
  unfold expand_style, style_bindings.
  destruct (attr !! "style") as [style|]; [apply fold_style_union | reflexivity].
Qed.

(** X14.  After [default_stroke] the stroke is the one given, or else the
    fill when there is one; no other key changes. *)
Theorem default_stroke_lookup (attr : gmap string string) :
  default_stroke attr !! "stroke" =
    match attr !! "stroke" with
    | Some s => Some s
    | None => attr !! "fill"
    end /\
  forall k : string, k <> "stroke" -> default_stroke attr !! k = attr !! k.
Proof.
  unfold default_stroke.
  destruct (attr !! "stroke") as [s|] eqn:Hs.
  - split; [exact Hs | reflexivity].
  - destruct (attr !! "fill") as [f|] eqn:Hf.
    + split; [apply lookup_insert_eq|].
      intros k Hk. apply lookup_insert_ne. congruence.
    + split; [exact Hs | reflexivity].
Qed.

(** ** Dimensions *)

Lemma string_all_digits_not_space (d : string) :
  string_all is_digit d = true -> string_all (fun c => negb (is_space c)) d = true.
Proof.
  apply string_all_impl. intros c Hc.
  unfold is_space. unfold is_digit in Hc. chars.
Qed.

Lemma strip_digits (d : string) : string_all is_digit d = true -> strip d = d.
Proof.
  intros Hd. unfold strip.
  rewrite lstrip_by_id.
  - apply rstrip_by_id. apply string_all_digits_not_space. exact Hd.
  - apply digits_start; [|exact Hd]. intros c Hc.
    unfold is_space. unfold is_digit in Hc. chars.
Qed.

Lemma remove_px_digits (d : string) :
  string_all is_digit d = true -> remove_px d = d /\ remove_px (d ++ "px") = d.
Proof.
  induction d as [|c d IH]; intros Hd; [split; reflexivity|].
  cbn [string_all] in Hd. apply andb_true_iff in Hd as [Hc Hd].
  destruct (IH Hd) as [IH1 IH2].
  assert (Hp : is_char 112 c = false) by chars.
  split.
  - cbn [remove_px]. destruct d as [|c' d']; [reflexivity|].
    rewrite Hp. cbn [andb]. rewrite IH1. reflexivity.
  - rewrite append_cons. cbn [remove_px].
    destruct (d ++ "px") as [|c' r] eqn:E.
    + destruct d; discriminate E.
    + rewrite Hp. cbn [andb]. rewrite IH2. reflexivity.
Qed.

Lemma py_float_digits (d : string) :
  string_all is_digit d = true -> is_empty d = false ->
  py_float d = Ok (decimal_value false d EmptyString 0).
Proof.
  intros Hd Hne. unfold py_float.
  assert (Hs : string_all (fun c => negb (is_float_space c)) d = true)
    by (apply (string_all_impl is_digit); [apply digit_not_float_space | exact Hd]).
  rewrite lstrip_by_id, (rstrip_by_id _ _ Hs).
  - rewrite opt_sign_none by (apply digits_start; [intros c Hc; chars | exact Hd]).
    replace (digitpart d) with (digitpart (d ++ EmptyString))
      by (rewrite append_nil_r; reflexivity).
    rewrite digitpart_digits by (exact Hd || reflexivity).
    rewrite Hne. reflexivity.
  - apply digits_start; [intros c Hc; chars | exact Hd].
Qed.

Lemma decimal_value_digits (d : string) :
  decimal_value false d EmptyString 0 == inject_Z (digits_val d).
Proof.
  unfold decimal_value. rewrite append_nil_r.
  change (pow10 (- Z.of_nat (String.length EmptyString))) with 1.
  change (pow10 0) with 1. ring.
Qed.

(** X15.  A dimension written as a whole number, with or without the
    [px] suffix, is read as that number; a missing dimension is read as
    the default. *)
Theorem to_float_reads_pixels (d : string) (default : Q) :
  string_all is_digit d = true -> is_empty d = false ->
  _to_float (Some d) default == inject_Z (digits_val d) /\
  _to_float (Some (d ++ "px")) default == inject_Z (digits_val d) /\
  _to_float None default = default.
Proof.
  intros Hd Hne. destruct (remove_px_digits d Hd) as [H1 H2].
  unfold _to_float.
  rewrite H1, H2, (strip_digits d Hd), (py_float_digits d Hd Hne).
  cbn [try_except].
  split; [apply decimal_value_digits|]. split; [apply decimal_value_digits | reflexivity].
Qed.

Lemma to_float_reads_pixels_witness :
  string_all is_digit "100" = true /\ is_empty "100" = false /\
  _to_float (Some "100px") 0 == 100.
Proof.
  split; [reflexivity|]. split; [reflexivity|].
  destruct (to_float_reads_pixels "100" 0) as (_ & H & _); [reflexivity | reflexivity |].
  exact H.
Defined.

(** ** Sampling *)

(** X16.  The parameters at which a segment is sampled lie between 0 and
    1: [seg.point] is never called outside the interval on which the
    curve is defined. *)
Theorem samples_stay_on_the_curve (seg_unit : Q) (seg : Segment) (pts : list Point2) :
  sample_segment seg_unit seg = Ok pts ->
  exists ts : list Q,
    pts = map (seg_point seg) ts /\
    Forall (fun t => 0 <= t /\ t <= 1) ts.
Proof.
  intros H. apply sample_segment_inv in H as (q & _ & ->).
  set (n := Z.max 2 (Qceiling q)).
  assert (Hn : (2 <= n)%Z) by (unfold n; lia).
  exists (linspace n). split; [reflexivity|].
  apply List.Forall_forall. intros t Hin.
  unfold linspace in Hin. apply in_map_iff in Hin as (i & <- & Hi).
  apply in_seq in Hi.
  assert (Hpos : 0 < inject_Z (n - 1)).
  { change 0 with (inject_Z 0). rewrite <- Zlt_Qlt. lia. }
  split.
  - apply Qle_shift_div_l; [exact Hpos|]. rewrite Qmult_0_l.
    change 0 with (inject_Z 0). rewrite <- Zle_Qle. lia.
  - apply Qle_shift_div_r; [exact Hpos|]. rewrite Qmult_1_l.
    rewrite <- Zle_Qle. lia.
Qed.

Lemma samples_stay_on_the_curve_witness :
  exists pts ts,
    sample_segment 8 (line_segment (0, 0) (17, 0) 17) = Ok pts /\
    pts = map (seg_point (line_segment (0, 0) (17, 0) 17)) ts /\
    Forall (fun t => 0 <= t /\ t <= 1) ts.
Proof.
  destruct (sample_segment 8 (line_segment (0, 0) (17, 0) 17)) as [pts|e] eqn:E.
  - destruct (samples_stay_on_the_curve _ _ _ E) as (ts & Hp & Ht).
    exists pts, ts. auto.
  - vm_compute in E. discriminate E.
Defined.

(** ** Matrices *)

(** X17.  Matrix multiplication is associative and has the identity
    matrix as unit on both sides, as rational numbers. *)
Theorem mat_mul_is_a_monoid (a b c : Mat) :
  mat_eq (mat_mul (mat_mul a b) c) (mat_mul a (mat_mul b c)) /\
  mat_eq (mat_mul mat_identity a) a /\
  mat_eq (mat_mul a mat_identity) a.
Proof.
  split; [apply mat_mul_assoc|]. split; [apply mat_mul_id_l | apply mat_mul_id_r].
Qed.

(** X18.  Applying a product of matrices to a point is applying the right
    factor and then the left one, when the right factor has the last row
    [0, 0, 1]; the identity matrix leaves every point in place. *)
Theorem mat_apply_composes (a b : Mat) (x y : Q) :
  affine b ->
  point_eq (mat_apply (mat_mul a b) x y)
           (mat_apply a (fst (mat_apply b x y)) (snd (mat_apply b x y))) /\
  point_eq (mat_apply mat_identity x y) (x, y).
Proof.
  intros Hb. split; [apply mat_apply_mul; exact Hb | apply mat_apply_identity].
Qed.

Lemma mat_apply_composes_witness :
  affine (mkMat 1 0 5 0 1 5 0 0 1) /\
  point_eq (mat_apply (mat_mul (mkMat 2 0 0 0 2 0 0 0 1) (mkMat 1 0 5 0 1 5 0 0 1)) 1 1)
           (12, 12).
Proof.
  split; [repeat split|].
  destruct (mat_apply_composes (mkMat 2 0 0 0 2 0 0 0 1) (mkMat 1 0 5 0 1 5 0 0 1) 1 1)
    as [[H1 H2] _]; [repeat split|].
  split; [rewrite H1 | rewrite H2]; reflexivity.
Defined.

(** ** Transform lists, further *)

(** X19.  [parse_numbers] never raises: every text that [float_re]
    matches is one that [float] accepts, so the list has one number for
    each match. *)
Theorem parse_numbers_never_raises (s : string) :
  exists vals,
    parse_numbers s = Ok vals /\
    List.length vals = List.length (findall_floats s).
Proof.
  destruct (parse_numbers_total s) as [vals Hv].
  exists vals. split; [exact Hv|].
  apply (map_result_length _ _ _ Hv).
Qed.

Lemma string_all_lstrip (p q : ascii -> bool) (s : string) :
  string_all q s = true -> string_all q (lstrip_by p s) = true.
Proof.
  induction s as [|c s IH]; [reflexivity|].
  intros H. cbn [lstrip_by]. destruct (p c); [|exact H].
  cbn [string_all] in H. apply andb_true_iff in H as [_ H]. apply IH. exact H.
Qed.

Lemma string_all_rstrip (p q : ascii -> bool) (s : string) :
  string_all q s = true -> string_all q (rstrip_by p s) = true.
Proof.
  induction s as [|c s IH]; [reflexivity|].
  intros H. cbn [string_all] in H. apply andb_true_iff in H as [Hc H].
  cbn [rstrip_by]. destruct (is_empty (rstrip_by p s) && p c); [reflexivity|].
  cbn [string_all]. rewrite Hc, (IH H). reflexivity.
Qed.

Lemma span_rest_all (p q : ascii -> bool) (s a r : string) :
  span p s = (a, r) -> string_all q s = true -> string_all q r = true.
Proof.
  intros Hs Hq. apply span_spec in Hs as (-> & _ & _).
  rewrite string_all_app in Hq. apply andb_true_iff in Hq as [_ Hq]. exact Hq.
Qed.

Lemma match_call_needs_parenthesis (s : string) :
  string_all (fun c => negb (is_char lparen c)) s = true -> match_call s = None.
Proof.
  intros H. unfold match_call.
  destruct (span is_word s) as [func s1] eqn:E1.
  destruct (is_empty func); [reflexivity|].
  destruct (span is_space s1) as [sp s2] eqn:E2.
  pose proof (span_rest_all _ _ _ _ _ E2 (span_rest_all _ _ _ _ _ E1 H)) as H2.
  destruct s2 as [|c s3]; [reflexivity|].
  cbn [string_all] in H2. apply andb_true_iff in H2 as [Hc _].
  apply negb_true_iff in Hc. rewrite Hc. reflexivity.
Qed.

Lemma findall_calls_needs_parenthesis (s : string) (skip : nat) :
  string_all (fun c => negb (is_char lparen c)) s = true ->
  findall_calls_from skip s = [].
Proof.
  revert skip. induction s as [|c s IH]; intros skip H; [reflexivity|].
  cbn [findall_calls_from].
  assert (Hs : string_all (fun c => negb (is_char lparen c)) s = true).
  { cbn [string_all] in H. apply andb_true_iff in H as [_ H]. exact H. }
  destruct skip as [|k]; [|apply IH; exact Hs].
  rewrite (match_call_needs_parenthesis _ H). apply IH. exact Hs.
Qed.

Section TransformFurther.

Context {math : MathLib}.

(** X21.  A transform string without an opening parenthesis holds no
    function call and yields the identity matrix. *)
Theorem transform_without_call_is_identity (s : string) :
  string_all (fun c => negb (is_char lparen c)) s = true ->
  parse_transform s = Ok mat_identity.
Proof.
  intros H. unfold parse_transform. destruct (is_empty s); [reflexivity|].
  unfold findall_calls, strip.
  rewrite findall_calls_needs_parenthesis; [reflexivity|].
  apply string_all_rstrip, string_all_lstrip. exact H.
Qed.

(** X22.  [rotate(angle, cx, cy)] leaves the centre [(cx, cy)] in place,
    whatever the values of the cosine and of the sine. *)
Theorem rotate_fixes_its_centre (ang cx cy : Q) (rest : list Q) :
  point_eq (mat_apply (transform_matrix "rotate" (ang :: cx :: cy :: rest)) cx cy)
           (cx, cy).
Proof.
  unfold transform_matrix.
  cbn [String.eqb Ascii.eqb Bool.eqb List.length Nat.ltb Nat.leb item nth].
  unfold point_eq, mat_apply, mat_mul, translation, rotation.
  cbn [fst snd m00 m01 m02 m10 m11 m12 m20 m21 m22].
  split; ring.
Qed.

End TransformFurther.

Lemma transform_without_call_is_identity_witness :
  string_all (fun c => negb (is_char lparen c)) "translate 5 10" = true /\
  parse_transform (math := quarter_math) "translate 5 10" = Ok mat_identity.
Proof.
  split; [reflexivity|].
  apply (transform_without_call_is_identity (math := quarter_math)). reflexivity.
Defined.

(** ** Colours *)

Section Colours.

Variable towards : Point2 -> Q -> Q -> Q.

Lemma head_to_color_calls (t : Turtle) (x y : Q) (draw : bool) :
  color_calls (head_to towards t x y draw) = color_calls t.
Proof.
  unfold color_calls, head_to, t_pen, t_stamp, t_goto, t_clearstamps, t_seth, log.
  cbn [calls]. rewrite !List.filter_app. cbn. rewrite !app_nil_r. reflexivity.
Qed.

Lemma trace_points_color_calls (rest : list Point2) (t : Turtle) :
  color_calls (fold_left (fun t p => head_to towards t (fst p) (- snd p) true) rest t)
  = color_calls t.
Proof.
  revert t. induction rest as [|p rest IH]; intros t; [reflexivity|].
  cbn [fold_left]. rewrite IH. apply head_to_color_calls.
Qed.

(** The fill colour that [draw_polygon] sets. *)
Lemma draw_polygon_color_calls (t t' : Turtle) (poly : Ring) (fill stroke : string) :
  draw_polygon towards t poly fill stroke = Ok t' ->
  color_calls t' =
  (color_calls t ++ [CallColor stroke (if String.eqb fill "none" then "black" else fill)])%list.
Proof.
  unfold draw_polygon. destruct poly as [|p rest]; [discriminate|].
  intros H. injection H as <-.
  unfold color_calls at 1. cbn [t_up calls]. unfold log.
  rewrite List.filter_app. cbn [List.filter is_color_call]. rewrite app_nil_r.
  fold (color_calls
          (fold_left (fun t p => head_to towards t (fst p) (- snd p) true) rest
             (head_to towards
                (t_color stroke (if String.eqb fill "none" then "black" else fill) t)
                (fst p) (- snd p) false))).
  rewrite trace_points_color_calls, head_to_color_calls.
  unfold color_calls, t_color, log. cbn [calls].
  rewrite List.filter_app. reflexivity.
Qed.

Lemma draw_rings_color_calls (p : Point2) (fill stroke : string) (rings : list Ring) :
  forall (i : nat) (t t' : Turtle),
    draw_rings towards p fill stroke i rings t = Ok t' ->
    color_calls t' =
    (color_calls t ++
     repeat (CallColor stroke (if String.eqb fill "none" then "black" else fill))
            (List.length rings))%list.
Proof.
  induction rings as [|ring rings IH]; intros i t t' H.
  - cbn in H. injection H as <-. cbn. rewrite app_nil_r. reflexivity.
  - cbn [draw_rings] in H.
    destruct (draw_polygon towards t ring fill stroke) as [t1|e] eqn:H1;
      cbn [bind] in H; [|discriminate].
    apply IH in H. rewrite H. clear H.
    assert (H2 : color_calls (if (i =? 0)%nat then t1
                              else head_to towards t1 (fst p) (- snd p) false)
                 = color_calls t1).
    { destruct (i =? 0)%nat; [reflexivity | apply head_to_color_calls]. }
    rewrite H2, (draw_polygon_color_calls _ _ _ _ _ H1), <- app_assoc. reflexivity.
Qed.

(** X24.  [draw_multipolygon] sets the colours once for each ring, to
    the stroke and the fill it is given, with [black] in the place of a
    fill [none]; it sets no other colour. *)
Theorem draw_multipolygon_colours (t t' : Turtle) (mpoly : Polygon) (fill stroke : string) :
  draw_multipolygon towards t mpoly fill stroke = Ok t' ->
  color_calls t' =
  (color_calls t ++
   repeat (CallColor stroke (if String.eqb fill "none" then "black" else fill))
          (List.length mpoly))%list.
Proof.
  unfold draw_multipolygon.
  destruct mpoly as [|[|p ring] rings]; [discriminate | discriminate |].
  cbv zeta. unfold Ring, Polygon in *.
  set (t1 := if String.eqb fill "none"
             then head_to towards t (fst p) (- snd p) false
             else t_begin_fill (head_to towards t (fst p) (- snd p) false)).
  destruct (draw_rings towards p fill stroke 0 ((p :: ring) :: rings) t1) as [t2|e] eqn:H2;
    cbn [bind]; [|discriminate].
  intros H. injection H as <-.
  apply draw_rings_color_calls in H2.
  assert (H1 : color_calls t1 = color_calls t).
  { unfold t1. destruct (String.eqb fill "none"); [apply head_to_color_calls|].
    unfold color_calls at 1. cbn [t_begin_fill calls]. unfold log.
    rewrite List.filter_app. cbn [List.filter is_color_call]. rewrite app_nil_r.
    apply head_to_color_calls. }
  rewrite H1 in H2.
  assert (H3 : color_calls (if String.eqb fill "none" then t2 else t_end_fill t2)
               = color_calls t2).
  { destruct (String.eqb fill "none"); [reflexivity|].
    unfold color_calls at 1. cbn [t_end_fill calls]. unfold log.
    rewrite List.filter_app. cbn [List.filter is_color_call]. apply app_nil_r. }
  rewrite H3. exact H2.
Qed.

End Colours.

Lemma draw_multipolygon_colours_witness :
  exists t',
    draw_multipolygon towards_zero fresh_turtle [[(0, 0); (1, 0); (0, 0)]] "none" "red"
    = Ok t' /\
    color_calls t' = [CallColor "red" "black"].
Proof.
  destruct (draw_multipolygon towards_zero fresh_turtle [[(0, 0); (1, 0); (0, 0)]] "none" "red")
    as [t'|e] eqn:E.
  - exists t'. split; [reflexivity|].
    rewrite (draw_multipolygon_colours _ _ _ _ _ _ E). reflexivity.
  - vm_compute in E. discriminate E.
Defined.
